(** * LRU-K cache ([LRU-K.cpp]): shallow embedding and verification

    The C++ class [LRUK_Cache<KEY, VALUE>] keeps two [std::list]s of
    [CacheEntry] (the history list and the cache list) and, for each, an
    [unordered_map] from keys to list iterators.  The embedding follows the
    instantiation used by [main], [LRUK_Cache<int, string>].

    - A [std::list] is a Rocq list of nodes; every node carries the address
      it was allocated at, and a list iterator is either that address or the
      past-the-end iterator of one of the two lists.  Iterators therefore stay
      valid across [sort], [splice] and unrelated [erase]s, as in C++.
    - An [unordered_map] is a [gmap]; [emplace] does not overwrite.
    - [std::queue<time_point>] is a list, oldest reading first: [front] is
      the head, [push] appends, [pop] drops the head.
    - [steady_clock::now()] is an input: each operation receives the reading
      [now] of the clock (a tick count in [Z]).
    - Undefined behaviour of the C++ (dereferencing a past-the-end or dangling
      iterator, [--end()] of an empty list) is the result [None].
    - Comparing iterators is [iterator_eqb]: equal addresses, or the same
      past-the-end iterator.  After a promotion [getFromHistoryList] returns
      an iterator into [cacheList_], which [get] and [put] compare with
      [historyList_.end()]; C++ defines [==] for iterators of one container
      only.  The embedding gives this comparison the value the code relies
      on, "not equal", and does not make it a [None]: a result [Some] says
      nothing about it.  The last section tells when it is made.
    - Keys are [int]s in [main]; the class only tests keys for equality and
      hashes them, so they are taken in [Z] without a range.  Values are
      strings.
    - [capacity_] and [k_] are [int]s compared with [size_t] sizes; the
      conversion is [to_size_t], for a 64-bit [size_t].

    On a state reached by the public interface of a cache with K ≥ 1 an
    operation reads the clock once: a probe of the cache list that reports a
    miss has changed nothing ([getFromCacheList_end]), so one reading [now]
    per operation is enough.  The allocator of the model never hands out an
    address twice, and the nodes of the two lists have distinct addresses
    ([reachable_allocated]); C++ may reuse the storage of an erased node,
    which the class cannot observe, since each index map drops the key
    before its node is erased.

    After the embedding and the invariants, the file states what the code
    does call by call (the paths of the two probes, insertion, eviction,
    [clear], [print]), what the whole of [main] does, how the two [int]s of
    the configuration act once they are compared as [size_t], and two
    symmetries of the class: node addresses and clock values matter up to
    their order only. *)

From stdpp Require Import gmap strings list fin_maps sorting pretty.

#[local] Set Warnings "-clear-no-such-hyp".

(** ** Data model *)

Abbreviation KEY := Z (only parsing).
Abbreviation VALUE := string (only parsing).
Abbreviation time_point := Z (only parsing).

Record CacheEntry := mkEntry {
  key_ : KEY;
  value_ : VALUE;
  access_time_ : list time_point
}.

(** [std::queue] operations on [access_time_]. *)
Definition q_push (t : time_point) (e : CacheEntry) : CacheEntry :=
  mkEntry (key_ e) (value_ e) (access_time_ e ++ [t]).

Definition q_pop (e : CacheEntry) : CacheEntry :=
  mkEntry (key_ e) (value_ e) (tail (access_time_ e)).

Definition q_size (e : CacheEntry) : Z := Z.of_nat (length (access_time_ e)).

(** [front()] of an empty queue is undefined in C++; no entry of the cache
    ever has an empty queue when it is compared (lemma
    [reachable_queues_nonempty]), the default is never observed. *)
Definition q_front (e : CacheEntry) : time_point := hd 0%Z (access_time_ e).

Definition set_value (v : VALUE) (e : CacheEntry) : CacheEntry :=
  mkEntry (key_ e) v (access_time_ e).

(** [compareByAccessTime]: [a.access_time_.front() > b.access_time_.front()]. *)
Definition compareByAccessTime (a b : CacheEntry) : bool :=
  (q_front b <? q_front a)%Z.

(** A list node: the element and the address of the node. *)
Record node := mkNode { addr : nat; elem : CacheEntry }.

Definition nkey (n : node) : KEY := key_ (elem n).

Inductive iterator :=
| cache_end      (* cacheList_.end() *)
| history_end    (* historyList_.end() *)
| node_at (a : nat).

Definition iterator_eqb (i j : iterator) : bool :=
  match i, j with
  | cache_end, cache_end => true
  | history_end, history_end => true
  | node_at a, node_at b => Nat.eqb a b
  | _, _ => false
  end.

Record LRUK_Cache := mkCache {
  capacity_ : Z;
  k_ : Z;
  historyList_ : list node;
  cacheList_ : list node;
  history_map_ : gmap Z iterator;
  cache_map_ : gmap Z iterator;
  next_ : nat      (* next address handed out by the allocator *)
}.

(** The fields [capacity_] and [k_] are [int]s and are compared with
    [size()] results of type [size_t]: the [int] is converted to the
    unsigned type, a negative value wrapping around (64-bit [size_t]). *)
Definition to_size_t (z : Z) : Z := if (z <? 0)%Z then (z + 2 ^ 64)%Z else z.

(** ** [std::list] primitives on node lists *)

Definition find_node (a : nat) (l : list node) : option node :=
  List.find (λ n, Nat.eqb (addr n) a) l.

Definition modify_node (a : nat) (f : CacheEntry → CacheEntry) (l : list node)
  : list node :=
  (λ n, if Nat.eqb (addr n) a then mkNode (addr n) (f (elem n)) else n) <$> l.

Definition erase_node (a : nat) (l : list node) : list node :=
  List.filter (λ n, negb (Nat.eqb (addr n) a)) l.

Definition list_begin (past_end : iterator) (l : list node) : iterator :=
  match l with
  | [] => past_end
  | n :: _ => node_at (addr n)
  end.

(** [list::sort(comp)] is a stable sort; insertion from the right keeps an
    element in front of the later elements it is equivalent to. *)
Fixpoint sort_insert (x : node) (l : list node) : list node :=
  match l with
  | [] => [x]
  | y :: l' =>
      if compareByAccessTime (elem y) (elem x) then y :: sort_insert x l'
      else x :: y :: l'
  end.

Definition list_sort (l : list node) : list node := foldr sort_insert [] l.

(** ** Field updates *)

Definition with_historyList (l : list node) (s : LRUK_Cache) : LRUK_Cache :=
  mkCache (capacity_ s) (k_ s) l (cacheList_ s) (history_map_ s) (cache_map_ s)
          (next_ s).

Definition with_cacheList (l : list node) (s : LRUK_Cache) : LRUK_Cache :=
  mkCache (capacity_ s) (k_ s) (historyList_ s) l (history_map_ s)
          (cache_map_ s) (next_ s).

Definition with_history_map (m : gmap Z iterator) (s : LRUK_Cache) : LRUK_Cache :=
  mkCache (capacity_ s) (k_ s) (historyList_ s) (cacheList_ s) m (cache_map_ s)
          (next_ s).

Definition with_cache_map (m : gmap Z iterator) (s : LRUK_Cache) : LRUK_Cache :=
  mkCache (capacity_ s) (k_ s) (historyList_ s) (cacheList_ s) (history_map_ s)
          m (next_ s).

Definition with_next (a : nat) (s : LRUK_Cache) : LRUK_Cache :=
  mkCache (capacity_ s) (k_ s) (historyList_ s) (cacheList_ s) (history_map_ s)
          (cache_map_ s) a.

(** [m.emplace(k, it)]: inserts only when [k] has no mapping yet. *)
Definition map_emplace (k : KEY) (it : iterator) (m : gmap Z iterator)
  : gmap Z iterator :=
  match m !! k with
  | Some _ => m
  | None => <[k := it]> m
  end.

(** ** Iterators into the state *)

(** [*it]: the node an iterator points to, in whichever list it lives. *)
Definition deref (it : iterator) (s : LRUK_Cache) : option CacheEntry :=
  match it with
  | node_at a => elem <$> find_node a (cacheList_ s ++ historyList_ s)
  | _ => None
  end.

(** [it->field = ...]: update of the node the iterator points to. *)
Definition update_at (it : iterator) (f : CacheEntry → CacheEntry)
    (s : LRUK_Cache) : option LRUK_Cache :=
  match it with
  | node_at a =>
      _ ← find_node a (cacheList_ s ++ historyList_ s);
      Some (with_cacheList (modify_node a f (cacheList_ s))
              (with_historyList (modify_node a f (historyList_ s)) s))
  | _ => None
  end.

(** [cacheList_.erase(it)] and [historyList_.erase(it)]: the iterator has to
    point into that list. *)
Definition cacheList_erase (it : iterator) (s : LRUK_Cache) : option LRUK_Cache :=
  match it with
  | node_at a =>
      _ ← find_node a (cacheList_ s);
      Some (with_cacheList (erase_node a (cacheList_ s)) s)
  | _ => None
  end.

Definition historyList_erase (it : iterator) (s : LRUK_Cache) : option LRUK_Cache :=
  match it with
  | node_at a =>
      _ ← find_node a (historyList_ s);
      Some (with_historyList (erase_node a (historyList_ s)) s)
  | _ => None
  end.

(** [cacheList_.emplace(cacheList_.end(), e)]: a new node at the back. *)
Definition cacheList_emplace_back (e : CacheEntry) (s : LRUK_Cache) : LRUK_Cache :=
  with_next (S (next_ s))
    (with_cacheList (cacheList_ s ++ [mkNode (next_ s) e]) s).

(** [historyList_.emplace_front(e)]: a new node at the front. *)
Definition historyList_emplace_front (e : CacheEntry) (s : LRUK_Cache) : LRUK_Cache :=
  with_next (S (next_ s))
    (with_historyList (mkNode (next_ s) e :: historyList_ s) s).

(** [historyList_.splice(historyList_.begin(), historyList_, it)]. *)
Definition historyList_splice_front (it : iterator) (s : LRUK_Cache)
  : option LRUK_Cache :=
  match it with
  | node_at a =>
      n ← find_node a (historyList_ s);
      Some (with_historyList (n :: erase_node a (historyList_ s)) s)
  | _ => None
  end.

(** ** The private member functions *)

(** [--cacheList_.end()]. *)
Definition findVictimFromCache (s : LRUK_Cache) : option iterator :=
  n ← last (cacheList_ s); Some (node_at (addr n)).

(** [--historyList_.end()]. *)
Definition findVictimFromHistory (s : LRUK_Cache) : option iterator :=
  n ← last (historyList_ s); Some (node_at (addr n)).

Definition findCacheEntry (k : KEY) (s : LRUK_Cache) : iterator :=
  match List.find (λ n, Z.eqb (nkey n) k) (cacheList_ s) with
  | Some n => node_at (addr n)
  | None => cache_end
  end.

Definition sort_cacheList (s : LRUK_Cache) : LRUK_Cache :=
  with_cacheList (list_sort (cacheList_ s)) s.

Definition getFromCacheList (now : time_point) (k : KEY) (s : LRUK_Cache)
  : option (iterator * LRUK_Cache) :=
  match cache_map_ s !! k with
  | Some it =>
      s1 ← update_at it (q_push now) s;
      e ← deref it s1;
      if (to_size_t (k_ s1) <? q_size e)%Z then
        s2 ← update_at it q_pop s1;
        let s3 := sort_cacheList s2 in
        let ret := findCacheEntry k s3 in
        let s4 := with_cache_map (delete k (cache_map_ s3)) s3 in
        let s5 := with_cache_map (map_emplace k ret (cache_map_ s4)) s4 in
        Some (ret, s5)
      else Some (cache_end, s1)
  | None => Some (cache_end, s)
  end.

(** The tail of the promotion branches: erase the promoted entry from the
    history, sort the cache list, look the key up and index it. *)
Definition finish_promotion (k : KEY) (entry_it : iterator) (s : LRUK_Cache)
  : option (iterator * LRUK_Cache) :=
  e ← deref entry_it s;
  let s1 := with_history_map (delete (key_ e) (history_map_ s)) s in
  s2 ← historyList_erase entry_it s1;
  let s3 := sort_cacheList s2 in
  let ret := findCacheEntry k s3 in
  Some (ret, with_cache_map (map_emplace k ret (cache_map_ s3)) s3).

(** The two branches of [getFromHistoryList] that move the entry at
    [entry_it] into the cache list: [cacheList_.size() < capacity_] and its
    [else]. *)
Definition promote (k : KEY) (entry_it : iterator) (s : LRUK_Cache)
  : option (iterator * LRUK_Cache) :=
  if (Z.of_nat (length (cacheList_ s)) <? to_size_t (capacity_ s))%Z then
    e ← deref entry_it s;
    let s3 := cacheList_emplace_back e s in
    finish_promotion k entry_it s3
  else
    vict ← findVictimFromCache s;
    e ← deref entry_it s;
    let s3 := cacheList_emplace_back e s in
    v ← deref vict s3;
    let s4 := historyList_emplace_front v s3 in
    let s5 := with_history_map
                (map_emplace (key_ v)
                   (list_begin history_end (historyList_ s4))
                   (history_map_ s4)) s4 in
    let s6 := with_cache_map (delete (key_ v) (cache_map_ s5)) s5 in
    s7 ← cacheList_erase vict s6;
    finish_promotion k entry_it s7.

Definition getFromHistoryList (now : time_point) (k : KEY) (s : LRUK_Cache)
  : option (iterator * LRUK_Cache) :=
  match history_map_ s !! k with
  | Some entry_it =>
      s1 ← update_at entry_it (q_push now) s;
      e1 ← deref entry_it s1;
      if (to_size_t (k_ s1) <=? q_size e1)%Z then
        s2 ← (if (to_size_t (k_ s1) <? q_size e1)%Z
              then update_at entry_it q_pop s1 else Some s1);
        promote k entry_it s2
      else
        s2 ← historyList_splice_front entry_it s1;
        Some (entry_it, s2)
  | None => Some (history_end, s)
  end.

(** ** The public interface *)

(** The constructor has no body and no check: it stores its arguments. *)
Definition LRUK_Cache_new (c k : Z) : LRUK_Cache :=
  mkCache c k [] [] ∅ ∅ 0.

(** A C++ constructor either returns the object or leaves through an
    exception; [LRUK_Cache(int c, int k)] has an empty body and member
    initialisers that cannot throw. *)
Inductive construction :=
| constructed (s : LRUK_Cache)
| rejected.

Definition construct (c k : Z) : construction :=
  constructed (LRUK_Cache_new c k).

Definition get (now : time_point) (k : KEY) (s : LRUK_Cache)
  : option (VALUE * bool * LRUK_Cache) :=
  '(entry_it, s1) ← getFromCacheList now k s;
  if negb (iterator_eqb entry_it cache_end) then
    e ← deref entry_it s1; Some (value_ e, true, s1)
  else
    '(entry_it, s2) ← getFromHistoryList now k s1;
    if negb (iterator_eqb entry_it history_end) then
      e ← deref entry_it s2; Some (value_ e, true, s2)
    else Some (EmptyString, false, s2).

(** [historyList_.emplace_front(k, v)], a push on [historyList_.begin()]
    and the [emplace] into the index. *)
Definition insert_new (now : time_point) (k : KEY) (v : VALUE) (s : LRUK_Cache)
  : option LRUK_Cache :=
  let s1 := historyList_emplace_front (mkEntry k v []) s in
  let b := list_begin history_end (historyList_ s1) in
  s2 ← update_at b (q_push now) s1;
  Some (with_history_map (map_emplace k b (history_map_ s2)) s2).

Definition put (now : time_point) (k : KEY) (v : VALUE) (s : LRUK_Cache)
  : option LRUK_Cache :=
  '(entry_it, s1) ← getFromCacheList now k s;
  if negb (iterator_eqb entry_it cache_end) then
    update_at entry_it (set_value v) s1
  else
    '(entry_it, s2) ← getFromHistoryList now k s1;
    if negb (iterator_eqb entry_it history_end) then
      update_at entry_it (set_value v) s2
    else if (Z.of_nat (length (historyList_ s2)) <? to_size_t (capacity_ s2))%Z then
      insert_new now k v s2
    else
      vict ← findVictimFromHistory s2;
      ev ← deref vict s2;
      let s3 := with_history_map (delete (key_ ev) (history_map_ s2)) s2 in
      s4 ← historyList_erase vict s3;
      insert_new now k v s4.

Definition clear (s : LRUK_Cache) : LRUK_Cache :=
  with_cacheList [] (with_cache_map ∅ (with_historyList [] (with_history_map ∅ s))).

(** ** Runs of the cache *)

Inductive op :=
| Get (k : KEY)
| Put (k : KEY) (v : VALUE)
| Clear.

Definition exec (now : time_point) (o : op) (s : LRUK_Cache) : option LRUK_Cache :=
  match o with
  | Get k => snd <$> get now k s
  | Put k v => put now k v s
  | Clear => Some (clear s)
  end.

(** The regions as the driver's [print] walks them. *)
Definition hot_keys (s : LRUK_Cache) : list KEY := nkey <$> cacheList_ s.
Definition history_keys (s : LRUK_Cache) : list KEY := nkey <$> historyList_ s.
Definition hot_entries (s : LRUK_Cache) : list CacheEntry := elem <$> cacheList_ s.
Definition history_entries (s : LRUK_Cache) : list CacheEntry :=
  elem <$> historyList_ s.

Fixpoint run (ops : list (time_point * op)) (s : LRUK_Cache) : option LRUK_Cache :=
  match ops with
  | [] => Some s
  | (now, o) :: ops' => s' ← exec now o s; run ops' s'
  end.

(** The state a run ends in (the start state if the run is undefined). *)
Definition after (ops : list (time_point * op)) (s : LRUK_Cache) : LRUK_Cache :=
  default s (run ops s).

(** The first call of [main]. *)
Definition main_first : list (time_point * op) := [(1, Put 1 "A")]%Z.

(** The first three calls of [main]: the history list is full. *)
Definition main_fill : list (time_point * op) :=
  [(1, Put 1 "A"); (2, Put 2 "B"); (3, Put 3 "C")]%Z.

(** The calls of [main] before [cache.put(5,"E1")], at the clock readings
    [t1] .. [t10]: both lists are full. *)
Definition scenario_warm (t1 t2 t3 t4 t5 t6 t7 t8 t9 t10 : time_point)
  : list (time_point * op) :=
  [(t1, Put 1 "A"); (t2, Put 2 "B"); (t3, Put 3 "C"); (t4, Put 4 "D");
   (t5, Get 2); (t6, Put 3 "C1"); (t7, Get 4); (t8, Put 5 "E"); (t9, Put 6 "F");
   (t10, Put 7 "G")]%Z.

Definition main_warm : list (time_point * op) :=
  scenario_warm 1 2 3 4 5 6 7 8 9 10.

(** The calls of [main] up to [cache.put(5,"E1")]. *)
Definition main_prefix : list (time_point * op) :=
  main_warm ++ [(11, Put 5 "E1")]%Z.

(** The key an operation is about. *)
Definition key_of (o : op) : option KEY :=
  match o with
  | Get k | Put k _ => Some k
  | Clear => None
  end.

(** ** The life of a key

    The source keeps no access counter: it keeps the window of the last K
    readings.  The cumulative access count of a key since its creation and
    the number of times it entered the Hot Region since then are followed
    along a run: both start again from 0 when the key leaves the cache. *)

Definition cached (k : KEY) (s : LRUK_Cache) : bool :=
  bool_decide (k ∈ hot_keys s ++ history_keys s).

Definition in_hot (k : KEY) (s : LRUK_Cache) : bool :=
  bool_decide (k ∈ hot_keys s).

(** [(count, entries into Hot)] of key [k] after operation [o] took the
    cache from [s] to [s']. *)
Definition life_step (k : KEY) (o : op) (s s' : LRUK_Cache) (l : nat * nat)
  : nat * nat :=
  if cached k s' then
    (if bool_decide (key_of o = Some k) then S (fst l) else fst l,
     if negb (in_hot k s) && in_hot k s' then S (snd l) else snd l)
  else (0, 0).

Fixpoint track (k : KEY) (ops : list (time_point * op)) (s : LRUK_Cache)
    (l : nat * nat) : option (LRUK_Cache * (nat * nat)) :=
  match ops with
  | [] => Some (s, l)
  | (now, o) :: ops' =>
      s' ← exec now o s; track k ops' s' (life_step k o s s' l)
  end.

(** The window of a key holds its last [min count K] readings. *)
Definition window_counts (K : Z) (k : KEY) (s : LRUK_Cache) (c : nat) : Prop :=
  (k ∉ hot_keys s ++ history_keys s → c = 0) ∧
  ∀ e, e ∈ hot_entries s ++ history_entries s → key_ e = k →
       q_size e = Z.min (Z.of_nat c) K.

(** ** Invariants *)

Definition addrs (l : list node) : list nat := addr <$> l.
Definition keys (l : list node) : list KEY := nkey <$> l.

(** [m] is the index of [l]: it maps exactly the keys of the nodes of [l],
    each to the iterator of its node. *)
Definition indexes (m : gmap Z iterator) (l : list node) : Prop :=
  ∀ k it, m !! k = Some it ↔ ∃ n, n ∈ l ∧ nkey n = k ∧ it = node_at (addr n).

(** Consecutive entries: the front one's oldest reading is at least as
    recent as the next one's. *)
Definition newer_or_equal (a b : node) : Prop :=
  (q_front (elem b) ≤ q_front (elem a))%Z.

(** Shape of the linked structure: node addresses and keys are unique over
    both lists, addresses come from the allocator, each map indexes its list. *)
Record wf (s : LRUK_Cache) : Prop := mkWf {
  wf_addr : NoDup (addrs (cacheList_ s ++ historyList_ s));
  wf_next : Forall (λ n, addr n < next_ s) (cacheList_ s ++ historyList_ s);
  wf_keys : NoDup (keys (cacheList_ s ++ historyList_ s));
  wf_cmap : indexes (cache_map_ s) (cacheList_ s);
  wf_hmap : indexes (history_map_ s) (historyList_ s)
}.

(** The invariant of a cache built with capacity [C] and threshold [K]. *)
Record inv (C K : Z) (s : LRUK_Cache) : Prop := mkInv {
  inv_wf : wf s;
  inv_capacity : capacity_ s = C;
  inv_k : k_ s = K;
  inv_hot_size : (Z.of_nat (length (cacheList_ s)) ≤ C)%Z;
  inv_history_size : (Z.of_nat (length (historyList_ s)) ≤ C)%Z;
  inv_hot_queue : Forall (λ n, q_size (elem n) = K) (cacheList_ s);
  inv_history_queue :
    Forall (λ n, (1 ≤ q_size (elem n) ≤ K)%Z) (historyList_ s);
  inv_sorted : Sorted newer_or_equal (cacheList_ s)
}.

(** States a cache built by [LRUK_Cache(C, K)] reaches through [get], [put]
    and [clear]; an operation that runs into undefined behaviour has no
    successor state. *)
Inductive reachable (C K : Z) : LRUK_Cache → Prop :=
| reachable_new : reachable C K (LRUK_Cache_new C K)
| reachable_step s now o s' :
    reachable C K s → exec now o s = Some s' → reachable C K s'.

(** The entry after one more access has been recorded in its window of
    the last [K] readings (the [push] and the conditional [pop]). *)
Definition touched (K : Z) (now : time_point) (e : CacheEntry) : CacheEntry :=
  if (to_size_t K <? q_size (q_push now e))%Z then q_pop (q_push now e)
  else q_push now e.

(** What an access leaves in the entry: the window after the access and,
    for a [put], the new value. *)
Definition write (ov : option VALUE) (e : CacheEntry) : CacheEntry :=
  match ov with
  | Some v => set_value v e
  | None => e
  end.

(** The effect of [get] ([ov = None]) and of [put] ([ov = Some v]) on a key
    that is in one of the two lists, as a relation between the state before,
    the entry found and the state after: the four paths through
    [getFromCacheList] and [getFromHistoryList]. *)
Inductive accessed (now : time_point) (ov : option VALUE)
  : LRUK_Cache → CacheEntry → LRUK_Cache → Prop :=
| accessed_hot C K hl l1 a e l2 hm cm nx :
    accessed now ov
      (mkCache C K hl (l1 ++ mkNode a e :: l2) hm cm nx) e
      (mkCache C K hl
         (list_sort (l1 ++ mkNode a (write ov (touched K now e)) :: l2))
         hm cm nx)
| accessed_history C K l1 a e l2 cl hm cm nx :
    (q_size e + 1 < K)%Z →
    accessed now ov
      (mkCache C K (l1 ++ mkNode a e :: l2) cl hm cm nx) e
      (mkCache C K (mkNode a (write ov (touched K now e)) :: l1 ++ l2) cl
         hm cm nx)
| accessed_promoted C K l1 a e l2 cl hm cm nx :
    (K ≤ q_size e + 1)%Z → (Z.of_nat (length cl) < C)%Z →
    accessed now ov
      (mkCache C K (l1 ++ mkNode a e :: l2) cl hm cm nx) e
      (mkCache C K (l1 ++ l2)
         (list_sort (cl ++ [mkNode nx (write ov (touched K now e))]))
         (delete (key_ e) hm) (<[key_ e := node_at nx]> cm) (S nx))
| accessed_demoting C K l1 a e l2 c1 av ev hm cm nx :
    (K ≤ q_size e + 1)%Z →
    (C ≤ Z.of_nat (length (c1 ++ [mkNode av ev])))%Z →
    accessed now ov
      (mkCache C K (l1 ++ mkNode a e :: l2) (c1 ++ [mkNode av ev]) hm cm nx) e
      (mkCache C K (mkNode (S nx) ev :: l1 ++ l2)
         (list_sort (c1 ++ [mkNode nx (write ov (touched K now e))]))
         (delete (key_ e) (<[key_ ev := node_at (S nx)]> hm))
         (<[key_ e := node_at nx]> (delete (key_ ev) cm)) (S (S nx))).

(** The effect of [put] on a key that is in neither list. *)
Inductive inserted (now : time_point) (k : KEY) (v : VALUE)
  : LRUK_Cache → LRUK_Cache → Prop :=
| inserted_free C K hl cl hm cm nx :
    (Z.of_nat (length hl) < C)%Z →
    inserted now k v
      (mkCache C K hl cl hm cm nx)
      (mkCache C K (mkNode nx (mkEntry k v [now]) :: hl) cl
         (<[k := node_at nx]> hm) cm (S nx))
| inserted_evicting C K h1 at_ et cl hm cm nx :
    (C ≤ Z.of_nat (length (h1 ++ [mkNode at_ et])))%Z →
    inserted now k v
      (mkCache C K (h1 ++ [mkNode at_ et]) cl hm cm nx)
      (mkCache C K (mkNode nx (mkEntry k v [now]) :: h1) cl
         (<[k := node_at nx]> (delete (key_ et) hm)) cm (S nx)).

(** Every entry has a recorded timestamp. *)
Definition queues_nonempty (s : LRUK_Cache) : Prop :=
  Forall (λ n, access_time_ (elem n) ≠ []) (cacheList_ s ++ historyList_ s).

(** The order of the Hot Region. *)
Definition ordered (s : LRUK_Cache) : Prop :=
  queues_nonempty s ∧ Sorted newer_or_equal (cacheList_ s).

(** Overwriting the value of the entry of key [k], nothing else. *)
Definition overwrite (k : KEY) (v : VALUE) (e : CacheEntry) : CacheEntry :=
  if Z.eqb (key_ e) k then set_value v e else e.

(** The allocator hands out fresh addresses: no two nodes share one. *)
Definition allocated (s : LRUK_Cache) : Prop :=
  NoDup (addrs (cacheList_ s ++ historyList_ s)) ∧
  Forall (λ n, addr n < next_ s) (cacheList_ s ++ historyList_ s).

(** ** What the cache holds *)

(** The keys with their values, Hot Region first. *)
Definition contents (s : LRUK_Cache) : list (KEY * VALUE) :=
  (λ e, (key_ e, value_ e)) <$> (hot_entries s ++ history_entries s).

(** The value a call stores: [put] stores one, [get] and [clear] none. *)
Definition written (o : op) : option VALUE :=
  match o with
  | Put _ v => Some v
  | _ => None
  end.

(** Clock readings that never go back, as [steady_clock] guarantees. *)
Definition monotone (ops : list (time_point * op)) : Prop :=
  StronglySorted Z.le (fst <$> ops).

(** ** [print] and [main] *)

(** [std::to_string(int)]: the decimal digits, [-] first for a negative
    number. *)
Definition to_string (n : Z) : string := pretty n.

(** [to_string_if_not_string] at the two types of [LRUK_Cache<int, string>]:
    the overload for a non-string calls [std::to_string], the overload for a
    string returns it. *)
Definition to_string_if_not_string_KEY (k : KEY) : string := to_string k.
Definition to_string_if_not_string_VALUE (v : VALUE) : string := v.

Definition newline : string := String (Ascii.ascii_of_nat 10) EmptyString.

Definition INT_MAX : Z := 2147483647.

(** One round of a loop of [print]: the line of the entry appended to [msg],
    then [num++], which is undefined at [INT_MAX]. *)
Definition print_entry (n : node) (acc : string * Z) : option (string * Z) :=
  let '(msg, num) := acc in
  let msg := msg +:+ "[" in
  let msg := msg +:+ to_string num in
  let msg := msg +:+ "] key=" in
  let msg := msg +:+ to_string_if_not_string_KEY (key_ (elem n)) in
  let msg := msg +:+ ", " in
  let msg := msg +:+ "value=" in
  let msg := msg +:+ to_string_if_not_string_VALUE (value_ (elem n)) in
  let msg := msg +:+ newline in
  if (num <? INT_MAX)%Z then Some (msg, (num + 1)%Z) else None.

Fixpoint print_loop (l : list node) (acc : string * Z) : option (string * Z) :=
  match l with
  | [] => Some acc
  | n :: l' => acc' ← print_entry n acc; print_loop l' acc'
  end.

(** One of the two blocks of [print]: the title and a line per node, or the
    message for an empty list. *)
Definition print_list (title empty : string) (l : list node) (msg : string)
  : option string :=
  if (0 <? Z.of_nat (length l))%Z then
    fst <$> print_loop l (msg +:+ title, 0%Z)
  else Some (msg +:+ empty).

(** [print]: the text sent to [cout]. *)
Definition print (s : LRUK_Cache) : option string :=
  msg ← print_list ("cacheList:" +:+ newline)
                   ("cacheList is empty." +:+ newline) (cacheList_ s) "";
  print_list ("historyList:" +:+ newline)
             ("historyList is empty." +:+ newline) (historyList_ s) msg.

(** The line [print] writes for the entry at position [i] of a list. *)
Definition entry_line (i : nat) (e : CacheEntry) : string :=
  "[" +:+ to_string (Z.of_nat i) +:+ "] key=" +:+ to_string (key_ e)
  +:+ ", value=" +:+ value_ e +:+ newline.

Definition lines (l : list string) : string := foldr String.app "" l.

(** [assert(b)]: the program is aborted when [b] is false. *)
Definition assert (b : bool) : option unit := if b then Some () else None.

(** [main], with the clock readings of its fourteen calls: the text it
    prints and its exit status, or [None] when an assertion fails or a call
    is undefined. *)
Definition main (t1 t2 t3 t4 t5 t6 t7 t8 t9 t10 t11 t12 t13 t14 : time_point)
  : option (string * Z) :=
  let cache := LRUK_Cache_new 3 2 in
  cache ← put t1 1 "A" cache;
  cache ← put t2 2 "B" cache;
  cache ← put t3 3 "C" cache;
  cache ← put t4 4 "D" cache;
  r ← get t5 2 cache;
  _ ← assert (r.1.2 && String.eqb r.1.1 "B");
  cache ← put t6 3 "C1" r.2;
  r ← get t7 4 cache;
  _ ← assert (r.1.2 && String.eqb r.1.1 "D");
  cache ← put t8 5 "E" r.2;
  cache ← put t9 6 "F" cache;
  cache ← put t10 7 "G" cache;
  cache ← put t11 5 "E1" cache;
  cache ← put t12 6 "F1" cache;
  r ← get t13 7 cache;
  _ ← assert (r.1.2 && String.eqb r.1.1 "G");
  cache ← put t14 5 "E2" r.2;
  out ← print cache;
  let cache := clear cache in
  Some (out, 0%Z).

(** The text that the comment at the end of [main] describes. *)
Definition main_output : string :=
  lines ["cacheList:" +:+ newline;
         entry_line 0 (mkEntry 5 "E2" []);
         entry_line 1 (mkEntry 7 "G" []);
         entry_line 2 (mkEntry 6 "F1" []);
         "historyList:" +:+ newline;
         entry_line 0 (mkEntry 4 "D" []);
         entry_line 1 (mkEntry 3 "C1" []);
         entry_line 2 (mkEntry 2 "B" [])].

(** ** Notions used to state further properties *)

(** The key and the value of a node. *)
Definition pair_of (n : node) : KEY * VALUE := (nkey n, value_ (elem n)).

(** The text [print] writes for one list, from its entries. *)
Definition region_text (name : string) (es : list CacheEntry) : string :=
  match es with
  | [] => name +:+ " is empty." +:+ newline
  | _ => name +:+ ":" +:+ newline +:+ lines (imap entry_line es)
  end.

(** A timestamp queue in non-decreasing order, with no reading after [b]. *)
Definition queue_ordered (b : time_point) (e : CacheEntry) : Prop :=
  StronglySorted Z.le (access_time_ e) ∧
  Forall (λ t, (t ≤ b)%Z) (access_time_ e).

(** The state [s] with other values in its two [int] fields. *)
Definition reconfigure (c k : Z) (s : LRUK_Cache) : LRUK_Cache :=
  mkCache c k (historyList_ s) (cacheList_ s) (history_map_ s) (cache_map_ s)
          (next_ s).

(** Two values of [k_] that decide every comparison with the size of a
    queue of at least two readings alike. *)
Definition same_thresholds (k k' : Z) : Prop :=
  ∀ n, (2 ≤ n)%Z →
       (to_size_t k <? n)%Z = (to_size_t k' <? n)%Z ∧
       (to_size_t k <=? n)%Z = (to_size_t k' <=? n)%Z.

Definition on_state {A} (f : LRUK_Cache → LRUK_Cache)
    (r : option (A * LRUK_Cache)) : option (A * LRUK_Cache) :=
  prod_map id f <$> r.

(** The state [s] with every list node [d] addresses further: the nodes,
    the iterators kept in the two maps and the allocator. *)
Definition shift_node (d : nat) (n : node) : node :=
  mkNode (d + addr n) (elem n).

Definition shift_iter (d : nat) (it : iterator) : iterator :=
  match it with
  | node_at a => node_at (d + a)
  | _ => it
  end.

Definition relocate (d : nat) (s : LRUK_Cache) : LRUK_Cache :=
  mkCache (capacity_ s) (k_ s)
    (shift_node d <$> historyList_ s) (shift_node d <$> cacheList_ s)
    (shift_iter d <$> history_map_ s)
    (shift_iter d <$> cache_map_ s) (d + next_ s).

(** The state [s] read on another clock: every recorded timestamp [t] is
    replaced by [phi t]. *)
Definition retime_entry (phi : time_point → time_point) (e : CacheEntry)
  : CacheEntry :=
  mkEntry (key_ e) (value_ e) (phi <$> access_time_ e).

Definition retime_node (phi : time_point → time_point) (n : node) : node :=
  mkNode (addr n) (retime_entry phi (elem n)).

Definition retime (phi : time_point → time_point) (s : LRUK_Cache)
  : LRUK_Cache :=
  mkCache (capacity_ s) (k_ s)
    (retime_node phi <$> historyList_ s) (retime_node phi <$> cacheList_ s)
    (history_map_ s) (cache_map_ s) (next_ s).

Definition retime_ops (phi : time_point → time_point)
    (ops : list (time_point * op)) : list (time_point * op) :=
  prod_map phi id <$> ops.

(** Nodes whose timestamp queues all hold a reading. *)
Definition nonempty (l : list node) : Prop :=
  Forall (λ n, access_time_ (elem n) ≠ []) l.


(** * Proofs *)

(** ** Node lists *)

(** Uniqueness of the images of a list under [f], moved between lists that
    are sublists or rearrangements of each other. *)
Section fmap_NoDup.
Context {A B : Type} (f : A → B).
Implicit Types (x : A) (X L : list A).

Lemma fmap_NoDup_sub X L : X ⊆+ L → NoDup (f <$> L) → NoDup (f <$> X).
Proof.
  intros Hs%(fmap_submseteq f). apply submseteq_Permutation in Hs as [k ->].
  by intros [? _]%NoDup_app.
Qed.

Lemma fmap_not_elem_sub (y : B) X L : X ⊆+ L → y ∉ f <$> L → y ∉ f <$> X.
Proof.
  intros Hs Hy Hin. apply Hy.
  eapply elem_of_submseteq; [exact Hin|]. by apply fmap_submseteq.
Qed.

Lemma fmap_NoDup_split x L L' :
  L ≡ₚ x :: L' → NoDup (f <$> L) → f x ∉ f <$> L'.
Proof. intros ->. rewrite fmap_cons. by intros [? _]%NoDup_cons. Qed.

Lemma fmap_NoDup_fresh x X L' :
  X ≡ₚ x :: L' → f x ∉ f <$> L' → NoDup (f <$> L') → NoDup (f <$> X).
Proof. intros -> ? ?. rewrite fmap_cons. by apply NoDup_cons. Qed.
End fmap_NoDup.

Section node_lists.
Implicit Types (l : list node) (n : node) (a : nat).

Lemma find_node_None a l : a ∉ addrs l → find_node a l = None.
Proof.
  induction l as [|n l IH]; [done|]. cbn. intros Hn.
  apply not_elem_of_cons in Hn as [Hne Hn].
  destruct (Nat.eqb_spec (addr n) a); [congruence|]. by apply IH.
Qed.

Lemma find_node_Some a l n : find_node a l = Some n → n ∈ l ∧ addr n = a.
Proof.
  intros [Hin Heq%Nat.eqb_eq]%List.find_some. by rewrite list_elem_of_In.
Qed.

Lemma find_node_middle a e l1 l2 :
  a ∉ addrs l1 → find_node a (l1 ++ mkNode a e :: l2) = Some (mkNode a e).
Proof.
  induction l1 as [|n l1 IH]; cbn.
  - by rewrite Nat.eqb_refl.
  - intros [Hne Hn]%not_elem_of_cons.
    destruct (Nat.eqb_spec (addr n) a); [congruence|]. by apply IH.
Qed.

Lemma find_node_app_r a l1 l2 :
  a ∉ addrs l1 → find_node a (l1 ++ l2) = find_node a l2.
Proof.
  induction l1 as [|n l1 IH]; cbn; [done|].
  intros [Hne Hn]%not_elem_of_cons.
  destruct (Nat.eqb_spec (addr n) a); [congruence|]. by apply IH.
Qed.

Lemma modify_node_id a f l : a ∉ addrs l → modify_node a f l = l.
Proof.
  induction l as [|n l IH]; [done|]. cbn.
  intros [Hne Hn]%not_elem_of_cons.
  destruct (Nat.eqb_spec (addr n) a); [congruence|]. f_equal. by apply IH.
Qed.

Lemma modify_node_middle a f e l1 l2 :
  a ∉ addrs l1 → a ∉ addrs l2 →
  modify_node a f (l1 ++ mkNode a e :: l2) = l1 ++ mkNode a (f e) :: l2.
Proof.
  intros H1 H2. induction l1 as [|n l1 IH]; cbn.
  - rewrite Nat.eqb_refl. f_equal. by apply modify_node_id.
  - apply not_elem_of_cons in H1 as [Hne H1].
    destruct (Nat.eqb_spec (addr n) a); [congruence|]. f_equal. by apply IH.
Qed.

Lemma erase_node_id a l : a ∉ addrs l → erase_node a l = l.
Proof.
  induction l as [|n l IH]; [done|]. cbn.
  intros [Hne Hn]%not_elem_of_cons.
  destruct (Nat.eqb_spec (addr n) a); [congruence|]. cbn. f_equal.
  by apply IH.
Qed.

Lemma erase_node_middle a e l1 l2 :
  a ∉ addrs l1 → a ∉ addrs l2 →
  erase_node a (l1 ++ mkNode a e :: l2) = l1 ++ l2.
Proof.
  intros H1 H2. induction l1 as [|n l1 IH]; cbn.
  - rewrite Nat.eqb_refl. cbn. by apply erase_node_id.
  - apply not_elem_of_cons in H1 as [Hne H1].
    destruct (Nat.eqb_spec (addr n) a); [congruence|]. cbn. f_equal.
    by apply IH.
Qed.

Lemma find_key_None (k : Z) l :
  k ∉ keys l → List.find (λ n, Z.eqb (nkey n) k) l = None.
Proof.
  induction l as [|n l IH]; [done|]. cbn.
  intros [Hne Hn]%not_elem_of_cons.
  destruct (Z.eqb_spec (nkey n) k); [congruence|]. by apply IH.
Qed.

Lemma find_key_unique (k : Z) l n :
  NoDup (keys l) → n ∈ l → nkey n = k →
  List.find (λ n, Z.eqb (nkey n) k) l = Some n.
Proof.
  induction l as [|m l IH]; cbn.
  - by intros _ ?%elem_of_nil.
  - intros [Hm Hnd]%NoDup_cons [->|Hin]%elem_of_cons Hk.
    + by rewrite (proj2 (Z.eqb_eq _ _) Hk).
    + destruct (Z.eqb_spec (nkey m) k) as [Heq|]; [|by apply IH].
      exfalso. apply Hm. unfold keys. rewrite Heq, <- Hk.
      by apply list_elem_of_fmap_2.
Qed.
End node_lists.

(** ** Sorting the cache list *)

Section sorting.
Implicit Types (l : list node) (x n : node).

Lemma sort_insert_perm x l : sort_insert x l ≡ₚ x :: l.
Proof.
  induction l as [|y l IH]; cbn; [done|].
  destruct (compareByAccessTime _ _); [|done].
  by rewrite IH, Permutation_swap.
Qed.

Lemma list_sort_perm l : list_sort l ≡ₚ l.
Proof.
  induction l as [|x l IH]; cbn; [done|].
  by rewrite sort_insert_perm, IH.
Qed.

Lemma sort_insert_sorted x l :
  Sorted newer_or_equal l → Sorted newer_or_equal (sort_insert x l).
Proof.
  induction 1 as [|y l Hs IH Hhd]; cbn.
  - by repeat constructor.
  - unfold compareByAccessTime.
    destruct (Z.ltb_spec (q_front (elem x)) (q_front (elem y))) as [Hlt|Hge].
    + constructor; [done|].
      destruct Hhd as [|z l Hyz]; cbn.
      * constructor. unfold newer_or_equal. lia.
      * unfold compareByAccessTime.
        destruct (Z.ltb_spec (q_front (elem x)) (q_front (elem z))).
        -- by constructor.
        -- constructor. unfold newer_or_equal. lia.
    + constructor; [by constructor|]. by constructor.
Qed.

Lemma list_sort_sorted l : Sorted newer_or_equal (list_sort l).
Proof.
  induction l as [|x l IH]; cbn; [constructor|].
  by apply sort_insert_sorted.
Qed.

Lemma list_sort_length l : length (list_sort l) = length l.
Proof. by rewrite list_sort_perm. Qed.

Lemma list_sort_elem_of n l : n ∈ list_sort l ↔ n ∈ l.
Proof. by rewrite list_sort_perm. Qed.

(** A sorted list is left as it is: the sort is stable. *)
Lemma sort_insert_head x l :
  Forall (λ y, newer_or_equal x y) l → sort_insert x l = x :: l.
Proof.
  destruct 1 as [|y l Hxy _]; cbn; [done|].
  unfold compareByAccessTime, newer_or_equal in *.
  destruct (Z.ltb_spec (q_front (elem x)) (q_front (elem y))); [lia|done].
Qed.

Lemma list_sort_id l : StronglySorted newer_or_equal l → list_sort l = l.
Proof.
  induction 1 as [|x l Hs IH Hx]; [done|].
  change (list_sort (x :: l)) with (sort_insert x (list_sort l)).
  rewrite IH. by apply sort_insert_head.
Qed.

Global Instance newer_or_equal_trans : Transitive newer_or_equal.
Proof. unfold newer_or_equal. intros x y z. lia. Qed.
End sorting.

(** ** The index maps *)

Section indexes.
Implicit Types (l : list node) (n : node) (m : gmap Z iterator).

Lemma indexes_nil : indexes ∅ [].
Proof.
  intros k it. rewrite lookup_empty. split; [done|].
  by intros (n & ?%elem_of_nil & _).
Qed.

Lemma indexes_perm m l l' : l ≡ₚ l' → indexes m l → indexes m l'.
Proof.
  intros Hp Hm k it. rewrite (Hm k it).
  split; intros (n & Hin & ?); exists n; split; try done.
  - by rewrite <- Hp.
  - by rewrite Hp.
Qed.

Lemma indexes_None m l (k : Z) : indexes m l → m !! k = None ↔ k ∉ keys l.
Proof.
  intros Hm. split.
  - intros Hnone (n & -> & Hin)%list_elem_of_fmap.
    assert (m !! nkey n = Some (node_at (addr n))) as Hs
      by (apply Hm; eauto).
    congruence.
  - intros Hk. destruct (m !! k) as [it|] eqn:Hl; [|done].
    apply Hm in Hl as (n & Hin & <- & _).
    exfalso. apply Hk. by apply list_elem_of_fmap_2.
Qed.

Lemma indexes_Some m l n :
  indexes m l → n ∈ l → m !! nkey n = Some (node_at (addr n)).
Proof. intros Hm Hin. apply Hm. eauto. Qed.

Lemma indexes_cons m l n :
  indexes m l → nkey n ∉ keys l →
  indexes (<[nkey n := node_at (addr n)]> m) (n :: l).
Proof.
  intros Hm Hk k it. rewrite lookup_insert. case_decide as Heq.
  - subst k. split.
    + intros [= <-]. exists n. split; [by left|done].
    + intros (n' & [->|Hin]%elem_of_cons & Hkn & ->); [done|].
      exfalso. apply Hk. rewrite <- Hkn. by apply list_elem_of_fmap_2.
  - rewrite (Hm k it). split.
    + intros (n' & Hin & ?). exists n'. split; [by right|done].
    + intros (n' & [->|Hin]%elem_of_cons & Hkn & ->); [done|]. eauto.
Qed.

Lemma indexes_delete m l n :
  indexes m (n :: l) → nkey n ∉ keys l → indexes (delete (nkey n) m) l.
Proof.
  intros Hm Hk k it. rewrite lookup_delete. case_decide as Heq.
  - subst k. split; [done|].
    intros (n' & Hin & Hkn & ->).
    exfalso. apply Hk. rewrite <- Hkn. by apply list_elem_of_fmap_2.
  - rewrite (Hm k it). split.
    + intros (n' & [->|Hin]%elem_of_cons & Hkn & ->); [done|]. eauto.
    + intros (n' & Hin & ?). exists n'. split; [by right|done].
Qed.
End indexes.

(** ** Iterators of well-formed states *)

Ltac fields :=
  unfold with_historyList, with_cacheList, with_history_map, with_cache_map,
    with_next;
  cbn [capacity_ k_ historyList_ cacheList_ history_map_ cache_map_ next_
       addr elem nkey key_ value_ access_time_].

Ltac bind_some := cbn [mbind option_bind fmap option_fmap option_map]; fields.

Section iterators.
Implicit Types (l : list node) (n : node) (a : nat) (e : CacheEntry).
Implicit Types (hm cm : gmap Z iterator).

Lemma addrs_middle l1 a e l2 :
  NoDup (addrs (l1 ++ mkNode a e :: l2)) → (a ∉ addrs l1) ∧ (a ∉ addrs l2).
Proof.
  unfold addrs. rewrite fmap_app, fmap_cons. cbn.
  intros (_ & Hd & [Hn _]%NoDup_cons)%NoDup_app. split; [|done].
  intros Hin. apply (Hd a Hin). by left.
Qed.

Lemma addrs_cache_history cl hl :
  NoDup (addrs (cl ++ hl)) →
  NoDup (addrs cl) ∧ NoDup (addrs hl) ∧ (∀ a, a ∈ addrs cl → a ∉ addrs hl).
Proof.
  unfold addrs. rewrite fmap_app. intros (? & ? & ?)%NoDup_app. done.
Qed.

Lemma deref_in_cache C K hl l1 a e l2 hm cm nx :
  NoDup (addrs ((l1 ++ mkNode a e :: l2) ++ hl)) →
  deref (node_at a) (mkCache C K hl (l1 ++ mkNode a e :: l2) hm cm nx)
  = Some e.
Proof.
  intros (Hc & _ & _)%addrs_cache_history.
  apply addrs_middle in Hc as [H1 H2].
  unfold deref. fields. rewrite <- (assoc_L (++)).
  rewrite <- app_comm_cons. by rewrite find_node_middle.
Qed.

Lemma update_in_cache f C K hl l1 a e l2 hm cm nx :
  NoDup (addrs ((l1 ++ mkNode a e :: l2) ++ hl)) →
  update_at (node_at a) f (mkCache C K hl (l1 ++ mkNode a e :: l2) hm cm nx)
  = Some (mkCache C K hl (l1 ++ mkNode a (f e) :: l2) hm cm nx).
Proof.
  intros (Hc & _ & Hd)%addrs_cache_history.
  assert (a ∉ addrs hl) as Hh.
  { apply Hd. unfold addrs. rewrite fmap_app. cbn. set_solver. }
  apply addrs_middle in Hc as [H1 H2].
  unfold update_at. fields. rewrite <- (assoc_L (++)).
  rewrite <- app_comm_cons. rewrite find_node_middle by done. bind_some.
  by rewrite modify_node_middle, modify_node_id.
Qed.

Lemma deref_in_history C K cl l1 a e l2 hm cm nx :
  NoDup (addrs (cl ++ l1 ++ mkNode a e :: l2)) →
  deref (node_at a) (mkCache C K (l1 ++ mkNode a e :: l2) cl hm cm nx)
  = Some e.
Proof.
  rewrite (assoc_L (++)). intros [H1 H2]%addrs_middle.
  unfold deref. fields. rewrite (assoc_L (++)). by rewrite find_node_middle.
Qed.

Lemma update_in_history f C K cl l1 a e l2 hm cm nx :
  NoDup (addrs (cl ++ l1 ++ mkNode a e :: l2)) →
  update_at (node_at a) f (mkCache C K (l1 ++ mkNode a e :: l2) cl hm cm nx)
  = Some (mkCache C K (l1 ++ mkNode a (f e) :: l2) cl hm cm nx).
Proof.
  intros Hnd. pose proof Hnd as (_ & Hh & _)%addrs_cache_history.
  apply addrs_middle in Hh as [Hh1 Hh2].
  rewrite (assoc_L (++)) in Hnd. apply addrs_middle in Hnd as [H1 H2].
  unfold update_at. fields.
  rewrite (assoc_L (++)). rewrite find_node_middle by done. bind_some.
  rewrite modify_node_middle by done. rewrite modify_node_id; [done|].
  intros Hin. apply H1. unfold addrs in *. rewrite fmap_app.
  apply elem_of_app. by left.
Qed.

Lemma erase_in_history C K cl l1 a e l2 hm cm nx :
  NoDup (addrs (l1 ++ mkNode a e :: l2)) →
  historyList_erase (node_at a)
    (mkCache C K (l1 ++ mkNode a e :: l2) cl hm cm nx)
  = Some (mkCache C K (l1 ++ l2) cl hm cm nx).
Proof.
  intros [H1 H2]%addrs_middle. unfold historyList_erase. fields.
  rewrite find_node_middle by done. bind_some. by rewrite erase_node_middle.
Qed.

Lemma erase_in_cache C K hl l1 a e l2 hm cm nx :
  NoDup (addrs (l1 ++ mkNode a e :: l2)) →
  cacheList_erase (node_at a)
    (mkCache C K hl (l1 ++ mkNode a e :: l2) hm cm nx)
  = Some (mkCache C K hl (l1 ++ l2) hm cm nx).
Proof.
  intros [H1 H2]%addrs_middle. unfold cacheList_erase. fields.
  rewrite find_node_middle by done. bind_some. by rewrite erase_node_middle.
Qed.

Lemma splice_in_history C K cl l1 a e l2 hm cm nx :
  NoDup (addrs (l1 ++ mkNode a e :: l2)) →
  historyList_splice_front (node_at a)
    (mkCache C K (l1 ++ mkNode a e :: l2) cl hm cm nx)
  = Some (mkCache C K (mkNode a e :: l1 ++ l2) cl hm cm nx).
Proof.
  intros [H1 H2]%addrs_middle. unfold historyList_splice_front. fields.
  rewrite find_node_middle by done. bind_some. by rewrite erase_node_middle.
Qed.

Lemma findCacheEntry_sorted (k : Z) C K hl cl hm cm nx n :
  NoDup (keys cl) → n ∈ cl → nkey n = k →
  findCacheEntry k (sort_cacheList (mkCache C K hl cl hm cm nx))
  = node_at (addr n).
Proof.
  intros Hnd Hin Hk. unfold findCacheEntry, sort_cacheList. fields.
  rewrite (find_key_unique k _ n); [done| |by apply list_sort_elem_of|done].
  unfold keys. by rewrite list_sort_perm.
Qed.

Lemma map_emplace_None (k : Z) it m :
  m !! k = None → map_emplace k it m = <[k := it]> m.
Proof. unfold map_emplace. by intros ->. Qed.

Lemma map_emplace_delete (k : Z) it m :
  map_emplace k it (delete k m) = <[k := it]> m.
Proof.
  rewrite map_emplace_None by apply lookup_delete_eq.
  apply insert_delete_eq.
Qed.
End iterators.

(** ** What the private member functions do on well-formed states *)

Section probes.
Implicit Types (l : list node) (n : node) (a : nat) (e : CacheEntry).
Implicit Types (hm cm : gmap Z iterator) (k : Z).

Lemma addrs_replace l1 a e e' l2 l3 :
  addrs ((l1 ++ mkNode a e' :: l2) ++ l3)
  = addrs ((l1 ++ mkNode a e :: l2) ++ l3).
Proof. unfold addrs. by rewrite !fmap_app, !fmap_cons. Qed.

Lemma addrs_replace_r l0 l1 a e e' l2 :
  addrs (l0 ++ l1 ++ mkNode a e' :: l2)
  = addrs (l0 ++ l1 ++ mkNode a e :: l2).
Proof. unfold addrs. by rewrite !fmap_app, !fmap_cons. Qed.

Lemma keys_replace l1 a a' e e' l2 :
  key_ e' = key_ e →
  keys (l1 ++ mkNode a' e' :: l2) = keys (l1 ++ mkNode a e :: l2).
Proof.
  intros Hk. unfold keys. rewrite !fmap_app, !fmap_cons.
  unfold nkey. cbn. by rewrite Hk.
Qed.

Lemma q_size_push now e : q_size (q_push now e) = (q_size e + 1)%Z.
Proof. unfold q_size, q_push. cbn. rewrite length_app. cbn. lia. Qed.

Lemma q_size_pop e : q_size (q_pop e) = Z.of_nat (Nat.pred (length (access_time_ e))).
Proof. unfold q_size, q_pop. cbn. by destruct (access_time_ e). Qed.

Lemma q_size_pop_push now e : q_size (q_pop (q_push now e)) = q_size e.
Proof. rewrite q_size_pop. unfold q_size, q_push. cbn. rewrite length_app. cbn. lia. Qed.

Lemma getFromCacheList_miss now k s :
  cache_map_ s !! k = None → getFromCacheList now k s = Some (cache_end, s).
Proof. unfold getFromCacheList. by intros ->. Qed.

Lemma getFromCacheList_hit now C K hl l1 a e l2 hm cm nx :
  wf (mkCache C K hl (l1 ++ mkNode a e :: l2) hm cm nx) →
  (to_size_t K < q_size e + 1)%Z →
  getFromCacheList now (key_ e)
    (mkCache C K hl (l1 ++ mkNode a e :: l2) hm cm nx)
  = Some (node_at a,
          mkCache C K hl
            (list_sort (l1 ++ mkNode a (q_pop (q_push now e)) :: l2))
            hm cm nx).
Proof.
  intros [Ha Hn Hk Hcm Hhm] Hsz. revert Ha Hn Hk Hcm Hhm. fields.
  intros Ha Hn Hk Hcm Hhm.
  assert (cm !! key_ e = Some (node_at a)) as Hl.
  { apply (indexes_Some cm _ (mkNode a e) Hcm). set_solver. }
  unfold getFromCacheList. fields. rewrite Hl.
  rewrite update_in_cache by done. bind_some.
  rewrite deref_in_cache by (by rewrite (addrs_replace _ _ e)). bind_some.
  rewrite q_size_push.
  destruct (Z.ltb_spec (to_size_t K) (q_size e + 1)); [|lia].
  rewrite update_in_cache by (by rewrite (addrs_replace _ _ e)). bind_some.
  rewrite (findCacheEntry_sorted _ _ _ _ _ _ _ _
             (mkNode a (q_pop (q_push now e)))); [| |by apply elem_of_app; right; left|done].
  - unfold sort_cacheList. fields. rewrite map_emplace_delete.
    by rewrite insert_id.
  - rewrite (keys_replace l1 a a e) by done.
    unfold keys in *. rewrite fmap_app in Hk.
    by apply NoDup_app in Hk as (Hk & _ & _).
Qed.
End probes.

Section promotion.
Implicit Types (l : list node) (n : node) (a : nat) (e : CacheEntry).
Implicit Types (hm cm : gmap Z iterator) (k : Z).

Lemma fresh_addr_ge nx m l :
  Forall (λ n, addr n < nx) l → nx ≤ m → m ∉ addrs l.
Proof.
  intros Hall Hle (n & -> & Hin)%list_elem_of_fmap.
  rewrite Forall_forall in Hall. specialize (Hall n Hin). lia.
Qed.

Lemma fresh_addr nx l : Forall (λ n, addr n < nx) l → nx ∉ addrs l.
Proof. intros Hall. by apply (fresh_addr_ge nx). Qed.

Lemma wf_replace_history C K l1 a e e' l2 cl hm cm nx :
  key_ e' = key_ e →
  wf (mkCache C K (l1 ++ mkNode a e :: l2) cl hm cm nx) →
  wf (mkCache C K (l1 ++ mkNode a e' :: l2) cl hm cm nx).
Proof.
  intros Hk [Ha Hn Hks Hcm Hhm]. revert Ha Hn Hks Hcm Hhm. fields.
  intros Ha Hn Hks Hcm Hhm. split; fields.
  - by rewrite (addrs_replace_r _ _ _ e).
  - rewrite !Forall_app, !Forall_cons in *. naive_solver.
  - unfold keys in *. rewrite !fmap_app, !fmap_cons in *.
    unfold nkey in *. cbn in *. by rewrite Hk.
  - done.
  - intros k it. rewrite (Hhm k it).
    split; intros (n & Hin & Hkn & ->).
    + apply elem_of_app in Hin as [Hin|[->|Hin]%elem_of_cons].
      * exists n. set_solver.
      * exists (mkNode a e'). unfold nkey in *. cbn in *. set_solver.
      * exists n. set_solver.
    + apply elem_of_app in Hin as [Hin|[->|Hin]%elem_of_cons].
      * exists n. set_solver.
      * exists (mkNode a e). unfold nkey in *. cbn in *. set_solver.
      * exists n. set_solver.
Qed.
Lemma promote_free C K l1 a e l2 cl hm cm nx :
  wf (mkCache C K (l1 ++ mkNode a e :: l2) cl hm cm nx) →
  (Z.of_nat (length cl) < to_size_t C)%Z →
  promote (key_ e) (node_at a)
    (mkCache C K (l1 ++ mkNode a e :: l2) cl hm cm nx)
  = Some (node_at nx,
          mkCache C K (l1 ++ l2) (list_sort (cl ++ [mkNode nx e]))
            (delete (key_ e) hm) (<[key_ e := node_at nx]> cm) (S nx)).
Proof.
  intros [Ha Hn Hks Hcm Hhm] Hlt. revert Ha Hn Hks Hcm Hhm. fields.
  intros Ha Hn Hks Hcm Hhm.
  pose proof (fresh_addr _ _ Hn) as Hfresh.
  assert (key_ e ∉ keys cl) as Hkc.
  { eapply (fmap_not_elem_sub nkey (key_ e) cl (cl ++ l1 ++ l2));
      [solve_submseteq|].
    eapply (fmap_NoDup_split nkey (mkNode a e)); [|exact Hks].
    solve_Permutation. }
  unfold promote. fields.
  destruct (Z.ltb_spec (Z.of_nat (length cl)) (to_size_t C)); [|lia].
  rewrite deref_in_history by done. bind_some.
  unfold cacheList_emplace_back, finish_promotion. fields.
  rewrite deref_in_history.
  2:{ eapply (fmap_NoDup_fresh addr (mkNode nx e)); [|exact Hfresh|exact Ha].
      solve_Permutation. }
  bind_some. rewrite erase_in_history.
  2:{ eapply fmap_NoDup_sub; [|exact Ha]. solve_submseteq. }
  bind_some.
  rewrite (findCacheEntry_sorted _ _ _ _ _ _ _ _ (mkNode nx e));
    [| |by apply elem_of_app; right; left|done].
  - unfold sort_cacheList. fields. rewrite map_emplace_None; [done|].
    by apply (indexes_None cm cl).
  - eapply (fmap_NoDup_fresh nkey (mkNode nx e) _ cl);
      [solve_Permutation|exact Hkc|].
    eapply fmap_NoDup_sub; [|exact Hks]. solve_submseteq.
Qed.
Lemma promote_full C K l1 a e l2 c1 av ev hm cm nx :
  wf (mkCache C K (l1 ++ mkNode a e :: l2) (c1 ++ [mkNode av ev]) hm cm nx) →
  (to_size_t C ≤ Z.of_nat (length (c1 ++ [mkNode av ev])))%Z →
  promote (key_ e) (node_at a)
    (mkCache C K (l1 ++ mkNode a e :: l2) (c1 ++ [mkNode av ev]) hm cm nx)
  = Some (node_at nx,
          mkCache C K (mkNode (S nx) ev :: l1 ++ l2)
            (list_sort (c1 ++ [mkNode nx e]))
            (delete (key_ e) (<[key_ ev := node_at (S nx)]> hm))
            (<[key_ e := node_at nx]> (delete (key_ ev) cm)) (S (S nx))).
Proof.
  intros [Ha Hn Hks Hcm Hhm] Hge. revert Ha Hn Hks Hcm Hhm. fields.
  intros Ha Hn Hks Hcm Hhm.
  pose proof (fresh_addr _ _ Hn) as Hfresh.
  set (L := c1 ++ l1 ++ l2).
  assert (nkey (mkNode a e) ∉ keys ((mkNode av ev) :: L)) as Hke.
  { eapply (fmap_NoDup_split nkey (mkNode a e)); [|exact Hks].
    subst L. solve_Permutation. }
  assert (nkey (mkNode av ev) ∉ keys ((mkNode a e) :: L)) as Hkv.
  { eapply (fmap_NoDup_split nkey (mkNode av ev)); [|exact Hks].
    subst L. solve_Permutation. }
  assert (NoDup (keys L)) as HkL.
  { eapply fmap_NoDup_sub; [|exact Hks]. subst L. solve_submseteq. }
  assert (av < nx) as Hav.
  { rewrite !Forall_app, !Forall_cons in Hn. naive_solver. }
  unfold promote. fields.
  destruct (Z.ltb_spec (Z.of_nat (length (c1 ++ [(mkNode av ev)]))) (to_size_t C));
    [lia|].
  unfold findVictimFromCache. fields. rewrite last_snoc. bind_some.
  rewrite deref_in_history by done. bind_some.
  unfold cacheList_emplace_back. fields.
  rewrite <- (assoc_L (++) c1). cbn [app].
  rewrite deref_in_cache.
  2:{ eapply (fmap_NoDup_fresh addr (mkNode nx e)); [|exact Hfresh|exact Ha].
      solve_Permutation. }
  bind_some. unfold historyList_emplace_front. fields. cbn [list_begin addr].
  rewrite map_emplace_None.
  2:{ apply (indexes_None hm _ _ Hhm).
      eapply (fmap_not_elem_sub nkey _ _ ((mkNode a e) :: L)); [|exact Hkv].
      subst L. solve_submseteq. }
  rewrite erase_in_cache.
  2:{ eapply fmap_NoDup_fresh with (x := mkNode nx e)
        (L' := c1 ++ [(mkNode av ev)]); [solve_Permutation| |].
      - eapply fmap_not_elem_sub; [|exact Hfresh]. solve_submseteq.
      - eapply fmap_NoDup_sub; [|exact Ha]. solve_submseteq. }
  bind_some. unfold finish_promotion. rewrite app_comm_cons.
  rewrite deref_in_history.
  2:{ rewrite <- app_comm_cons.
      eapply fmap_NoDup_fresh with (x := mkNode (S nx) ev)
        (L' := mkNode nx e :: (mkNode a e) :: L).
      - subst L. solve_Permutation.
      - rewrite fmap_cons, not_elem_of_cons. split; [cbn; lia|].
        eapply fmap_not_elem_sub; [|apply (fresh_addr_ge nx (S nx) _ Hn); lia].
        subst L. solve_submseteq.
      - eapply fmap_NoDup_fresh with (x := mkNode nx e) (L' := (mkNode a e) :: L);
          [done| |].
        + eapply fmap_not_elem_sub; [|exact Hfresh]. subst L.
          solve_submseteq.
        + eapply fmap_NoDup_sub; [|exact Ha]. subst L. solve_submseteq. }
  bind_some. rewrite erase_in_history.
  2:{ rewrite <- app_comm_cons.
      eapply fmap_NoDup_fresh with (x := mkNode (S nx) ev) (L' := l1 ++ (mkNode a e) :: l2);
        [done| |].
      - eapply fmap_not_elem_sub; [|apply (fresh_addr_ge nx (S nx) _ Hn); lia].
        solve_submseteq.
      - eapply fmap_NoDup_sub; [|exact Ha]. solve_submseteq. }
  bind_some.
  rewrite (findCacheEntry_sorted _ _ _ _ _ _ _ _ (mkNode nx e));
    [| |by apply elem_of_app; right; left|done].
  - unfold sort_cacheList. fields. rewrite <- app_comm_cons.
    rewrite map_emplace_None; [done|].
    rewrite lookup_delete_ne.
    + apply (indexes_None cm _ _ Hcm).
      eapply (fmap_not_elem_sub nkey _ _ ((mkNode av ev) :: L)); [|exact Hke].
      subst L. solve_submseteq.
    + intros Heq. apply Hkv. unfold keys. rewrite fmap_cons.
      apply elem_of_cons. left. exact Heq.
  - eapply (fmap_NoDup_fresh nkey (mkNode nx e) _ c1);
      [solve_Permutation| |].
    + eapply (fmap_not_elem_sub nkey _ _ ((mkNode av ev) :: L)); [|exact Hke].
      subst L. solve_submseteq.
    + eapply fmap_NoDup_sub; [|exact HkL]. subst L. solve_submseteq.
Qed.
End promotion.

(** ** Well-formedness is kept by the elementary rearrangements *)

Section wf_moves.
Implicit Types (l hl cl : list node) (n : node) (a : nat) (e : CacheEntry).
Implicit Types (hm cm : gmap Z iterator) (k : Z).

Lemma addrs_modify a f l : addrs (modify_node a f l) = addrs l.
Proof.
  unfold addrs, modify_node. rewrite <- list_fmap_compose.
  apply list_fmap_ext. intros i n _. cbn. by destruct (Nat.eqb _ _).
Qed.

Lemma keys_modify a f l :
  (∀ e, key_ (f e) = key_ e) → keys (modify_node a f l) = keys l.
Proof.
  intros Hf. unfold keys, modify_node. rewrite <- list_fmap_compose.
  apply list_fmap_ext. intros i n _. cbn.
  destruct (Nat.eqb _ _); [|done]. unfold nkey. cbn. apply Hf.
Qed.

Lemma elem_of_modify a f l n' :
  n' ∈ modify_node a f l ↔
  ∃ n, n ∈ l ∧
       n' = if Nat.eqb (addr n) a then mkNode (addr n) (f (elem n)) else n.
Proof.
  unfold modify_node. rewrite list_elem_of_fmap. naive_solver.
Qed.

Lemma indexes_modify a f m l :
  (∀ e, key_ (f e) = key_ e) → indexes m l → indexes m (modify_node a f l).
Proof.
  intros Hf Hm k it. rewrite (Hm k it). split.
  - intros (n & Hin & Hk & ->).
    exists (if Nat.eqb (addr n) a then mkNode (addr n) (f (elem n)) else n).
    split; [apply elem_of_modify; eauto|].
    destruct (Nat.eqb _ _); [|done]. unfold nkey in *. cbn. by rewrite Hf.
  - intros (n' & (n & Hin & ->)%elem_of_modify & Hk & ->).
    exists n. split; [done|].
    destruct (Nat.eqb _ _); [|done]. unfold nkey in *. cbn in *.
    by rewrite Hf in Hk.
Qed.

Lemma Forall_modify (P : node → Prop) a f l :
  Forall P l →
  (∀ n, n ∈ l → addr n = a → P (mkNode a (f (elem n)))) →
  Forall P (modify_node a f l).
Proof.
  rewrite !Forall_forall. intros Hall Hf n' (n & Hin & ->)%elem_of_modify.
  destruct (Nat.eqb_spec (addr n) a) as [Heq|]; [|by apply Hall].
  rewrite Heq. by apply Hf.
Qed.

Lemma wf_modify a f C K hl cl hm cm nx :
  (∀ e, key_ (f e) = key_ e) →
  wf (mkCache C K hl cl hm cm nx) →
  wf (mkCache C K (modify_node a f hl) (modify_node a f cl) hm cm nx).
Proof.
  intros Hf [Ha Hn Hk Hcm Hhm]. revert Ha Hn Hk Hcm Hhm. fields.
  intros Ha Hn Hk Hcm Hhm. split; fields.
  - unfold addrs in *. rewrite fmap_app in *.
    by rewrite !(addrs_modify a f).
  - rewrite Forall_app in *. destruct Hn as [Hn1 Hn2].
    split; apply Forall_modify; try done.
    + intros n Hin <-. rewrite Forall_forall in Hn1. cbn. by apply Hn1.
    + intros n Hin <-. rewrite Forall_forall in Hn2. cbn. by apply Hn2.
  - unfold keys in *. rewrite fmap_app in *.
    by rewrite !(keys_modify a f).
  - by apply indexes_modify.
  - by apply indexes_modify.
Qed.

Lemma wf_perm C K hl hl' cl cl' hm cm nx :
  hl ≡ₚ hl' → cl ≡ₚ cl' →
  wf (mkCache C K hl cl hm cm nx) → wf (mkCache C K hl' cl' hm cm nx).
Proof.
  intros Hh Hc [Ha Hn Hk Hcm Hhm]. revert Ha Hn Hk Hcm Hhm. fields.
  intros Ha Hn Hk Hcm Hhm. split; fields.
  - unfold addrs in *. by rewrite <- Hh, <- Hc.
  - by rewrite <- Hh, <- Hc.
  - unfold keys in *. by rewrite <- Hh, <- Hc.
  - by apply (indexes_perm cm cl).
  - by apply (indexes_perm hm hl).
Qed.

Lemma wf_remove_history C K n hl cl hm cm nx :
  wf (mkCache C K (n :: hl) cl hm cm nx) →
  wf (mkCache C K hl cl (delete (nkey n) hm) cm nx).
Proof.
  intros [Ha Hn Hk Hcm Hhm]. revert Ha Hn Hk Hcm Hhm. fields.
  intros Ha Hn Hk Hcm Hhm. split; fields.
  - eapply fmap_NoDup_sub; [|exact Ha]. solve_submseteq.
  - rewrite !Forall_app, Forall_cons in *. naive_solver.
  - eapply fmap_NoDup_sub; [|exact Hk]. solve_submseteq.
  - done.
  - apply indexes_delete; [done|].
    eapply (fmap_not_elem_sub nkey _ _ (cl ++ hl)); [solve_submseteq|].
    eapply (fmap_NoDup_split nkey n); [|exact Hk]. solve_Permutation.
Qed.

Lemma wf_remove_cache C K n hl cl hm cm nx :
  wf (mkCache C K hl (n :: cl) hm cm nx) →
  wf (mkCache C K hl cl hm (delete (nkey n) cm) nx).
Proof.
  intros [Ha Hn Hk Hcm Hhm]. revert Ha Hn Hk Hcm Hhm. fields.
  intros Ha Hn Hk Hcm Hhm. split; fields.
  - eapply fmap_NoDup_sub; [|exact Ha]. solve_submseteq.
  - rewrite <- app_comm_cons, Forall_cons in Hn. naive_solver.
  - eapply fmap_NoDup_sub; [|exact Hk]. solve_submseteq.
  - apply indexes_delete; [done|].
    eapply (fmap_not_elem_sub nkey _ _ (cl ++ hl)); [solve_submseteq|].
    eapply (fmap_NoDup_split nkey n); [|exact Hk]. solve_Permutation.
  - done.
Qed.

Lemma wf_add_history C K n hl cl hm cm nx nx' :
  wf (mkCache C K hl cl hm cm nx) →
  nkey n ∉ keys (cl ++ hl) → nx ≤ addr n < nx' →
  wf (mkCache C K (n :: hl) cl (<[nkey n := node_at (addr n)]> hm) cm nx').
Proof.
  intros [Ha Hn Hk Hcm Hhm] Hfk Hfa. revert Ha Hn Hk Hcm Hhm. fields.
  intros Ha Hn Hk Hcm Hhm. split; fields.
  - eapply (fmap_NoDup_fresh addr n); [|apply (fresh_addr_ge nx); [done|lia]|done].
    solve_Permutation.
  - rewrite <- Permutation_middle, Forall_cons.
    split; [lia|]. eapply Forall_impl; [exact Hn|]. cbn. intros; lia.
  - eapply (fmap_NoDup_fresh nkey n); [|exact Hfk|done]. solve_Permutation.
  - done.
  - apply indexes_cons; [done|].
    eapply fmap_not_elem_sub; [|exact Hfk]. solve_submseteq.
Qed.

Lemma wf_add_cache C K n hl cl hm cm nx nx' :
  wf (mkCache C K hl cl hm cm nx) →
  nkey n ∉ keys (cl ++ hl) → nx ≤ addr n < nx' →
  wf (mkCache C K hl (n :: cl) hm (<[nkey n := node_at (addr n)]> cm) nx').
Proof.
  intros [Ha Hn Hk Hcm Hhm] Hfk Hfa. revert Ha Hn Hk Hcm Hhm. fields.
  intros Ha Hn Hk Hcm Hhm. split; fields.
  - eapply (fmap_NoDup_fresh addr n); [|apply (fresh_addr_ge nx); [done|lia]|done].
    solve_Permutation.
  - rewrite <- app_comm_cons, Forall_cons.
    split; [lia|]. eapply Forall_impl; [exact Hn|]. cbn. intros; lia.
  - eapply (fmap_NoDup_fresh nkey n); [|exact Hfk|done]. solve_Permutation.
  - apply indexes_cons; [done|].
    eapply fmap_not_elem_sub; [|exact Hfk]. solve_submseteq.
  - done.
Qed.

Lemma wf_new C K : wf (LRUK_Cache_new C K).
Proof.
  split; cbn; try constructor; apply indexes_nil.
Qed.

Lemma wf_clear s : wf (clear s).
Proof.
  split; cbn; try constructor; apply indexes_nil.
Qed.

(** The key of a node is in no other node of a well-formed state. *)
Lemma wf_key_history C K n hl cl hm cm nx :
  wf (mkCache C K (n :: hl) cl hm cm nx) → nkey n ∉ keys (cl ++ hl).
Proof.
  intros [_ _ Hk _ _]. revert Hk. fields. intros Hk.
  eapply (fmap_NoDup_split nkey n); [|exact Hk]. solve_Permutation.
Qed.

Lemma wf_key_cache C K n hl cl hm cm nx :
  wf (mkCache C K hl (n :: cl) hm cm nx) → nkey n ∉ keys (cl ++ hl).
Proof.
  intros [_ _ Hk _ _]. revert Hk. fields. intros Hk.
  eapply (fmap_NoDup_split nkey n); [|exact Hk]. solve_Permutation.
Qed.
End wf_moves.

(** ** The paths of [getFromHistoryList], [get] and [put] *)

Section paths.
Implicit Types (l hl cl : list node) (n : node) (a : nat) (e : CacheEntry).
Implicit Types (hm cm : gmap Z iterator) (k : Z).

Lemma getFromHistoryList_miss now k s :
  history_map_ s !! k = None →
  getFromHistoryList now k s = Some (history_end, s).
Proof. unfold getFromHistoryList. by intros ->. Qed.

Lemma getFromHistoryList_hit now C K l1 a e l2 cl hm cm nx :
  wf (mkCache C K (l1 ++ mkNode a e :: l2) cl hm cm nx) →
  getFromHistoryList now (key_ e)
    (mkCache C K (l1 ++ mkNode a e :: l2) cl hm cm nx)
  = if (to_size_t K <=? q_size e + 1)%Z then
      promote (key_ e) (node_at a)
        (mkCache C K (l1 ++ mkNode a (touched K now e) :: l2) cl hm cm nx)
    else
      Some (node_at a,
            mkCache C K (mkNode a (touched K now e) :: l1 ++ l2) cl hm cm nx).
Proof.
  intros [Ha Hn Hk Hcm Hhm]. revert Ha Hn Hk Hcm Hhm. fields.
  intros Ha Hn Hk Hcm Hhm.
  assert (hm !! key_ e = Some (node_at a)) as Hl.
  { apply (indexes_Some hm _ (mkNode a e) Hhm).
    apply elem_of_app. right. by left. }
  unfold getFromHistoryList, touched. fields. rewrite Hl.
  rewrite update_in_history by done. bind_some.
  rewrite deref_in_history by (by rewrite (addrs_replace_r _ _ _ e)).
  bind_some. rewrite q_size_push.
  destruct (Z.leb_spec (to_size_t K) (q_size e + 1)).
  - destruct (Z.ltb_spec (to_size_t K) (q_size e + 1)); [|done].
    rewrite update_in_history by (by rewrite (addrs_replace_r _ _ _ e)).
    done.
  - destruct (Z.ltb_spec (to_size_t K) (q_size e + 1)); [lia|].
    rewrite splice_in_history; [done|].
    rewrite <- (addrs_replace_r cl l1 a e (q_push now e)) in Ha.
    eapply fmap_NoDup_sub; [|exact Ha]. solve_submseteq.
Qed.
End paths.

(** ** The invariant is kept by every access *)

Section invariant.
Implicit Types (l hl cl : list node) (n : node) (a : nat) (e : CacheEntry).
Implicit Types (hm cm : gmap Z iterator) (k : Z) (ov : option string).

Lemma key_write ov e : key_ (write ov e) = key_ e.
Proof. by destruct ov. Qed.

Lemma access_time_write ov e : access_time_ (write ov e) = access_time_ e.
Proof. by destruct ov. Qed.

Lemma q_size_write ov e : q_size (write ov e) = q_size e.
Proof. by destruct ov. Qed.

Lemma key_touched K now e : key_ (touched K now e) = key_ e.
Proof. unfold touched. by destruct (_ <? _)%Z. Qed.

Lemma value_touched K now e : value_ (touched K now e) = value_ e.
Proof. unfold touched. by destruct (_ <? _)%Z. Qed.

Lemma key_after ov K now e : key_ (write ov (touched K now e)) = key_ e.
Proof. by rewrite key_write, key_touched. Qed.

Lemma to_size_t_pos z : (0 ≤ z)%Z → to_size_t z = z.
Proof. unfold to_size_t. intros. destruct (Z.ltb_spec z 0); [lia|done]. Qed.

(** With [1 ≤ K]: an entry with a window of [K - 1] or [K] readings has
    one of [K] readings after the access, a smaller one grows by one. *)
Lemma q_size_touched K now e :
  (1 ≤ K)%Z →
  q_size (touched K now e) = (if (K <=? q_size e)%Z then q_size e
                              else q_size e + 1)%Z.
Proof.
  intros HK. unfold touched. rewrite q_size_push, to_size_t_pos by lia.
  destruct (Z.ltb_spec K (q_size e + 1)), (Z.leb_spec K (q_size e));
    try lia.
  - apply q_size_pop_push.
  - apply q_size_push.
Qed.

Lemma wf_replace_cache C K hl l1 a e e' l2 hm cm nx :
  key_ e' = key_ e →
  wf (mkCache C K hl (l1 ++ mkNode a e :: l2) hm cm nx) →
  wf (mkCache C K hl (l1 ++ mkNode a e' :: l2) hm cm nx).
Proof.
  intros Hk Hwf.
  pose proof (wf_addr _ Hwf) as Ha. revert Ha. fields. intros Ha.
  apply addrs_cache_history in Ha as (Hc & _ & Hd).
  assert (a ∉ addrs hl) as Hh.
  { apply Hd. unfold addrs. rewrite fmap_app, fmap_cons.
    apply elem_of_app. right. by left. }
  apply addrs_middle in Hc as [H1 H2].
  apply (wf_modify a (λ x, mkEntry (key_ x) (value_ e') (access_time_ e')))
    in Hwf; [|done].
  rewrite modify_node_middle, modify_node_id in Hwf by done.
  rewrite <- Hk in Hwf. by destruct e'.
Qed.

Lemma accessed_wf now ov s e s' : accessed now ov s e s' → wf s → wf s'.
Proof.
  destruct 1 as [C K hl l1 a e l2 hm cm nx
                |C K l1 a e l2 cl hm cm nx Hlt
                |C K l1 a e l2 cl hm cm nx HK Hfree
                |C K l1 a e l2 c1 av ev hm cm nx HK Hfull]; intros Hwf.
  - apply (wf_perm _ _ hl hl (l1 ++ mkNode a (write ov (touched K now e)) :: l2));
      [done|by rewrite list_sort_perm|].
    by apply (wf_replace_cache _ _ _ _ _ e); [apply key_after|].
  - apply (wf_perm _ _ (l1 ++ mkNode a (write ov (touched K now e)) :: l2) _ cl cl);
      [by rewrite Permutation_middle|done|].
    by apply (wf_replace_history _ _ _ _ e); [apply key_after|].
  - set (e' := write ov (touched K now e)).
    assert (key_ e' = key_ e) as Hk by apply key_after.
    apply (wf_replace_history _ _ _ _ _ e') in Hwf; [|done].
    apply (wf_perm _ _ _ (mkNode a e' :: l1 ++ l2) cl cl) in Hwf;
      [|by rewrite Permutation_middle|done].
    pose proof (wf_key_history _ _ _ _ _ _ _ _ Hwf) as Hfresh.
    apply wf_remove_history in Hwf.
    apply (wf_add_cache _ _ (mkNode nx e') _ _ _ _ _ (S nx)) in Hwf;
      [|done|cbn; lia].
    revert Hwf. unfold nkey. cbn. rewrite Hk. apply wf_perm; [done|].
    by rewrite list_sort_perm, Permutation_app_comm.
  - set (e' := write ov (touched K now e)).
    assert (key_ e' = key_ e) as Hk by apply key_after.
    apply (wf_replace_history _ _ _ _ _ e') in Hwf; [|done].
    apply (wf_perm _ _ _ (mkNode a e' :: l1 ++ l2) _ (mkNode av ev :: c1))
      in Hwf; [|by rewrite Permutation_middle|by rewrite Permutation_app_comm].
    pose proof (wf_key_history _ _ _ _ _ _ _ _ Hwf) as Hke.
    pose proof (wf_key_cache _ _ _ _ _ _ _ _ Hwf) as Hkv.
    assert (key_ ev ≠ key_ e) as Hne.
    { intros Heq. apply Hkv. unfold keys. rewrite fmap_app, fmap_cons.
      apply elem_of_app. right. apply elem_of_cons. left.
      unfold nkey. cbn. congruence. }
    apply wf_remove_cache, wf_remove_history in Hwf.
    apply (wf_add_cache _ _ (mkNode nx e') _ _ _ _ _ (S nx)) in Hwf;
      [| |cbn; lia].
    2:{ eapply fmap_not_elem_sub; [|exact Hke]. solve_submseteq. }
    apply (wf_add_history _ _ (mkNode (S nx) ev) _ _ _ _ _ (S (S nx))) in Hwf;
      [| |cbn; lia].
    2:{ unfold keys. rewrite <- app_comm_cons, fmap_cons.
        apply not_elem_of_cons. split; [unfold nkey; cbn; congruence|].
        eapply fmap_not_elem_sub; [|exact Hkv]. solve_submseteq. }
    revert Hwf. unfold nkey. cbn. rewrite Hk.
    rewrite <- delete_insert_ne by done. apply wf_perm; [done|].
    by rewrite list_sort_perm, Permutation_app_comm.
Qed.
Lemma accessed_inv now ov C K s e s' :
  (1 ≤ K)%Z → accessed now ov s e s' → inv C K s → inv C K s'.
Proof.
  intros HK Hacc [Hwf HC HKs Hcs Hhs Hcq Hhq Hsorted].
  pose proof (accessed_wf _ _ _ _ _ Hacc Hwf) as Hwf'.
  destruct Hacc as [C' K' hl l1 a e l2 hm cm nx
                   |C' K' l1 a e l2 cl hm cm nx Hlt
                   |C' K' l1 a e l2 cl hm cm nx HKe Hfree
                   |C' K' l1 a e l2 c1 av ev hm cm nx HKe Hfull];
    revert HC HKs Hcs Hhs Hcq Hhq Hsorted; fields; intros -> ->;
    intros Hcs Hhs Hcq Hhq Hsorted;
    (split; fields; [done|done|done|..]);
    try apply list_sort_sorted; try done;
    rewrite ?list_sort_perm, ?length_app, ?Forall_app, ?Forall_cons,
      ?Forall_nil in *; cbn [length] in *; fields;
    rewrite ?length_app, ?q_size_write, ?q_size_touched in * by done;
    cbn [length] in *.
  all: cbn [elem] in *; rewrite ?Forall_app in *.
  all: repeat match goal with H : _ ∧ _ |- _ => destruct H end.
  all: repeat split; try done; try lia.
  all: destruct (Z.leb_spec K (q_size e)); lia.
Qed.

Lemma inserted_wf now k v s s' :
  inserted now k v s s' →
  k ∉ keys (cacheList_ s ++ historyList_ s) → wf s → wf s'.
Proof.
  destruct 1 as [C K hl cl hm cm nx Hfree
                |C K h1 at_ et cl hm cm nx Hfull]; fields; intros Hk Hwf.
  - by apply (wf_add_history _ _ (mkNode nx (mkEntry k v [now])) _ _ _ _ nx);
      [| |cbn; lia].
  - apply (wf_perm _ _ _ (mkNode at_ et :: h1) cl cl) in Hwf;
      [|by rewrite Permutation_app_comm|done].
    apply wf_remove_history in Hwf.
    apply (wf_add_history _ _ (mkNode nx (mkEntry k v [now])) _ _ _ _ nx);
      [done| |cbn; lia].
    eapply fmap_not_elem_sub; [|exact Hk]. solve_submseteq.
Qed.

Lemma inserted_inv now k v C K s s' :
  (1 ≤ K)%Z → inserted now k v s s' →
  k ∉ keys (cacheList_ s ++ historyList_ s) → inv C K s → inv C K s'.
Proof.
  intros HK Hins Hk [Hwf HC HKs Hcs Hhs Hcq Hhq Hsorted].
  pose proof (inserted_wf _ _ _ _ _ Hins Hk Hwf) as Hwf'.
  destruct Hins as [C' K' hl cl hm cm nx Hfree
                   |C' K' h1 at_ et cl hm cm nx Hfull];
    revert HC HKs Hcs Hhs Hcq Hhq Hsorted; fields; intros -> ->;
    intros Hcs Hhs Hcq Hhq Hsorted;
    (split; fields; [done|done|done|done|..]); try done;
    rewrite ?length_app, ?Forall_app, ?Forall_cons, ?Forall_nil in *;
    cbn [length] in *; fields; unfold q_size; cbn [length access_time_].
  - lia.
  - split; [lia|done].
  - lia.
  - split; [lia|tauto].
Qed.

Lemma inv_new C K : (0 ≤ C)%Z → inv C K (LRUK_Cache_new C K).
Proof.
  intros HC. split; [apply wf_new|..]; cbn; try done; try lia; constructor.
Qed.

Lemma inv_clear C K s : (0 ≤ C)%Z → inv C K s → inv C K (clear s).
Proof.
  intros HC [? ? ? _ _ _ _ _].
  split; [apply wf_clear|..]; cbn; try done; try lia; constructor.
Qed.
End invariant.

(** ** [get] and [put] follow the access relations *)

Section refinement.
Implicit Types (l hl cl : list node) (n : node) (a : nat) (e : CacheEntry).
Implicit Types (hm cm : gmap Z iterator) (k : Z) (ov : option string).

Lemma sort_insert_set_value a v x l :
  sort_insert (mkNode (addr x) (if Nat.eqb (addr x) a
                                then set_value v (elem x) else elem x))
    (modify_node a (set_value v) l)
  = modify_node a (set_value v) (sort_insert x l).
Proof.
  induction l as [|y l IH]; cbn.
  - destruct x as [ax ex]. cbn. by destruct (Nat.eqb ax a).
  - assert (∀ n, q_front (elem (if Nat.eqb (addr n) a
                        then mkNode (addr n) (set_value v (elem n)) else n))
                 = q_front (elem n)) as Hfront.
    { intros n. by destruct (Nat.eqb (addr n) a). }
    unfold compareByAccessTime. rewrite Hfront.
    replace (q_front (if Nat.eqb (addr x) a
                      then set_value v (elem x) else elem x))
      with (q_front (elem x)) by (by destruct (Nat.eqb (addr x) a)).
    destruct (q_front (elem x) <? q_front (elem y))%Z; cbn.
    + f_equal. apply IH.
    + f_equal. destruct x as [ax ex]. cbn. by destruct (Nat.eqb ax a).
Qed.

Lemma list_sort_set_value a v l :
  list_sort (modify_node a (set_value v) l)
  = modify_node a (set_value v) (list_sort l).
Proof.
  induction l as [|x l IH]; [done|].
  change (list_sort (x :: l)) with (sort_insert x (list_sort l)).
  rewrite <- sort_insert_set_value, <- IH. cbn.
  destruct x as [ax ex]. cbn. by destruct (Nat.eqb ax a).
Qed.

Lemma deref_cache_mem C K hl cl hm cm nx n :
  NoDup (addrs (cl ++ hl)) → n ∈ cl →
  deref (node_at (addr n)) (mkCache C K hl cl hm cm nx) = Some (elem n).
Proof.
  intros Ha (l1 & l2 & ->)%list_elem_of_split. destruct n as [a e].
  by apply deref_in_cache.
Qed.

Lemma update_cache_mem f C K hl cl hm cm nx n :
  NoDup (addrs (cl ++ hl)) → n ∈ cl →
  update_at (node_at (addr n)) f (mkCache C K hl cl hm cm nx)
  = Some (mkCache C K hl (modify_node (addr n) f cl) hm cm nx).
Proof.
  intros Ha (l1 & l2 & ->)%list_elem_of_split. destruct n as [a e].
  rewrite update_in_cache by done. cbn [addr].
  apply addrs_cache_history in Ha as (Hc & _ & _).
  apply addrs_middle in Hc as [H1 H2].
  by rewrite modify_node_middle.
Qed.

(** The entry a [put] overwrites after its access to the cache list. *)
Lemma write_sorted v C K hl l1 a e l2 hm cm nx :
  wf (mkCache C K hl (list_sort (l1 ++ mkNode a e :: l2)) hm cm nx) →
  update_at (node_at a) (set_value v)
    (mkCache C K hl (list_sort (l1 ++ mkNode a e :: l2)) hm cm nx)
  = Some (mkCache C K hl
            (list_sort (l1 ++ mkNode a (set_value v e) :: l2)) hm cm nx).
Proof.
  intros Hwf. pose proof (wf_addr _ Hwf) as Ha. revert Ha. fields.
  intros Ha.
  rewrite (update_cache_mem _ _ _ _ _ _ _ _ (mkNode a e)); [|done|].
  2:{ apply list_sort_elem_of, elem_of_app. right. by left. }
  cbn [addr]. rewrite <- list_sort_set_value.
  unfold addrs in Ha. rewrite list_sort_perm in Ha.
  apply addrs_cache_history in Ha as (Hc & _ & _).
  apply addrs_middle in Hc as [H1 H2].
  by rewrite modify_node_middle.
Qed.

Lemma read_sorted C K hl l1 a e l2 hm cm nx :
  wf (mkCache C K hl (list_sort (l1 ++ mkNode a e :: l2)) hm cm nx) →
  deref (node_at a)
    (mkCache C K hl (list_sort (l1 ++ mkNode a e :: l2)) hm cm nx)
  = Some e.
Proof.
  intros Hwf. pose proof (wf_addr _ Hwf) as Ha. revert Ha. fields.
  intros Ha.
  rewrite (deref_cache_mem _ _ _ _ _ _ _ (mkNode a e)); [done|done|].
  apply list_sort_elem_of, elem_of_app. right. by left.
Qed.
Lemma key_elem_of k l :
  k ∈ keys l → ∃ l1 a e l2, l = l1 ++ mkNode a e :: l2 ∧ key_ e = k.
Proof.
  intros ([a e] & -> & (l1 & l2 & ->)%list_elem_of_split)%list_elem_of_fmap.
  by exists l1, a, e, l2.
Qed.

Lemma touched_full K now e :
  (to_size_t K < q_size e + 1)%Z → touched K now e = q_pop (q_push now e).
Proof.
  intros Hlt. unfold touched. rewrite q_size_push.
  destruct (Z.ltb_spec (to_size_t K) (q_size e + 1)); [done|lia].
Qed.

Lemma snoc_of_nonempty l : l ≠ [] → ∃ l' n, l = l' ++ [n].
Proof.
  intros Hne. destruct (last l) as [n|] eqn:Hlast.
  - apply last_Some in Hlast as [l' ->]. eauto.
  - by apply last_None in Hlast.
Qed.

(** A key of the cache list: [getFromCacheList] finds it. *)
Lemma hot_path now C K hl l1 a e l2 hm cm nx :
  inv C K (mkCache C K hl (l1 ++ mkNode a e :: l2) hm cm nx) → (1 ≤ K)%Z →
  getFromCacheList now (key_ e)
    (mkCache C K hl (l1 ++ mkNode a e :: l2) hm cm nx)
  = Some (node_at a,
          mkCache C K hl
            (list_sort (l1 ++ mkNode a (touched K now e) :: l2)) hm cm nx).
Proof.
  intros Hinv HK.
  pose proof (inv_hot_queue _ _ _ Hinv) as Hq. revert Hq. fields.
  rewrite Forall_app, Forall_cons. cbn [elem]. intros (_ & Hq & _).
  assert (to_size_t K < q_size e + 1)%Z as Hlt
    by (rewrite to_size_t_pos; lia).
  rewrite getFromCacheList_hit; [|by apply (inv_wf C K)|done].
  by rewrite touched_full.
Qed.

(** A key of the history list: [getFromCacheList] misses it and
    [getFromHistoryList] takes one of its three paths. *)
Lemma history_path now C K l1 a e l2 cl hm cm nx :
  inv C K (mkCache C K (l1 ++ mkNode a e :: l2) cl hm cm nx) →
  (1 ≤ C)%Z → (1 ≤ K)%Z →
  ∃ it s1,
    accessed now None
      (mkCache C K (l1 ++ mkNode a e :: l2) cl hm cm nx) e s1 ∧
    getFromCacheList now (key_ e)
      (mkCache C K (l1 ++ mkNode a e :: l2) cl hm cm nx)
    = Some (cache_end, mkCache C K (l1 ++ mkNode a e :: l2) cl hm cm nx) ∧
    getFromHistoryList now (key_ e)
      (mkCache C K (l1 ++ mkNode a e :: l2) cl hm cm nx) = Some (it, s1) ∧
    iterator_eqb it history_end = false ∧
    deref it s1 = Some (touched K now e) ∧
    ∀ v, ∃ s2,
      accessed now (Some v)
        (mkCache C K (l1 ++ mkNode a e :: l2) cl hm cm nx) e s2 ∧
      update_at it (set_value v) s1 = Some s2.
Proof.
  intros Hinv HC HK. pose proof (inv_wf _ _ _ Hinv) as Hwf.
  pose proof (wf_replace_history _ _ _ _ _ (touched K now e) _ _ _ _ _
                (key_touched K now e) Hwf) as Hwf1.
  assert (cm !! key_ e = None) as Hcm.
  { apply (indexes_None cm cl); [apply (wf_cmap _ Hwf)|].
    apply (wf_perm _ _ _ (mkNode a e :: l1 ++ l2) cl cl) in Hwf;
      [|by rewrite Permutation_middle|done].
    apply wf_key_history in Hwf.
    eapply fmap_not_elem_sub; [|exact Hwf]. solve_submseteq. }
  rewrite getFromCacheList_miss by done.
  rewrite getFromHistoryList_hit by done.
  rewrite to_size_t_pos by lia.
  destruct (Z.leb_spec K (q_size e + 1)) as [HKe|HKe].
  - rewrite <- (key_touched K now e).
    destruct (Z.lt_ge_cases (Z.of_nat (length cl)) C) as [Hfree|Hfull].
    + rewrite promote_free; [|done|by rewrite to_size_t_pos by lia].
      rewrite !key_touched.
      pose proof (accessed_promoted now None C K l1 a e l2 cl hm cm nx
                    HKe Hfree) as Hacc.
      pose proof (accessed_wf _ _ _ _ _ Hacc Hwf) as Hwf2.
      eexists _, _. split; [exact Hacc|]. split; [done|]. split; [done|].
      split; [done|]. cbn [write] in *. split.
      * by apply (read_sorted _ _ _ _ _ _ []).
      * intros v. eexists. split; [by constructor|]. cbn [write].
        by apply (write_sorted _ _ _ _ _ _ _ []).
    + destruct (snoc_of_nonempty cl) as (c1 & [av ev] & ->).
      { intros ->. cbn in Hfull. lia. }
      rewrite promote_full; [|done|by rewrite to_size_t_pos by lia].
      rewrite !key_touched.
      pose proof (accessed_demoting now None C K l1 a e l2 c1 av ev hm cm nx
                    HKe Hfull) as Hacc.
      pose proof (accessed_wf _ _ _ _ _ Hacc Hwf) as Hwf2.
      eexists _, _. split; [exact Hacc|]. split; [done|]. split; [done|].
      split; [done|]. cbn [write] in *. split.
      * by apply (read_sorted _ _ _ _ _ _ []).
      * intros v. eexists. split; [by constructor|]. cbn [write].
        by apply (write_sorted _ _ _ _ _ _ _ []).
  - pose proof (accessed_history now None C K l1 a e l2 cl hm cm nx HKe)
      as Hacc.
    pose proof (accessed_wf _ _ _ _ _ Hacc Hwf) as Hwf2.
    pose proof (wf_addr _ Hwf2) as Ha. revert Ha. fields. intros Ha.
    eexists _, _. split; [exact Hacc|]. split; [done|]. split; [done|].
    split; [done|]. cbn [write] in *. split.
    + by apply (deref_in_history _ _ _ []).
    + intros v. eexists. split; [by constructor|]. cbn [write].
      by apply (update_in_history _ _ _ _ []).
Qed.
Lemma update_head_history f C K cl a e l2 hm cm nx :
  NoDup (addrs (cl ++ mkNode a e :: l2)) →
  update_at (node_at a) f (mkCache C K (mkNode a e :: l2) cl hm cm nx)
  = Some (mkCache C K (mkNode a (f e) :: l2) cl hm cm nx).
Proof. apply (update_in_history f C K cl []). Qed.

Lemma insert_new_fresh now k v C K hl cl hm cm nx :
  NoDup (addrs (cl ++ hl)) → Forall (λ n, addr n < nx) (cl ++ hl) →
  hm !! k = None →
  insert_new now k v (mkCache C K hl cl hm cm nx)
  = Some (mkCache C K (mkNode nx (mkEntry k v [now]) :: hl) cl
            (<[k := node_at nx]> hm) cm (S nx)).
Proof.
  intros Ha Hn Hk. unfold insert_new, historyList_emplace_front. fields.
  cbn [list_begin addr].
  rewrite update_head_history.
  - bind_some. by rewrite map_emplace_None.
  - eapply (fmap_NoDup_fresh addr (mkNode nx (mkEntry k v [])));
      [|by apply fresh_addr|done].
    solve_Permutation.
Qed.

Lemma absent_lookups k s :
  wf s → k ∉ keys (cacheList_ s ++ historyList_ s) →
  cache_map_ s !! k = None ∧ history_map_ s !! k = None.
Proof.
  intros [_ _ _ Hcm Hhm] Hk. unfold keys in Hk. rewrite fmap_app in Hk.
  apply not_elem_of_app in Hk as [Hc Hh].
  split; [by apply (indexes_None _ _ _ Hcm)|by apply (indexes_None _ _ _ Hhm)].
Qed.

(** [get] of a key that is in neither list: not found, nothing changes. *)
Lemma get_absent now k s :
  wf s → k ∉ keys (cacheList_ s ++ historyList_ s) →
  get now k s = Some (EmptyString, false, s).
Proof.
  intros Hwf Hk. destruct (absent_lookups k s Hwf Hk) as [Hc Hh].
  unfold get. rewrite getFromCacheList_miss by done. bind_some. cbn.
  by rewrite getFromHistoryList_miss by done.
Qed.

(** [get] and [put] of a key that is in one of the lists: the same access,
    and [put] then writes through the iterator of the entry. *)
Lemma present_paths now C K s k :
  inv C K s → (1 ≤ C)%Z → (1 ≤ K)%Z →
  k ∈ keys (cacheList_ s ++ historyList_ s) →
  ∃ e s1 it,
    key_ e = k ∧ accessed now None s e s1 ∧
    get now k s = Some (value_ e, true, s1) ∧
    deref it s1 = Some (touched K now e) ∧
    ∀ v, ∃ s2, accessed now (Some v) s e s2 ∧ put now k v s = Some s2 ∧
               update_at it (set_value v) s1 = Some s2.
Proof.
  intros Hinv HC HK Hk. destruct s as [C' K' hl cl hm cm nx].
  pose proof (inv_capacity _ _ _ Hinv) as HC'.
  pose proof (inv_k _ _ _ Hinv) as HK'. cbn in HC', HK'. subst C' K'.
  revert Hk. fields. unfold keys. rewrite fmap_app.
  intros [Hk|Hk]%elem_of_app;
    apply key_elem_of in Hk as (l1 & a & e & l2 & -> & <-).
  - pose proof (hot_path now _ _ _ _ _ _ _ _ _ _ Hinv HK) as Hget.
    pose proof (accessed_hot now None C K hl l1 a e l2 hm cm nx) as Hacc.
    pose proof (accessed_wf _ _ _ _ _ Hacc (inv_wf _ _ _ Hinv)) as Hwf1.
    cbn [write] in *.
    eexists e, _, (node_at a). split; [done|]. split; [exact Hacc|].
    split; [|split].
    + unfold get. rewrite Hget. bind_some. cbn [iterator_eqb negb].
      rewrite read_sorted by done. bind_some. by rewrite value_touched.
    + by apply read_sorted.
    + intros v. eexists. split; [by constructor|]. cbn [write].
      split; [|by apply write_sorted].
      unfold put. rewrite Hget. bind_some. cbn [iterator_eqb negb].
      by apply write_sorted.
  - destruct (history_path now _ _ _ _ _ _ _ _ _ _ Hinv HC HK)
      as (it & s1 & Hacc & Hmiss & Hhit & Hit & Hread & Hwrite).
    exists e, s1, it. split; [done|]. split; [done|]. split; [|split].
    + unfold get. rewrite Hmiss. bind_some. cbn [iterator_eqb negb].
      rewrite Hhit. bind_some. rewrite Hit. cbn [negb].
      rewrite Hread. bind_some. by rewrite value_touched.
    + done.
    + intros v. destruct (Hwrite v) as (s2 & Hacc2 & Hupd).
      exists s2. split; [done|]. split; [|done].
      unfold put. rewrite Hmiss. bind_some. cbn [iterator_eqb negb].
      rewrite Hhit. bind_some. by rewrite Hit.
Qed.

(** [put] of a key that is in neither list. *)
Lemma put_absent now C K s k v :
  inv C K s → (1 ≤ C)%Z →
  k ∉ keys (cacheList_ s ++ historyList_ s) →
  ∃ s', inserted now k v s s' ∧ put now k v s = Some s'.
Proof.
  intros Hinv HC Hk. pose proof (inv_wf _ _ _ Hinv) as Hwf.
  destruct (absent_lookups k s Hwf Hk) as [Hc Hh].
  destruct s as [C' K' hl cl hm cm nx].
  pose proof (inv_capacity _ _ _ Hinv) as HC'.
  pose proof (inv_k _ _ _ Hinv) as HK'. cbn in HC', HK'. subst C' K'.
  revert Hk Hc Hh. fields. intros Hk Hc Hh.
  pose proof (wf_addr _ Hwf) as Ha. pose proof (wf_next _ Hwf) as Hn.
  revert Ha Hn. fields. intros Ha Hn.
  unfold put. rewrite getFromCacheList_miss by done. bind_some.
  cbn [iterator_eqb negb].
  rewrite getFromHistoryList_miss by done. bind_some.
  cbn [iterator_eqb negb]. rewrite to_size_t_pos by lia.
  destruct (Z.ltb_spec (Z.of_nat (length hl)) C) as [Hfree|Hfull].
  - eexists. split; [by constructor|]. by apply insert_new_fresh.
  - destruct (snoc_of_nonempty hl) as (h1 & [at_ et] & ->).
    { intros ->. cbn in Hfull. lia. }
    eexists. split; [by constructor|].
    unfold findVictimFromHistory. fields. rewrite last_snoc. bind_some.
    rewrite (deref_in_history _ _ _ _ _ _ []) by done. bind_some.
    rewrite (erase_in_history _ _ _ _ _ _ []).
    2:{ eapply fmap_NoDup_sub; [|exact Ha]. solve_submseteq. }
    bind_some. rewrite app_nil_r. apply insert_new_fresh.
    + eapply fmap_NoDup_sub; [|exact Ha]. solve_submseteq.
    + rewrite !Forall_app in *. tauto.
    + rewrite lookup_delete_None. by right.
Qed.
(** Every operation is defined on a state that satisfies the invariant,
    and keeps the invariant. *)
Lemma exec_inv now o C K s :
  (1 ≤ C)%Z → (1 ≤ K)%Z → inv C K s →
  ∃ s', exec now o s = Some s' ∧ inv C K s'.
Proof.
  intros HC HK Hinv. destruct o as [k|k v|]; cbn [exec].
  - destruct (decide (k ∈ keys (cacheList_ s ++ historyList_ s))) as [Hk|Hk].
    + destruct (present_paths now C K s k Hinv HC HK Hk)
        as (e & s1 & it & _ & Hacc & -> & _).
      exists s1. split; [done|]. by apply (accessed_inv now None _ _ s e).
    + rewrite get_absent; [|by apply (inv_wf C K)|done]. by exists s.
  - destruct (decide (k ∈ keys (cacheList_ s ++ historyList_ s))) as [Hk|Hk].
    + destruct (present_paths now C K s k Hinv HC HK Hk)
        as (e & s1 & it & _ & _ & _ & _ & Hput).
      destruct (Hput v) as (s2 & Hacc & -> & _).
      exists s2. split; [done|]. by apply (accessed_inv now (Some v) _ _ s e).
    + destruct (put_absent now C K s k v Hinv HC Hk) as (s' & Hins & ->).
      exists s'. split; [done|]. by apply (inserted_inv now k v _ _ s).
  - eexists. split; [done|]. apply inv_clear; [lia|done].
Qed.

Lemma reachable_inv C K s :
  (1 ≤ C)%Z → (1 ≤ K)%Z → reachable C K s → inv C K s.
Proof.
  intros HC HK. induction 1 as [|s now o s' _ IH Hexec].
  - apply inv_new. lia.
  - destruct (exec_inv now o C K s HC HK IH) as (s'' & Heq & Hinv).
    congruence.
Qed.

(** A probe of the cache list that reports a miss has changed nothing: an
    operation reads the clock once, in the probe that finds the key or in
    the insertion of a new entry. *)
Lemma getFromCacheList_end now C K k s s1 :
  inv C K s → (1 ≤ K)%Z →
  getFromCacheList now k s = Some (cache_end, s1) → s1 = s.
Proof.
  intros Hinv HK Hres. destruct (cache_map_ s !! k) as [it|] eqn:Hl.
  - exfalso. apply (wf_cmap _ (inv_wf _ _ _ Hinv)) in Hl as (n & Hn & <- & _).
    apply list_elem_of_split in Hn as (l1 & l2 & Hcl).
    destruct s as [C' K' hl cl hm cm nx], n as [a e].
    pose proof (inv_capacity _ _ _ Hinv) as HC'.
    pose proof (inv_k _ _ _ Hinv) as HK'. cbn in HC', HK', Hcl. subst C' K' cl.
    unfold nkey in Hres. cbn [elem] in Hres.
    by rewrite (hot_path now C K hl l1 a e l2 hm cm nx Hinv HK) in Hres.
  - rewrite getFromCacheList_miss in Hres by done. congruence.
Qed.

(** No operation on a reachable state of a cache with positive capacity
    and K runs into undefined behaviour. *)
Lemma exec_total now o C K s :
  (1 ≤ C)%Z → (1 ≤ K)%Z → reachable C K s → is_Some (exec now o s).
Proof.
  intros HC HK Hs. apply (reachable_inv C K s HC HK) in Hs.
  destruct (exec_inv now o C K s HC HK Hs) as (s' & -> & _). by exists s'.
Qed.

Lemma run_reachable C K ops s s' :
  reachable C K s → run ops s = Some s' → reachable C K s'.
Proof.
  revert s. induction ops as [|[now o] ops IH]; intros s Hs; cbn.
  - by intros [= <-].
  - destruct (exec now o s) as [s1|] eqn:Hexec; [|done]. cbn.
    apply IH. by apply (reachable_step C K s now o).
Qed.
End refinement.

(** ** Facts about lists and states used by the claims *)

Lemma NoDup_fmap_eq {A B} (f : A → B) (l : list A) x y :
  NoDup (f <$> l) → x ∈ l → y ∈ l → f x = f y → x = y.
Proof.
  induction l as [|z l IH]; [by intros _ ?%elem_of_nil|].
  rewrite fmap_cons. intros [Hz Hnd]%NoDup_cons.
  intros [->|Hx]%elem_of_cons [->|Hy]%elem_of_cons Heq; try done.
  - exfalso. apply Hz. rewrite Heq. by apply list_elem_of_fmap_2.
  - exfalso. apply Hz. rewrite <- Heq. by apply list_elem_of_fmap_2.
  - by apply IH.
Qed.

Lemma Forall_elem (P : CacheEntry → Prop) (l : list node) :
  Forall (λ n, P (elem n)) l → Forall P (elem <$> l).
Proof. intros H. by apply Forall_fmap. Qed.

Lemma wf_hot_not_history s k :
  wf s → k ∈ hot_keys s → k ∉ history_keys s.
Proof.
  intros [_ _ Hk _ _]. unfold keys in Hk. rewrite fmap_app in Hk.
  apply NoDup_app in Hk as (_ & Hdisj & _). apply Hdisj.
Qed.

Lemma sorted_last_stalest c1 v :
  Sorted newer_or_equal (c1 ++ [v]) →
  Forall (λ n, (q_front (elem v) ≤ q_front (elem n))%Z) (c1 ++ [v]).
Proof.
  intros Hs%Sorted_StronglySorted; [|apply _].
  apply StronglySorted_app in Hs as (Hlast & _ & _).
  apply Forall_app. split.
  - apply Forall_forall. intros n Hn. apply (Hlast n v Hn). by left.
  - by apply Forall_singleton.
Qed.

Lemma sorted_consecutive {A} (R : A → A → Prop) (l : list A) i x y :
  Sorted R l → l !! i = Some x → l !! S i = Some y → R x y.
Proof.
  intros Hs. revert i. induction Hs as [|z l Hs IH Hhd]; intros i; [done|].
  destruct i as [|i]; cbn.
  - intros [= ->] Hy. destruct Hhd as [|w l Hzw]; [done|]. cbn in Hy. congruence.
  - apply IH.
Qed.

Lemma overwrite_modify a k v (l : list node) :
  (∀ n, n ∈ l → addr n = a ↔ nkey n = k) →
  elem <$> modify_node a (set_value v) l = overwrite k v <$> (elem <$> l).
Proof.
  intros Hl. unfold modify_node. rewrite <- !list_fmap_compose.
  apply list_fmap_ext. intros i n Hn%list_elem_of_lookup_2. cbn.
  unfold overwrite. specialize (Hl n Hn). unfold nkey in Hl.
  destruct (Nat.eqb_spec (addr n) a) as [Ha|Ha],
    (Z.eqb_spec (key_ (elem n)) k) as [Hk|Hk]; try done; tauto.
Qed.

(** The paths of an operation on a state that satisfies the invariant. *)
Lemma exec_cases now o C K s s' :
  (1 ≤ C)%Z → (1 ≤ K)%Z → inv C K s → exec now o s = Some s' →
  (∃ ov e, key_of o = Some (key_ e) ∧ accessed now ov s e s') ∨
  (∃ k, o = Get k ∧ (k ∉ keys (cacheList_ s ++ historyList_ s)) ∧ s' = s) ∨
  (∃ k v, o = Put k v ∧ (k ∉ keys (cacheList_ s ++ historyList_ s)) ∧
          inserted now k v s s') ∨
  (o = Clear ∧ s' = clear s).
Proof.
  intros HC HK Hinv. destruct o as [k|k v|]; cbn [exec].
  - destruct (decide (k ∈ keys (cacheList_ s ++ historyList_ s))) as [Hk|Hk].
    + destruct (present_paths now C K s k Hinv HC HK Hk)
        as (e & s1 & it & <- & Hacc & -> & _).
      cbn. intros [= <-]. left. by exists None, e.
    + rewrite get_absent; [|by apply (inv_wf C K)|done].
      cbn. intros [= <-]. right. left. by exists k.
  - destruct (decide (k ∈ keys (cacheList_ s ++ historyList_ s))) as [Hk|Hk].
    + destruct (present_paths now C K s k Hinv HC HK Hk)
        as (e & s1 & it & <- & _ & _ & _ & Hput).
      destruct (Hput v) as (s2 & Hacc & -> & _).
      intros [= <-]. left. by exists (Some v), e.
    + destruct (put_absent now C K s k v Hinv HC Hk) as (s2 & Hins & ->).
      intros [= <-]. right. right. left. by exists k, v.
  - intros [= <-]. by repeat right.
Qed.

(** ** Entries, counts and promotions along a run *)

Section promotion_law.
Implicit Types (l : list node) (n : node) (e : CacheEntry) (k : Z).

Lemma keys_entries l : keys l = key_ <$> (elem <$> l).
Proof. unfold keys. by rewrite <- list_fmap_compose. Qed.

Lemma entries_app s :
  hot_entries s ++ history_entries s = elem <$> (cacheList_ s ++ historyList_ s).
Proof. unfold hot_entries, history_entries. by rewrite fmap_app. Qed.

Lemma keys_app s :
  hot_keys s ++ history_keys s = keys (cacheList_ s ++ historyList_ s).
Proof. unfold hot_keys, history_keys, keys. by rewrite fmap_app. Qed.

Lemma entry_unique s e1 e2 :
  wf s → e1 ∈ hot_entries s ++ history_entries s →
  e2 ∈ hot_entries s ++ history_entries s → key_ e1 = key_ e2 → e1 = e2.
Proof.
  intros Hwf. rewrite entries_app. apply NoDup_fmap_eq.
  rewrite <- keys_entries. apply (wf_keys _ Hwf).
Qed.

Lemma entry_key s e :
  e ∈ hot_entries s ++ history_entries s →
  key_ e ∈ hot_keys s ++ history_keys s.
Proof.
  rewrite entries_app, keys_app, keys_entries. apply list_elem_of_fmap_2.
Qed.

(** The entries after an access: the accessed one, as it is after the
    access, and entries that were there before. *)
Lemma accessed_entries now ov s e0 s' e :
  accessed now ov s e0 s' →
  e ∈ hot_entries s' ++ history_entries s' →
  e = write ov (touched (k_ s) now e0) ∨
  e ∈ hot_entries s ++ history_entries s.
Proof.
  intros Hacc. rewrite !entries_app.
  destruct Hacc as [C K hl l1 a e0 l2 hm cm nx
                   |C K l1 a e0 l2 cl hm cm nx Hlt
                   |C K l1 a e0 l2 cl hm cm nx HKe Hfree
                   |C K l1 a e0 l2 c1 av ev hm cm nx HKe Hfull]; fields;
    rewrite ?list_sort_perm; rewrite !fmap_app, ?fmap_cons, ?fmap_app;
    cbn [elem]; rewrite ?fmap_cons; cbn [elem];
    rewrite !elem_of_app, ?elem_of_cons, ?elem_of_app, ?elem_of_cons,
      ?elem_of_nil; tauto.
Qed.

Lemma accessed_entry_before now ov s e0 s' :
  accessed now ov s e0 s' → e0 ∈ hot_entries s ++ history_entries s.
Proof.
  intros Hacc. rewrite entries_app.
  destruct Hacc; fields; rewrite !fmap_app, ?fmap_cons, ?fmap_app; cbn [elem];
    rewrite ?fmap_cons; cbn [elem];
    rewrite !elem_of_app, ?elem_of_cons, ?elem_of_app, ?elem_of_cons; tauto.
Qed.

Lemma inserted_entries now k v s s' e :
  inserted now k v s s' →
  e ∈ hot_entries s' ++ history_entries s' →
  e = mkEntry k v [now] ∨ e ∈ hot_entries s ++ history_entries s.
Proof.
  intros Hins. rewrite !entries_app.
  destruct Hins; fields; rewrite !fmap_app, ?fmap_cons, ?fmap_app;
    cbn [elem];
    rewrite !elem_of_app, ?elem_of_cons, ?elem_of_app; tauto.
Qed.

Lemma window_after_access K c q :
  (1 ≤ K)%Z → q = Z.min (Z.of_nat c) K →
  (if (K <=? q)%Z then q else q + 1)%Z = Z.min (Z.of_nat (S c)) K.
Proof. intros HK ->. destruct (Z.leb_spec K (Z.min (Z.of_nat c) K)); lia. Qed.

Lemma accessed_entry_after now ov s e0 s' :
  accessed now ov s e0 s' →
  write ov (touched (k_ s) now e0) ∈ hot_entries s' ++ history_entries s'.
Proof.
  intros Hacc. rewrite entries_app.
  destruct Hacc; fields; rewrite ?list_sort_perm;
    rewrite !fmap_app, ?fmap_cons, ?fmap_app; cbn [elem];
    rewrite ?fmap_cons; cbn [elem];
    rewrite !elem_of_app, ?elem_of_cons, ?elem_of_app, ?elem_of_cons; tauto.
Qed.

(** The window follows the count through every operation. *)
Lemma window_counts_step now o C K k s s' (cp : nat * nat) :
  (1 ≤ C)%Z → (1 ≤ K)%Z → inv C K s → exec now o s = Some s' →
  window_counts K k s (fst cp) →
  window_counts K k s' (fst (life_step k o s s' cp)).
Proof.
  intros HC HK Hinv Hexec [Habsent Hwin]. unfold life_step, cached.
  destruct (exec_inv now o C K s HC HK Hinv) as (s'' & Heq & Hinv').
  assert (s'' = s') as -> by congruence. clear Heq.
  pose proof (inv_wf _ _ _ Hinv) as Hwf.
  pose proof (inv_wf _ _ _ Hinv') as Hwf'.
  pose proof (inv_k _ _ _ Hinv) as HKs.
  case_bool_decide as Hcached; cbn [fst].
  2:{ split; [done|]. intros e He Hke. exfalso. apply Hcached.
      rewrite <- Hke. by apply entry_key. }
  split; [done|]. intros e He Hke.
  destruct (exec_cases now o C K s s' HC HK Hinv Hexec)
    as [(ov & e0 & Hko & Hacc)|[(k0 & -> & Hk0 & ->)|[(k0 & v & -> & Hk0 & Hins)
       |[-> ->]]]].
  - rewrite Hko. destruct (decide (key_ e0 = k)) as [Hk|Hk].
    + rewrite bool_decide_eq_true_2 by congruence.
      assert (e = write ov (touched (k_ s) now e0)) as ->.
      { apply (entry_unique s'); [done|done| |].
        - by apply accessed_entry_after.
        - rewrite key_after. congruence. }
      rewrite q_size_write, HKs, q_size_touched by done.
      apply window_after_access; [done|]. apply Hwin; [|done].
      by apply (accessed_entry_before now ov s e0 s').
    + rewrite bool_decide_eq_false_2 by congruence.
      destruct (accessed_entries _ _ _ _ _ _ Hacc He) as [->|Hold].
      * by rewrite key_after in Hke.
      * by apply Hwin.
  - cbn [key_of]. case_bool_decide as Hk; [|by apply Hwin].
    exfalso. injection Hk as ->. apply Hk0. rewrite <- keys_app.
    rewrite <- Hke. by apply entry_key.
  - cbn [key_of]. destruct (inserted_entries _ _ _ _ _ _ Hins He) as [->|Hold].
    + cbn in Hke. subst k0. rewrite bool_decide_eq_true_2 by done.
      rewrite Habsent by (by rewrite keys_app). unfold q_size. cbn. lia.
    + case_bool_decide as Hk; [|by apply Hwin].
      exfalso. injection Hk as ->. apply Hk0. rewrite <- keys_app.
      rewrite <- Hke. by apply entry_key.
  - by apply elem_of_nil in He.
Qed.

Lemma track_inv C K k ops s0 cp0 s cp :
  (1 ≤ C)%Z → (1 ≤ K)%Z → inv C K s0 → window_counts K k s0 (fst cp0) →
  track k ops s0 cp0 = Some (s, cp) →
  inv C K s ∧ window_counts K k s (fst cp).
Proof.
  intros HC HK. revert s0 cp0.
  induction ops as [|[now o] ops IH]; intros s0 cp0 Hinv Hwin; cbn.
  - by intros [= <- <-].
  - destruct (exec now o s0) as [s1|] eqn:Hexec; [|done]. cbn.
    apply IH.
    + destruct (exec_inv now o C K s0 HC HK Hinv) as (s'' & Heq & Hinv').
      congruence.
    + by apply (window_counts_step now o C K).
Qed.

Lemma window_counts_new C K k : window_counts K k (LRUK_Cache_new C K) 0.
Proof. split; [done|]. by intros e ?%elem_of_nil. Qed.

Lemma accessed_hot_keys now ov s e s' k :
  accessed now ov s e s' → k ∈ hot_keys s' →
  k ∈ hot_keys s ∨
  (k = key_ e ∧ key_ e ∈ history_keys s ∧ (k_ s ≤ q_size e + 1)%Z).
Proof.
  unfold hot_keys, history_keys.
  destruct 1 as [C K hl l1 a e l2 hm cm nx
                |C K l1 a e l2 cl hm cm nx Hlt
                |C K l1 a e l2 cl hm cm nx HKe Hfree
                |C K l1 a e l2 c1 av ev hm cm nx HKe Hfull]; fields;
    rewrite ?list_sort_perm; rewrite ?fmap_app, ?fmap_cons; unfold nkey;
    cbn [elem]; rewrite ?key_after;
    rewrite ?elem_of_app, ?elem_of_cons, ?elem_of_nil; intros Hin.
  - left. tauto.
  - by left.
  - destruct Hin as [Hin|[->|[]]]; [by left|]. right. tauto.
  - destruct Hin as [Hin|[->|[]]]; [left; tauto|]. right. tauto.
Qed.

Lemma accessed_promotes now ov s e s' :
  accessed now ov s e s' → wf s →
  key_ e ∈ history_keys s → (k_ s ≤ q_size e + 1)%Z →
  key_ e ∈ hot_keys s'.
Proof.
  intros Hacc Hwf Hhist HK.
  assert (key_ e ∉ hot_keys s) as Hout.
  { intros Hhot. by apply (wf_hot_not_history s (key_ e)). }
  revert Hout HK. unfold hot_keys.
  destruct Hacc as [C K hl l1 a e l2 hm cm nx
                   |C K l1 a e l2 cl hm cm nx Hlt
                   |C K l1 a e l2 cl hm cm nx HKe Hfree
                   |C K l1 a e l2 c1 av ev hm cm nx HKe Hfull]; fields;
    rewrite ?list_sort_perm; rewrite ?fmap_app, ?fmap_cons; unfold nkey;
    cbn [elem]; rewrite ?key_after;
    rewrite ?elem_of_app, ?elem_of_cons; intros Hout HK.
  - exfalso. apply Hout. tauto.
  - lia.
  - tauto.
  - tauto.
Qed.

Lemma promotion_step now o C K k s s' c :
  (1 ≤ C)%Z → (1 ≤ K)%Z → inv C K s → window_counts K k s c →
  exec now o s = Some s' →
  ((k ∉ hot_keys s) ∧ k ∈ hot_keys s') ↔
  (key_of o = Some k ∧ k ∈ history_keys s ∧ (K ≤ Z.of_nat c + 1)%Z).
Proof.
  intros HC HK Hinv [Habsent Hwin] Hexec.
  pose proof (inv_wf _ _ _ Hinv) as Hwf.
  pose proof (inv_k _ _ _ Hinv) as HKs.
  destruct (exec_cases now o C K s s' HC HK Hinv Hexec)
    as [(ov & e0 & Hko & Hacc)|[(k0 & -> & Hk0 & ->)|[(k0 & v & -> & Hk0 & Hins)
       |[-> ->]]]].
  - pose proof (accessed_entry_before _ _ _ _ _ Hacc) as He0.
    split.
    + intros [Hout Hin].
      destruct (accessed_hot_keys _ _ _ _ _ _ Hacc Hin)
        as [?|(-> & Hhist & Hq)]; [done|].
      split; [done|]. split; [done|].
      rewrite (Hwin e0 He0 eq_refl) in Hq. lia.
    + intros (Hk & Hhist & Hc). rewrite Hko in Hk. injection Hk as <-.
      split; [intros Hhot; by apply (wf_hot_not_history s (key_ e0))|].
      apply (accessed_promotes _ _ _ _ _ Hacc Hwf Hhist).
      rewrite (Hwin e0 He0 eq_refl). lia.
  - split; [by intros [? ?]|]. cbn. intros ([= ->] & Hhist & _).
    exfalso. apply Hk0. rewrite <- keys_app. apply elem_of_app. by right.
  - split.
    + intros [Hout Hin]. exfalso. apply Hout. by destruct Hins.
    + cbn. intros ([= ->] & Hhist & _).
      exfalso. apply Hk0. rewrite <- keys_app. apply elem_of_app. by right.
  - split; [|by intros [? _]]. intros [_ Hin]. by apply elem_of_nil in Hin.
Qed.
End promotion_law.

(** The access of a key moves it into a full Hot Region only by the
    demotion path. *)
Lemma accessed_enters_full_hot now ov C K s e s' k :
  inv C K s → accessed now ov s e s' →
  Z.of_nat (length (cacheList_ s)) = C →
  k ∉ hot_keys s → k ∈ hot_keys s' →
  ∃ c1 v l1 p l2 e',
    cacheList_ s = c1 ++ [v] ∧ historyList_ s = l1 ++ p :: l2 ∧
    nkey p = k ∧ key_ e' = k ∧
    Forall (λ n, (q_front (elem v) ≤ q_front (elem n))%Z) (cacheList_ s) ∧
    history_entries s' = elem v :: (elem <$> (l1 ++ l2)) ∧
    hot_entries s' ≡ₚ e' :: (elem <$> c1) ∧
    nkey v ∉ hot_keys s'.
Proof.
  intros Hinv Hacc Hfull Hout Hin.
  pose proof (inv_capacity _ _ _ Hinv) as HCs.
  pose proof (inv_sorted _ _ _ Hinv) as Hsorted.
  pose proof (accessed_wf _ _ _ _ _ Hacc (inv_wf _ _ _ Hinv)) as Hwf'.
  destruct Hacc as [C' K' hl l1 a e l2 hm cm nx
                   |C' K' l1 a e l2 cl hm cm nx Hlt
                   |C' K' l1 a e l2 cl hm cm nx HKe Hfree
                   |C' K' l1 a e l2 c1 av ev hm cm nx HKe _];
    unfold hot_keys, hot_entries, history_entries in *;
    revert HCs Hfull Hout Hin Hsorted; fields; intros -> Hfull Hout Hin Hsorted.
  - exfalso. apply Hout. rewrite list_sort_perm in Hin.
    rewrite !fmap_app, !fmap_cons in *. unfold nkey in *. cbn [elem] in *.
    by rewrite key_after in Hin.
  - done.
  - lia.
  - rewrite list_sort_perm, fmap_app in Hin.
    apply elem_of_app in Hin as [Hin|Hin].
    { exfalso. apply Hout. rewrite fmap_app. apply elem_of_app. by left. }
    apply list_elem_of_singleton in Hin. unfold nkey in Hin. cbn in Hin.
    exists c1, (mkNode av ev), l1, (mkNode a e), l2,
      (write ov (touched K' now e)).
    split; [done|]. split; [done|]. unfold nkey. cbn [elem].
    split; [by rewrite key_after in Hin|]. split; [done|].
    split; [by apply (sorted_last_stalest c1 (mkNode av ev))|].
    split; [done|]. split.
    + rewrite list_sort_perm, fmap_app. cbn. by rewrite Permutation_app_comm.
    + intros Hv. apply (wf_hot_not_history _ _ Hwf' Hv).
      unfold history_keys. fields. rewrite fmap_cons. by left.
Qed.

(** An operation that moves a key into a full Hot Region. *)
Lemma enters_full_hot C K s now o s' k :
  (1 ≤ C)%Z → (1 ≤ K)%Z → inv C K s →
  Z.of_nat (length (cacheList_ s)) = C →
  exec now o s = Some s' → k ∉ hot_keys s → k ∈ hot_keys s' →
  ∃ c1 v l1 p l2 e',
    cacheList_ s = c1 ++ [v] ∧ historyList_ s = l1 ++ p :: l2 ∧
    nkey p = k ∧ key_ e' = k ∧
    Forall (λ n, (q_front (elem v) ≤ q_front (elem n))%Z) (cacheList_ s) ∧
    history_entries s' = elem v :: (elem <$> (l1 ++ l2)) ∧
    hot_entries s' ≡ₚ e' :: (elem <$> c1) ∧
    nkey v ∉ hot_keys s'.
Proof.
  intros HC HK Hs Hfull Hexec Hout Hin.
  destruct (exec_cases now o C K s s' HC HK Hs Hexec)
    as [(ov & e & _ & Hacc)|[(k' & _ & _ & ->)|[(k' & v & _ & _ & Hins)
       |[_ ->]]]].
  - by apply (accessed_enters_full_hot now ov C K s e s' k).
  - done.
  - exfalso. apply Hout. by destruct Hins.
  - exfalso. by apply elem_of_nil in Hin.
Qed.

(** The access of a History entry whose window reaches K promotes it. *)
Lemma promoting_access C K s now o p :
  (1 ≤ C)%Z → (1 ≤ K)%Z → inv C K s →
  p ∈ historyList_ s → key_of o = Some (nkey p) →
  (K ≤ q_size (elem p) + 1)%Z →
  ∃ s', exec now o s = Some s' ∧ (nkey p ∉ hot_keys s) ∧ nkey p ∈ hot_keys s'.
Proof.
  intros HC HK Hinv Hp Ho Hq.
  destruct (exec_inv now o C K s HC HK Hinv) as (s' & Hexec & _).
  exists s'. split; [done|].
  pose proof (inv_wf _ _ _ Hinv) as Hwf.
  assert (nkey p ∈ history_keys s) as Hhist by (by apply list_elem_of_fmap_2).
  split; [intros Hhot; by apply (wf_hot_not_history s (nkey p))|].
  destruct (exec_cases now o C K s s' HC HK Hinv Hexec)
    as [(ov & e & Hko & Hacc)|[(k' & -> & Hk' & _)|[(k' & v & -> & Hk' & _)
       |[-> _]]]].
  - rewrite Ho in Hko. injection Hko as Hk.
    assert (elem p = e) as He.
    { apply (entry_unique s); [done| | |done].
      - apply elem_of_app. right. by apply list_elem_of_fmap_2.
      - by apply (accessed_entry_before now ov s e s'). }
    unfold nkey in *. rewrite He in *.
    apply (accessed_promotes now ov s e s' Hacc Hwf Hhist).
    by rewrite (inv_k _ _ _ Hinv).
  - exfalso. injection Ho as ->. apply Hk'. rewrite <- keys_app.
    apply elem_of_app. by right.
  - exfalso. injection Ho as ->. apply Hk'. rewrite <- keys_app.
    apply elem_of_app. by right.
  - done.
Qed.

(** ** Ordering of the Hot Region *)

(** The order of the cache list needs no assumption on the capacity, on K
    or on the shape of the maps: every path that changes the front of a
    window or the membership of the cache list ends in [sort]. *)
Section ordering.
Implicit Types (l : list node) (n : node) (a : nat) (e : CacheEntry).

Lemma update_at_Some it f s s' :
  update_at it f s = Some s' →
  ∃ a, it = node_at a ∧
       s' = mkCache (capacity_ s) (k_ s) (modify_node a f (historyList_ s))
              (modify_node a f (cacheList_ s)) (history_map_ s) (cache_map_ s)
              (next_ s).
Proof.
  destruct it as [| |a]; try done. unfold update_at.
  destruct (find_node a _); [|done]. cbn. intros [= <-]. by exists a.
Qed.

Lemma deref_Some it s e :
  deref it s = Some e → ∃ n, n ∈ cacheList_ s ++ historyList_ s ∧ elem n = e.
Proof.
  destruct it as [| |a]; try done. unfold deref.
  destruct (find_node a _) as [n|] eqn:Hfind; [|done]. cbn. intros [= <-].
  apply find_node_Some in Hfind as [Hin _]. by exists n.
Qed.

Lemma nonempty_modify a f l :
  (∀ e, access_time_ e ≠ [] → access_time_ (f e) ≠ []) →
  Forall (λ n, access_time_ (elem n) ≠ []) l →
  Forall (λ n, access_time_ (elem n) ≠ []) (modify_node a f l).
Proof.
  intros Hf Hall. apply Forall_modify; [done|].
  intros n Hin _. cbn. apply Hf. rewrite Forall_forall in Hall. by apply Hall.
Qed.

Lemma sorted_fmap (g : node → node) l :
  (∀ n, n ∈ l → q_front (elem (g n)) = q_front (elem n)) →
  Sorted newer_or_equal l → Sorted newer_or_equal (g <$> l).
Proof.
  intros Hg Hs. induction Hs as [|x l Hs IH Hhd]; cbn; [constructor|].
  constructor.
  - apply IH. intros n Hn. apply Hg. by right.
  - destruct Hhd as [|y l Hxy]; cbn; constructor.
    unfold newer_or_equal in *. rewrite !Hg; [done|by left|].
    right. by left.
Qed.

Lemma sorted_modify a f l :
  (∀ e, access_time_ e ≠ [] → q_front (f e) = q_front e) →
  Forall (λ n, access_time_ (elem n) ≠ []) l →
  Sorted newer_or_equal l → Sorted newer_or_equal (modify_node a f l).
Proof.
  intros Hf Hall. apply sorted_fmap. intros n Hin.
  destruct (Nat.eqb (addr n) a); [|done]. cbn. apply Hf.
  rewrite Forall_forall in Hall. by apply Hall.
Qed.

Lemma push_nonempty now e : access_time_ (q_push now e) ≠ [].
Proof. cbn. by destruct (access_time_ e). Qed.

Lemma push_front now e :
  access_time_ e ≠ [] → q_front (q_push now e) = q_front e.
Proof. unfold q_front. cbn. by destruct (access_time_ e). Qed.

Lemma pop_push_nonempty now e :
  access_time_ e ≠ [] → access_time_ (q_pop (q_push now e)) ≠ [].
Proof. cbn. destruct (access_time_ e) as [|t [|t' q]]; done. Qed.

Lemma modify_node_compose a f g l :
  modify_node a g (modify_node a f l) = modify_node a (g ∘ f) l.
Proof.
  unfold modify_node. rewrite <- list_fmap_compose.
  apply list_fmap_ext. intros i n _. cbn.
  destruct (Nat.eqb_spec (addr n) a) as [Heq|]; cbn.
  - by rewrite (proj2 (Nat.eqb_eq _ _) Heq).
  - by destruct (Nat.eqb_spec (addr n) a).
Qed.

Lemma erase_node_sub a l : erase_node a l ⊆ l.
Proof.
  intros n. unfold erase_node. rewrite !list_elem_of_In.
  by intros [? _]%List.filter_In.
Qed.

Lemma nonempty_sub l l' :
  l' ⊆ l →
  Forall (λ n, access_time_ (elem n) ≠ []) l →
  Forall (λ n, access_time_ (elem n) ≠ []) l'.
Proof. rewrite !Forall_forall. intros Hsub Hall n Hn. apply Hall, Hsub, Hn. Qed.

Lemma modify_ordered a f s :
  (∀ e, access_time_ e ≠ [] → access_time_ (f e) ≠ []) →
  (∀ e, access_time_ e ≠ [] → q_front (f e) = q_front e) →
  ordered s →
  ordered (mkCache (capacity_ s) (k_ s) (modify_node a f (historyList_ s))
             (modify_node a f (cacheList_ s)) (history_map_ s) (cache_map_ s)
             (next_ s)).
Proof.
  intros Hne Hfront [Hq Hs]. unfold ordered, queues_nonempty in *. fields.
  rewrite Forall_app in *. destruct Hq as [Hqc Hqh].
  split; [split; by apply nonempty_modify|]. by apply sorted_modify.
Qed.

Lemma getFromCacheList_ordered now k s it s' :
  getFromCacheList now k s = Some (it, s') → ordered s → ordered s'.
Proof.
  unfold getFromCacheList.
  destruct (cache_map_ s !! k) as [i|]; [|by intros [= <- <-]].
  destruct (update_at i (q_push now) s) as [s1|] eqn:H1; [|done]. bind_some.
  apply update_at_Some in H1 as (a & -> & ->).
  destruct (deref _ _) as [e|]; [|done]. bind_some.
  destruct (_ <? _)%Z.
  - destruct (update_at _ q_pop _) as [s2|] eqn:H2; [|done]. bind_some.
    apply update_at_Some in H2 as (a' & [= <-] & ->). fields.
    unfold sort_cacheList. fields. intros [= <- <-] [Hq _].
    split; [|apply list_sort_sorted]. unfold queues_nonempty in *. fields.
    rewrite list_sort_perm, !modify_node_compose.
    rewrite Forall_app in *. destruct Hq as [Hqc Hqh].
    split; apply nonempty_modify; try done;
      intros; by apply pop_push_nonempty.
  - intros [= <- <-]. apply modify_ordered.
    + intros. apply push_nonempty.
    + intros. by apply push_front.
Qed.

Lemma queues_nonempty_sub s s' :
  cacheList_ s' ⊆ cacheList_ s → historyList_ s' ⊆ historyList_ s →
  queues_nonempty s → queues_nonempty s'.
Proof.
  unfold queues_nonempty. rewrite !Forall_app. intros Hc Hh [Hqc Hqh].
  split; by eapply nonempty_sub.
Qed.

Lemma deref_nonempty it s e :
  queues_nonempty s → deref it s = Some e → access_time_ e ≠ [].
Proof.
  intros Hq (n & Hin & <-)%deref_Some.
  unfold queues_nonempty in Hq. rewrite Forall_forall in Hq. by apply Hq.
Qed.

Lemma historyList_erase_Some it s s' :
  historyList_erase it s = Some s' →
  cacheList_ s' = cacheList_ s ∧ historyList_ s' ⊆ historyList_ s.
Proof.
  destruct it as [| |a]; try done. unfold historyList_erase.
  destruct (find_node a _); [|done]. cbn. intros [= <-]. cbn.
  split; [done|]. apply erase_node_sub.
Qed.

Lemma cacheList_erase_Some it s s' :
  cacheList_erase it s = Some s' →
  historyList_ s' = historyList_ s ∧ cacheList_ s' ⊆ cacheList_ s.
Proof.
  destruct it as [| |a]; try done. unfold cacheList_erase.
  destruct (find_node a _); [|done]. cbn. intros [= <-]. cbn.
  split; [done|]. apply erase_node_sub.
Qed.

Lemma historyList_splice_front_Some it s s' :
  historyList_splice_front it s = Some s' →
  cacheList_ s' = cacheList_ s ∧ historyList_ s' ⊆ historyList_ s.
Proof.
  destruct it as [| |a]; try done. unfold historyList_splice_front.
  destruct (find_node a _) as [n|] eqn:Hfind; [|done]. cbn. intros [= <-].
  cbn. split; [done|]. apply find_node_Some in Hfind as [Hin _].
  intros n' [->|Hn']%elem_of_cons; [done|]. by apply (erase_node_sub a).
Qed.

Lemma finish_promotion_ordered k it s ret s' :
  finish_promotion k it s = Some (ret, s') → queues_nonempty s → ordered s'.
Proof.
  unfold finish_promotion. destruct (deref it s) as [e|]; [|done]. bind_some.
  destruct (historyList_erase _ _) as [s2|] eqn:Herase; [|done]. bind_some.
  apply historyList_erase_Some in Herase as [Hc Hh]. revert Hc Hh. fields.
  intros Hc Hh [= <- <-] Hq. unfold sort_cacheList. fields.
  split; [|apply list_sort_sorted].
  unfold queues_nonempty in *. fields. rewrite list_sort_perm, Hc.
  rewrite Forall_app in *. destruct Hq as [Hqc Hqh].
  split; [done|]. by eapply nonempty_sub.
Qed.

Lemma promote_ordered k it s ret s' :
  promote k it s = Some (ret, s') → queues_nonempty s → ordered s'.
Proof.
  unfold promote. intros Hp Hq.
  assert (∀ e, access_time_ e ≠ [] →
               queues_nonempty (cacheList_emplace_back e s)) as Hback.
  { intros e He. unfold queues_nonempty, cacheList_emplace_back in *. fields.
    rewrite !Forall_app, Forall_singleton in *. tauto. }
  destruct (_ <? _)%Z.
  - destruct (deref it s) as [e|] eqn:He; [|done]. revert Hp. bind_some.
    intros Hp. apply (finish_promotion_ordered _ _ _ _ _ Hp).
    apply Hback. by apply (deref_nonempty it s).
  - destruct (findVictimFromCache s) as [vict|]; [|done]. revert Hp.
    bind_some. destruct (deref it s) as [e|] eqn:He; [|done]. bind_some.
    destruct (deref vict _) as [v|] eqn:Hv; [|done]. bind_some.
    destruct (cacheList_erase _ _) as [s7|] eqn:Herase; [|done]. bind_some.
    intros Hp. apply (finish_promotion_ordered _ _ _ _ _ Hp).
    apply cacheList_erase_Some in Herase as [Hh Hc].
    pose proof (Hback e (deref_nonempty it s e Hq He)) as Hq3.
    pose proof (deref_nonempty _ _ _ Hq3 Hv) as Hvne.
    revert Hh Hc. unfold historyList_emplace_front. fields. intros Hh Hc.
    unfold queues_nonempty, cacheList_emplace_back in *. revert Hq3. fields.
    rewrite Hh. intros [Hqc Hqh]%Forall_app.
    apply Forall_app. split; [by eapply nonempty_sub|]. by apply Forall_cons.
Qed.

Lemma getFromHistoryList_ordered now k s it s' :
  getFromHistoryList now k s = Some (it, s') → ordered s → ordered s'.
Proof.
  unfold getFromHistoryList.
  destruct (history_map_ s !! k) as [i|]; [|by intros [= <- <-]].
  destruct (update_at i (q_push now) s) as [s1|] eqn:H1; [|done]. bind_some.
  apply update_at_Some in H1 as (a & -> & ->).
  destruct (deref _ _) as [e|]; [|done]. bind_some.
  intros Hres Hord.
  pose proof (modify_ordered a (q_push now) s
                (λ e _, push_nonempty now e) (push_front now) Hord) as Hord1.
  destruct (_ <=? _)%Z.
  - destruct (_ <? _)%Z.
    + destruct (update_at _ q_pop _) as [s2|] eqn:H2; [|done]. revert Hres.
      bind_some. apply update_at_Some in H2 as (a' & [= <-] & ->). fields.
      intros Hres. apply (promote_ordered _ _ _ _ _ Hres).
      destruct Hord as [Hq _]. unfold queues_nonempty in *. fields.
      rewrite !modify_node_compose.
      rewrite Forall_app in *. destruct Hq as [Hqc Hqh].
      split; apply nonempty_modify; try done;
        intros; by apply pop_push_nonempty.
    + revert Hres. bind_some. intros Hres.
      apply (promote_ordered _ _ _ _ _ Hres). apply Hord1.
  - destruct (historyList_splice_front _ _) as [s2|] eqn:Hsplice; [|done].
    revert Hres. bind_some. intros [= <- <-].
    apply historyList_splice_front_Some in Hsplice as [Hc Hh].
    destruct Hord1 as [Hq1 Hs1]. split.
    + eapply queues_nonempty_sub; [|exact Hh|exact Hq1]. by rewrite Hc.
    + by rewrite Hc.
Qed.

Lemma write_ordered it v s s' :
  update_at it (set_value v) s = Some s' → ordered s → ordered s'.
Proof.
  intros (a & -> & ->)%update_at_Some. by apply modify_ordered.
Qed.

Lemma insert_new_ordered now k v s s' :
  insert_new now k v s = Some s' → ordered s → ordered s'.
Proof.
  unfold insert_new.
  destruct (update_at _ _ _) as [s2|] eqn:Hupd; [|done]. bind_some.
  apply update_at_Some in Hupd as (a & Ha & ->). revert Ha.
  unfold historyList_emplace_front. fields. cbn [list_begin addr].
  intros [= <-] [= <-] [Hq Hs]. unfold ordered, queues_nonempty in *. fields.
  rewrite Forall_app in *. destruct Hq as [Hqc Hqh]. split; [split|].
  - apply nonempty_modify; [|done]. intros. apply push_nonempty.
  - cbn [modify_node fmap list_fmap addr elem]. rewrite Nat.eqb_refl.
    apply Forall_cons. split; [done|].
    apply (nonempty_modify (next_ s)); [|done]. intros. apply push_nonempty.
  - apply sorted_modify; [|done|done]. intros. by apply push_front.
Qed.

Lemma get_ordered now k s x s' :
  get now k s = Some (x, s') → ordered s → ordered s'.
Proof.
  unfold get. intros Hget Hord.
  destruct (getFromCacheList now k s) as [[it s1]|] eqn:Hc; [|done].
  apply getFromCacheList_ordered in Hc; [|done]. revert Hget. bind_some.
  destruct (negb _).
  - destruct (deref it s1); [|done]. bind_some. by intros [= _ <-].
  - destruct (getFromHistoryList now k s1) as [[it' s2]|] eqn:Hh; [|done].
    apply getFromHistoryList_ordered in Hh; [|done]. bind_some.
    destruct (negb _).
    + destruct (deref it' s2); [|done]. bind_some. by intros [= _ <-].
    + by intros [= _ <-].
Qed.

Lemma put_ordered now k v s s' :
  put now k v s = Some s' → ordered s → ordered s'.
Proof.
  unfold put. intros Hput Hord.
  destruct (getFromCacheList now k s) as [[it s1]|] eqn:Hc; [|done].
  apply getFromCacheList_ordered in Hc; [|done]. revert Hput. bind_some.
  destruct (negb _).
  { intros Hw. by apply (write_ordered _ _ _ _ Hw). }
  destruct (getFromHistoryList now k s1) as [[it' s2]|] eqn:Hh; [|done].
  apply getFromHistoryList_ordered in Hh; [|done]. bind_some.
  destruct (negb _).
  { intros Hw. by apply (write_ordered _ _ _ _ Hw). }
  destruct (_ <? _)%Z.
  { intros Hi. by apply (insert_new_ordered _ _ _ _ _ Hi). }
  destruct (findVictimFromHistory s2) as [vict|]; [|done]. bind_some.
  destruct (deref vict s2) as [ev|]; [|done]. bind_some.
  destruct (historyList_erase _ _) as [s4|] eqn:Herase; [|done]. bind_some.
  intros Hi. apply (insert_new_ordered _ _ _ _ _ Hi).
  apply historyList_erase_Some in Herase as [Hcl Hhl]. revert Hcl Hhl.
  fields. intros Hcl Hhl. destruct Hh as [Hq Hs]. split.
  - eapply queues_nonempty_sub; [|exact Hhl|exact Hq]. by rewrite Hcl.
  - by rewrite Hcl.
Qed.

Lemma reachable_ordered C K s : reachable C K s → ordered s.
Proof.
  induction 1 as [|s now o s' _ IH Hexec].
  - split; constructor.
  - destruct o as [k|k v|]; cbn [exec] in Hexec.
    + destruct (get now k s) as [[x s1]|] eqn:Hget; [|done].
      cbn in Hexec. injection Hexec as <-. by apply (get_ordered now k s x).
    + by apply (put_ordered now k v s).
    + injection Hexec as <-. split; constructor.
Qed.

(** No entry of a reachable state has an empty queue: [front()] is
    defined wherever [compareByAccessTime] calls it. *)
Lemma reachable_queues_nonempty C K s :
  reachable C K s → queues_nonempty s.
Proof. by intros [? _]%reachable_ordered. Qed.
End ordering.

(** ** Node addresses

    Whatever the capacity and K, the nodes of a reachable state have
    pairwise different addresses: an iterator of the model denotes one node,
    as a C++ list iterator does. *)

Section allocation.
Implicit Types (l : list node) (n : node) (a : nat) (e : CacheEntry).

Lemma erase_node_submseteq a l : erase_node a l ⊆+ l.
Proof.
  induction l as [|n l IH]; cbn; [done|].
  destruct (negb _); [by apply submseteq_skip|by apply submseteq_cons].
Qed.

Lemma erase_node_addrs a l : a ∉ addrs (erase_node a l).
Proof.
  intros (n & -> & Hn)%list_elem_of_fmap. unfold erase_node in Hn.
  apply list_elem_of_In, List.filter_In in Hn as [_ Hne].
  by rewrite Nat.eqb_refl in Hne.
Qed.

Lemma allocated_lists s s' :
  cacheList_ s' ++ historyList_ s' ⊆+ cacheList_ s ++ historyList_ s →
  next_ s ≤ next_ s' → allocated s → allocated s'.
Proof.
  intros Hsub Hnext [Ha Hn]. split.
  - by eapply fmap_NoDup_sub.
  - rewrite Forall_forall in *. intros n Hin.
    specialize (Hn n (elem_of_submseteq _ _ _ Hin Hsub)). lia.
Qed.

Lemma allocated_modify a f s :
  allocated s →
  allocated (mkCache (capacity_ s) (k_ s) (modify_node a f (historyList_ s))
               (modify_node a f (cacheList_ s)) (history_map_ s)
               (cache_map_ s) (next_ s)).
Proof.
  intros [Ha Hn]. unfold allocated. fields. split.
  - unfold addrs in *. rewrite fmap_app in *. by rewrite !(addrs_modify a f).
  - rewrite Forall_app in *. destruct Hn as [Hn1 Hn2].
    split; apply Forall_modify; try done.
    + intros n Hin <-. rewrite Forall_forall in Hn1. cbn. by apply Hn1.
    + intros n Hin <-. rewrite Forall_forall in Hn2. cbn. by apply Hn2.
Qed.

Lemma allocated_update it f s s' :
  update_at it f s = Some s' → allocated s → allocated s'.
Proof. intros (a & -> & ->)%update_at_Some. apply allocated_modify. Qed.

Lemma allocated_emplace_back e s :
  allocated s → allocated (cacheList_emplace_back e s).
Proof.
  intros [Ha Hn]. unfold allocated, cacheList_emplace_back. fields. split.
  - eapply (fmap_NoDup_fresh addr (mkNode (next_ s) e));
      [|by apply fresh_addr|done].
    solve_Permutation.
  - apply Forall_app in Hn as [Hn1 Hn2].
    rewrite !Forall_app, Forall_singleton. cbn.
    split; [split; [|lia]|]; (eapply Forall_impl; [eassumption|]);
      cbn; intros; lia.
Qed.

Lemma allocated_emplace_front e s :
  allocated s → allocated (historyList_emplace_front e s).
Proof.
  intros [Ha Hn]. unfold allocated, historyList_emplace_front. fields. split.
  - eapply (fmap_NoDup_fresh addr (mkNode (next_ s) e));
      [|by apply fresh_addr|done].
    solve_Permutation.
  - rewrite <- Permutation_middle, Forall_cons. cbn.
    split; [lia|]. eapply Forall_impl; [exact Hn|]. cbn. intros; lia.
Qed.

Lemma allocated_erase_history it s s' :
  historyList_erase it s = Some s' → allocated s → allocated s'.
Proof.
  destruct it as [| |a]; try done. unfold historyList_erase.
  destruct (find_node a _); [|done]. cbn. intros [= <-].
  apply allocated_lists; [|done]. cbn.
  apply submseteq_app; [done|apply erase_node_submseteq].
Qed.

Lemma allocated_erase_cache it s s' :
  cacheList_erase it s = Some s' → allocated s → allocated s'.
Proof.
  destruct it as [| |a]; try done. unfold cacheList_erase.
  destruct (find_node a _); [|done]. cbn. intros [= <-].
  apply allocated_lists; [|done]. cbn.
  apply submseteq_app; [apply erase_node_submseteq|done].
Qed.

Lemma allocated_splice it s s' :
  historyList_splice_front it s = Some s' → allocated s → allocated s'.
Proof.
  destruct it as [| |a]; try done. unfold historyList_splice_front.
  destruct (find_node a _) as [n|] eqn:Hfind; [|done]. cbn. intros [= <-].
  apply find_node_Some in Hfind as [Hin <-]. intros [Ha Hn].
  unfold allocated. fields. split.
  - eapply (fmap_NoDup_fresh addr n _ (cacheList_ s ++ erase_node (addr n)
                                         (historyList_ s)));
      [solve_Permutation| |].
    + unfold addrs in *. rewrite fmap_app in *.
      apply not_elem_of_app. split; [|apply erase_node_addrs].
      apply NoDup_app in Ha as (_ & Hdisj & _). intros Hc.
      apply (Hdisj _ Hc). by apply list_elem_of_fmap_2.
    + eapply fmap_NoDup_sub; [|exact Ha].
      apply submseteq_app; [done|apply erase_node_submseteq].
  - rewrite <- Permutation_middle, Forall_cons. rewrite Forall_forall in Hn.
    split; [apply Hn, elem_of_app; by right|].
    apply Forall_forall. intros n' Hn'. apply Hn.
    eapply elem_of_submseteq; [exact Hn'|].
    apply submseteq_app; [done|apply erase_node_submseteq].
Qed.

Lemma allocated_sort s : allocated s → allocated (sort_cacheList s).
Proof.
  apply allocated_lists; [|done]. cbn. by rewrite list_sort_perm.
Qed.

Lemma getFromCacheList_allocated now k s it s' :
  getFromCacheList now k s = Some (it, s') → allocated s → allocated s'.
Proof.
  unfold getFromCacheList.
  destruct (cache_map_ s !! k) as [i|]; [|by intros [= <- <-]].
  destruct (update_at i (q_push now) s) as [s1|] eqn:H1; [|done]. bind_some.
  destruct (deref _ _) as [e|]; [|done]. bind_some.
  intros Hres Hs. apply (allocated_update _ _ _ _ H1) in Hs.
  destruct (_ <? _)%Z; [|by injection Hres as <- <-].
  destruct (update_at _ q_pop _) as [s2|] eqn:H2; [|done]. revert Hres.
  bind_some. intros [= <- <-].
  apply (allocated_update _ _ _ _ H2), allocated_sort in Hs. exact Hs.
Qed.

Lemma finish_promotion_allocated k it s ret s' :
  finish_promotion k it s = Some (ret, s') → allocated s → allocated s'.
Proof.
  unfold finish_promotion. destruct (deref it s) as [e|]; [|done]. bind_some.
  destruct (historyList_erase _ _) as [s2|] eqn:Herase; [|done]. bind_some.
  intros [= <- <-] Hs.
  apply (allocated_erase_history _ _ _ Herase) in Hs.
  by apply allocated_sort in Hs.
Qed.

Lemma promote_allocated k it s ret s' :
  promote k it s = Some (ret, s') → allocated s → allocated s'.
Proof.
  unfold promote. intros Hp Hs. destruct (_ <? _)%Z.
  - destruct (deref it s) as [e|]; [|done]. revert Hp. bind_some.
    intros Hp. apply (finish_promotion_allocated _ _ _ _ _ Hp).
    by apply allocated_emplace_back.
  - destruct (findVictimFromCache s) as [vict|]; [|done]. revert Hp.
    bind_some. destruct (deref it s) as [e|]; [|done]. bind_some.
    destruct (deref vict _) as [v|]; [|done]. bind_some.
    destruct (cacheList_erase _ _) as [s7|] eqn:Herase; [|done]. bind_some.
    intros Hp. apply (finish_promotion_allocated _ _ _ _ _ Hp).
    apply (allocated_erase_cache _ _ _ Herase).
    exact (allocated_emplace_front v _ (allocated_emplace_back e _ Hs)).
Qed.

Lemma getFromHistoryList_allocated now k s it s' :
  getFromHistoryList now k s = Some (it, s') → allocated s → allocated s'.
Proof.
  unfold getFromHistoryList.
  destruct (history_map_ s !! k) as [i|]; [|by intros [= <- <-]].
  destruct (update_at i (q_push now) s) as [s1|] eqn:H1; [|done]. bind_some.
  destruct (deref _ _) as [e|]; [|done]. bind_some.
  intros Hres Hs. apply (allocated_update _ _ _ _ H1) in Hs.
  destruct (_ <=? _)%Z.
  - destruct (_ <? _)%Z.
    + destruct (update_at _ q_pop _) as [s2|] eqn:H2; [|done]. revert Hres.
      bind_some. intros Hres. apply (promote_allocated _ _ _ _ _ Hres).
      by apply (allocated_update _ _ _ _ H2).
    + revert Hres. bind_some. intros Hres.
      by apply (promote_allocated _ _ _ _ _ Hres).
  - destruct (historyList_splice_front _ _) as [s2|] eqn:Hsplice; [|done].
    revert Hres. bind_some. intros [= <- <-].
    by apply (allocated_splice _ _ _ Hsplice).
Qed.

Lemma insert_new_allocated now k v s s' :
  insert_new now k v s = Some s' → allocated s → allocated s'.
Proof.
  unfold insert_new.
  destruct (update_at _ _ _) as [s2|] eqn:Hupd; [|done]. bind_some.
  intros [= <-] Hs.
  apply (allocated_emplace_front (mkEntry k v [])) in Hs.
  by apply (allocated_update _ _ _ _ Hupd) in Hs.
Qed.

Lemma exec_allocated now o s s' :
  exec now o s = Some s' → allocated s → allocated s'.
Proof.
  destruct o as [k|k v|]; cbn [exec].
  - unfold get.
    destruct (getFromCacheList now k s) as [[it s1]|] eqn:Hc; [|done].
    bind_some. intros Hres Hs.
    apply (getFromCacheList_allocated _ _ _ _ _ Hc) in Hs.
    destruct (negb _).
    { destruct (deref it s1); [|done]. by injection Hres as <-. }
    destruct (getFromHistoryList now k s1) as [[it' s2]|] eqn:Hh; [|done].
    revert Hres. bind_some.
    apply (getFromHistoryList_allocated _ _ _ _ _ Hh) in Hs.
    destruct (negb _).
    + destruct (deref it' s2); [|done]. bind_some. by intros [= <-].
    + by intros [= <-].
  - unfold put.
    destruct (getFromCacheList now k s) as [[it s1]|] eqn:Hc; [|done].
    bind_some. intros Hres Hs.
    apply (getFromCacheList_allocated _ _ _ _ _ Hc) in Hs.
    destruct (negb _); [by apply (allocated_update _ _ _ _ Hres)|].
    destruct (getFromHistoryList now k s1) as [[it' s2]|] eqn:Hh; [|done].
    revert Hres. bind_some.
    apply (getFromHistoryList_allocated _ _ _ _ _ Hh) in Hs.
    destruct (negb _); [intros Hres; by apply (allocated_update _ _ _ _ Hres)|].
    destruct (_ <? _)%Z.
    { intros Hres. by apply (insert_new_allocated _ _ _ _ _ Hres). }
    destruct (findVictimFromHistory s2) as [vict|]; [|done]. bind_some.
    destruct (deref vict s2) as [ev|]; [|done]. bind_some.
    destruct (historyList_erase _ _) as [s4|] eqn:Herase; [|done]. bind_some.
    intros Hres. apply (insert_new_allocated _ _ _ _ _ Hres).
    by apply (allocated_erase_history _ _ _ Herase).
  - intros [= <-] _. split; constructor.
Qed.

Lemma reachable_allocated C K s : reachable C K s → allocated s.
Proof.
  induction 1 as [|s now o s' _ IH Hexec]; [split; constructor|].
  by apply (exec_allocated now o s).
Qed.
End allocation.

(** ** The runs of [main] *)

Lemma run_cons_Some t o ops s s' :
  exec t o s = Some s' → run ((t, o) :: ops) s = run ops s'.
Proof. cbn. by intros ->. Qed.

(** Evaluation of one call on a state whose timestamps are variables:
    everything but the comparisons of [sort] computes; those are decided
    from the order of the clock readings. *)
Ltac compare_times :=
  repeat (match goal with
          | |- context [compareByAccessTime ?a ?b] =>
              first [ replace (compareByAccessTime a b) with true
                        by (symmetry; apply Z.ltb_lt; cbn; lia)
                    | replace (compareByAccessTime a b) with false
                        by (symmetry; apply Z.ltb_ge; cbn; lia) ]
          end; cbn [sort_insert elem]).

Ltac sort_goal :=
  repeat match goal with
  | |- context [list_sort ?l] =>
      let E := fresh "E" in
      eassert (list_sort l = _) as E;
      [ unfold list_sort; cbn [foldr sort_insert elem]; compare_times;
        reflexivity
      | rewrite E; clear E;
        with_strategy transparent [gmap_empty] (lazy -[list_sort]) ]
  end.

Ltac eval_call :=
  with_strategy transparent [gmap_empty] (lazy -[list_sort]);
  sort_goal; reflexivity.

Ltac eval_run := repeat (erewrite run_cons_Some; [|eval_call]); reflexivity.

Lemma main_first_reachable :
  reachable 3 2 (after main_first (LRUK_Cache_new 3 2)).
Proof.
  apply (run_reachable 3 2 main_first (LRUK_Cache_new 3 2)); [constructor|].
  vm_compute. reflexivity.
Qed.

Lemma history_full_reachable :
  reachable 3 2 (after main_fill (LRUK_Cache_new 3 2)).
Proof.
  apply (run_reachable 3 2 main_fill (LRUK_Cache_new 3 2)); [constructor|].
  vm_compute. reflexivity.
Qed.

Lemma main_warm_reachable :
  reachable 3 2 (after main_warm (LRUK_Cache_new 3 2)).
Proof.
  apply (run_reachable 3 2 main_warm (LRUK_Cache_new 3 2)); [constructor|].
  vm_compute. reflexivity.
Qed.

Lemma main_prefix_reachable :
  reachable 3 2 (after main_prefix (LRUK_Cache_new 3 2)).
Proof.
  apply (run_reachable 3 2 main_prefix (LRUK_Cache_new 3 2)); [constructor|].
  vm_compute. reflexivity.
Qed.

(** * The claims *)

(** ** C1: [put] on a key that is already cached *)

(** C1, as amended: for every key already present in either region,
    [put(key, v)] first performs the access that [get(key)] performs (it
    records the timestamp, trims the window to K, re-sorts the Hot Region
    or moves the History entry to the front or promotes it, demoting the
    Hot victim when the Hot Region is full) and then overwrites the value
    of that entry in place: the state after the [put] is the state after
    the [get] with the value of the key replaced. *)
Theorem put_is_get_then_overwrite C K s now k v :
  (1 ≤ C)%Z → (1 ≤ K)%Z → reachable C K s →
  k ∈ hot_keys s ++ history_keys s →
  ∃ x s1 s2,
    get now k s = Some (x, true, s1) ∧ put now k v s = Some s2 ∧
    hot_entries s2 = overwrite k v <$> hot_entries s1 ∧
    history_entries s2 = overwrite k v <$> history_entries s1 ∧
    cache_map_ s2 = cache_map_ s1 ∧ history_map_ s2 = history_map_ s1.
Proof.
  intros HC HK Hs Hk. apply (reachable_inv C K s HC HK) in Hs.
  assert (k ∈ keys (cacheList_ s ++ historyList_ s)) as Hk'.
  { unfold keys. by rewrite fmap_app. }
  destruct (present_paths now C K s k Hs HC HK Hk')
    as (e & s1 & it & Hke & Hacc & Hget & Hread & Hput).
  destruct (Hput v) as (s2 & _ & Hput2 & Hupd).
  exists (value_ e), s1, s2. split; [done|]. split; [done|].
  pose proof (accessed_wf _ _ _ _ _ Hacc (inv_wf _ _ _ Hs)) as Hwf1.
  apply update_at_Some in Hupd as (a & -> & ->).
  unfold hot_entries, history_entries. fields.
  unfold deref in Hread.
  destruct (find_node a _) as [n0|] eqn:Hfind; [|done].
  apply find_node_Some in Hfind as [Hin0 Ha0].
  cbn in Hread. injection Hread as Hread.
  assert (nkey n0 = k) as Hk0.
  { unfold nkey. by rewrite Hread, key_touched. }
  assert (∀ n, n ∈ cacheList_ s1 ++ historyList_ s1 →
               addr n = a ↔ nkey n = k) as Hiff.
  { intros n Hn. split; intros Heq.
    - rewrite (NoDup_fmap_eq addr _ n n0 (wf_addr _ Hwf1) Hn Hin0); [done|].
      congruence.
    - rewrite (NoDup_fmap_eq nkey _ n n0 (wf_keys _ Hwf1) Hn Hin0); [done|].
      congruence. }
  split; [|split; [|done]]; apply overwrite_modify;
    intros n Hn; apply Hiff, elem_of_app; tauto.
Qed.

Lemma put_is_get_then_overwrite_witness :
  let s := after main_first (LRUK_Cache_new 3 2) in
  (1 ≤ 3)%Z ∧ (1 ≤ 2)%Z ∧ reachable 3 2 s ∧
  1%Z ∈ hot_keys s ++ history_keys s ∧
  ∃ x s1 s2,
    get 2 1 s = Some (x, true, s1) ∧ put 2 1 "B" s = Some s2 ∧
    hot_entries s2 = overwrite 1 "B" <$> hot_entries s1 ∧
    history_entries s2 = overwrite 1 "B" <$> history_entries s1 ∧
    cache_map_ s2 = cache_map_ s1 ∧ history_map_ s2 = history_map_ s1.
Proof.
  assert (1%Z ∈ hot_keys (after main_first (LRUK_Cache_new 3 2))
                ++ history_keys (after main_first (LRUK_Cache_new 3 2)))
    as Hin by compute_done.
  cbv zeta. split; [lia|]. split; [lia|].
  split; [exact main_first_reachable|]. split; [exact Hin|].
  apply (put_is_get_then_overwrite 3 2);
    [lia|lia|exact main_first_reachable|exact Hin].
Defined.

(** C1, as stated, fails: with C = 3 and K = 2, after [put(1,"A")] the call
    [put(1,"B")] on the cached key 1 records the timestamp of the call and
    promotes the key into the Hot Region; it does more than overwrite the
    value. *)
Lemma put_overwrite_counterexample :
  ¬ (∀ C K s now k v s',
       reachable C K s → k ∈ hot_keys s ++ history_keys s →
       put now k v s = Some s' →
       hot_entries s' = overwrite k v <$> hot_entries s ∧
       history_entries s' = overwrite k v <$> history_entries s).
Proof.
  intros Hclaim.
  destruct (Hclaim 3%Z 2%Z (after main_first (LRUK_Cache_new 3 2))
              2%Z 1%Z "B"
              (mkCache 3 2 [] [mkNode 1 (mkEntry 1 "B" [1; 2]%Z)] ∅
                 {[1%Z := node_at 1]} 2)) as [Hhot _].
  - exact main_first_reachable.
  - compute_done.
  - vm_compute. reflexivity.
  - vm_compute in Hhot. discriminate.
Qed.

(** ** C2: window lengths *)

(** C2, as amended: in every state reachable by get/put/clear from a cache
    constructed with C ≥ 1 and K ≥ 1, every Hot Region entry has a timestamp
    queue of length exactly K and every History Region entry has one of
    length between 1 and K inclusive (length K for entries demoted from the
    Hot Region). *)
Theorem window_lengths C K s :
  (1 ≤ C)%Z → (1 ≤ K)%Z → reachable C K s →
  Forall (λ e, q_size e = K) (hot_entries s) ∧
  Forall (λ e, (1 ≤ q_size e ≤ K)%Z) (history_entries s).
Proof.
  intros HC HK Hs. apply (reachable_inv C K s HC HK) in Hs.
  destruct Hs as [_ _ _ _ _ Hcq Hhq _].
  split; by apply Forall_elem.
Qed.

Lemma window_lengths_witness :
  (1 ≤ 3)%Z ∧ (1 ≤ 2)%Z ∧
  reachable 3 2 (after main_prefix (LRUK_Cache_new 3 2)) ∧
  let s := after main_prefix (LRUK_Cache_new 3 2) in
  Forall (λ e, q_size e = 2%Z) (hot_entries s) ∧
  Forall (λ e, (1 ≤ q_size e ≤ 2)%Z) (history_entries s).
Proof.
  split; [lia|]. split; [lia|]. split; [exact main_prefix_reachable|].
  apply (window_lengths 3 2); [lia|lia|]. exact main_prefix_reachable.
Defined.

(** C2, as stated, fails: after the calls of [main] up to [put(5,"E1")]
    (C = 3, K = 2) key 2, demoted from the Hot Region, is in the History
    Region with a queue of K = 2 readings, more than K - 1. *)
Lemma history_window_counterexample :
  ¬ (∀ C K s, reachable C K s →
       Forall (λ e, q_size e = K) (hot_entries s) ∧
       Forall (λ e, (1 ≤ q_size e ≤ K - 1)%Z) (history_entries s)).
Proof.
  intros Hclaim.
  destruct (Hclaim 3%Z 2%Z _ main_prefix_reachable) as [_ Hhist].
  assert (mkEntry 2 "B" [2; 5]%Z
          ∈ history_entries (after main_prefix (LRUK_Cache_new 3 2))) as Hin.
  { vm_compute. by left. }
  rewrite Forall_forall in Hhist. specialize (Hhist _ Hin).
  vm_compute in Hhist. destruct Hhist as [_ Hle]. by apply Hle.
Qed.

(** ** C3: the promotion law *)

(** C3, as amended: along every run from an empty cache built with C ≥ 1
    and K ≥ 1, with [c] the cumulative access count of key [k] since its
    creation: a key in the Hot Region has a count of at least K; an
    operation moves the key into the Hot Region exactly when it is a get or
    put of this key, made while the key is in the History Region, that
    brings the count to K or beyond; for K ≥ 2 the access that brings the
    count to K does move the key into the Hot Region.  (Nothing bounds how
    often the key enters during one life: a key demoted to the History
    Region has a count of at least K and enters again at its next access.) *)
Theorem promotion_law C K k ops s c p :
  (1 ≤ C)%Z → (1 ≤ K)%Z →
  track k ops (LRUK_Cache_new C K) (0, 0) = Some (s, (c, p)) →
  (k ∈ hot_keys s → (K ≤ Z.of_nat c)%Z) ∧
  (∀ now o s', exec now o s = Some s' →
     ((k ∉ hot_keys s) ∧ k ∈ hot_keys s') ↔
     (key_of o = Some k ∧ k ∈ history_keys s ∧ (K ≤ Z.of_nat c + 1)%Z)) ∧
  (∀ now o s', (2 ≤ K)%Z → (Z.of_nat c + 1 = K)%Z → key_of o = Some k →
     exec now o s = Some s' → (k ∉ hot_keys s) ∧ k ∈ hot_keys s').
Proof.
  intros HC HK Htrack.
  destruct (track_inv C K k ops (LRUK_Cache_new C K) (0, 0) s (c, p) HC HK)
    as [Hinv Hwin];
    [apply inv_new; lia|apply window_counts_new|done|].
  cbn [fst] in Hwin.
  assert (k ∈ hot_keys s → (K ≤ Z.of_nat c)%Z) as Hhot.
  { intros (n & Hk & Hn)%list_elem_of_fmap.
    pose proof (inv_hot_queue _ _ _ Hinv) as Hq.
    rewrite Forall_forall in Hq. specialize (Hq n Hn).
    destruct Hwin as [_ Hwin]. rewrite (Hwin (elem n)) in Hq; [lia| |done].
    apply elem_of_app. left. by apply list_elem_of_fmap_2. }
  split; [done|]. split.
  - intros now o s' Hexec. by apply (promotion_step now o C K).
  - intros now o s' HK2 Hc Hko Hexec.
    apply (promotion_step now o C K k s s' c HC HK Hinv Hwin Hexec).
    split; [done|]. split; [|lia].
    destruct Hwin as [Habsent _].
    destruct (decide (k ∈ hot_keys s ++ history_keys s)) as [Hin|Hout].
    + apply elem_of_app in Hin as [Hin|Hin]; [|done].
      specialize (Hhot Hin). lia.
    + specialize (Habsent Hout). lia.
Qed.

Lemma promotion_law_witness :
  (1 ≤ 3)%Z ∧ (1 ≤ 2)%Z ∧
  track 5 main_warm (LRUK_Cache_new 3 2) (0, 0)
  = Some (after main_warm (LRUK_Cache_new 3 2), (1, 0)) ∧
  let s := after main_warm (LRUK_Cache_new 3 2) in
  (5%Z ∈ hot_keys s → (2 ≤ Z.of_nat 1)%Z) ∧
  (∀ now o s', exec now o s = Some s' →
     ((5%Z ∉ hot_keys s) ∧ 5%Z ∈ hot_keys s') ↔
     (key_of o = Some 5%Z ∧ 5%Z ∈ history_keys s ∧ (2 ≤ Z.of_nat 1 + 1)%Z)) ∧
  (∀ now o s', (2 ≤ 2)%Z → (Z.of_nat 1 + 1 = 2)%Z → key_of o = Some 5%Z →
     exec now o s = Some s' → (5%Z ∉ hot_keys s) ∧ 5%Z ∈ hot_keys s').
Proof.
  assert (track 5 main_warm (LRUK_Cache_new 3 2) (0, 0)
          = Some (after main_warm (LRUK_Cache_new 3 2), (1, 0))) as Htrack
    by (vm_compute; reflexivity).
  split; [lia|]. split; [lia|]. split; [exact Htrack|].
  apply (promotion_law 3 2 5 main_warm _ 1 0); [lia|lia|exact Htrack].
Defined.

(** C3, as stated, fails in its last part: in the run of [main] up to
    [put(5,"E1")] followed by [get(2)] (C = 3, K = 2), key 2 enters the Hot
    Region at [get(2)], is demoted by [put(5,"E1")] and enters again at the
    second [get(2)], without having left the cache in between: two entries
    into the Hot Region in one life. *)
Lemma promotion_once_counterexample :
  ¬ (∀ C K k ops s c p,
       track k ops (LRUK_Cache_new C K) (0, 0) = Some (s, (c, p)) → p ≤ 1).
Proof.
  intros Hclaim.
  assert (track 2 (main_prefix ++ [(12, Get 2)]%Z) (LRUK_Cache_new 3 2) (0, 0)
          = Some (after (main_prefix ++ [(12, Get 2)]%Z) (LRUK_Cache_new 3 2),
                  (3, 2))) as Htrack
    by (vm_compute; reflexivity).
  apply Hclaim in Htrack. lia.
Qed.

(** ** C4: demotion from a full Hot Region *)

(** C4: in a cache built with C ≥ 1 and K ≥ 1, when the Hot Region holds C
    entries and a get or put accesses a History entry [p] whose window
    reaches K with this access (the accesses that promote), the
    operation promotes [p] and demotes exactly one Hot member: the last
    node [v] of the cache list, whose oldest retained timestamp is at most
    that of every Hot member; the other members stay, and [v]'s entry is
    put, unchanged (value and timestamp queue), at the front of the History
    Region, from which the promoted entry is removed. *)
Theorem hot_demotion C K s now o p :
  (1 ≤ C)%Z → (1 ≤ K)%Z → reachable C K s →
  Z.of_nat (length (cacheList_ s)) = C →
  p ∈ historyList_ s → key_of o = Some (nkey p) →
  (K ≤ q_size (elem p) + 1)%Z →
  ∃ s' c1 v l1 l2 e',
    exec now o s = Some s' ∧
    cacheList_ s = c1 ++ [v] ∧ historyList_ s = l1 ++ p :: l2 ∧
    key_ e' = nkey p ∧
    Forall (λ n, (q_front (elem v) ≤ q_front (elem n))%Z) (cacheList_ s) ∧
    history_entries s' = elem v :: (elem <$> (l1 ++ l2)) ∧
    hot_entries s' ≡ₚ e' :: (elem <$> c1) ∧
    nkey v ∉ hot_keys s'.
Proof.
  intros HC HK Hs Hfull Hp Ho Hq.
  apply (reachable_inv C K s HC HK) in Hs.
  destruct (promoting_access C K s now o p HC HK Hs Hp Ho Hq)
    as (s' & Hexec & Hout & Hin).
  destruct (enters_full_hot C K s now o s' (nkey p) HC HK Hs Hfull Hexec
              Hout Hin)
    as (c1 & v & l1 & p' & l2 & e' & Hcl & Hhl & Hkp & Hke & Hstale & Hhist
        & Hhot & Hv).
  assert (p' = p) as ->.
  { apply (NoDup_fmap_eq nkey (cacheList_ s ++ historyList_ s));
      [apply (wf_keys _ (inv_wf _ _ _ Hs))| | |done].
    - apply elem_of_app. right. rewrite Hhl. apply elem_of_app. right.
      by left.
    - apply elem_of_app. by right. }
  by exists s', c1, v, l1, l2, e'.
Qed.

Lemma hot_demotion_witness :
  let s := after main_warm (LRUK_Cache_new 3 2) in
  let p := mkNode 7 (mkEntry 5 "E" [8%Z]) in
  (1 ≤ 3)%Z ∧ (1 ≤ 2)%Z ∧ reachable 3 2 s ∧
  Z.of_nat (length (cacheList_ s)) = 3%Z ∧
  p ∈ historyList_ s ∧ key_of (Put 5 "E1") = Some (nkey p) ∧
  (2 ≤ q_size (elem p) + 1)%Z ∧
  ∃ s' c1 v l1 l2 e',
    exec 11 (Put 5 "E1") s = Some s' ∧
    cacheList_ s = c1 ++ [v] ∧ historyList_ s = l1 ++ p :: l2 ∧
    key_ e' = nkey p ∧
    Forall (λ n, (q_front (elem v) ≤ q_front (elem n))%Z) (cacheList_ s) ∧
    history_entries s' = elem v :: (elem <$> (l1 ++ l2)) ∧
    hot_entries s' ≡ₚ e' :: (elem <$> c1) ∧
    nkey v ∉ hot_keys s'.
Proof.
  assert (mkNode 7 (mkEntry 5 "E" [8%Z])
          ∈ historyList_ (after main_warm (LRUK_Cache_new 3 2))) as Hp.
  { vm_compute. right. right. left. }
  cbv zeta. split; [lia|]. split; [lia|].
  split; [exact main_warm_reachable|]. split; [reflexivity|].
  split; [exact Hp|]. split; [reflexivity|]. split; [vm_compute; discriminate|].
  apply (hot_demotion 3 2 _ 11 (Put 5 "E1") (mkNode 7 (mkEntry 5 "E" [8%Z])));
    [lia|lia|exact main_warm_reachable|reflexivity|exact Hp|reflexivity|].
  vm_compute. discriminate.
Defined.

(** ** C5: eviction from a full History Region *)




(** ** C6: the scenario of [main] *)

(** C6: from an empty cache with C = 3 and K = 2, at strictly increasing
    clock readings, the calls put(1,"A"), put(2,"B"), put(3,"C"),
    put(4,"D"), get(2), put(3,"C1"), get(4), put(5,"E"), put(6,"F"),
    put(7,"G") leave the Hot Region [4,3,2]; put(5,"E1") then makes it
    [5,4,3] and demotes key 2 to the front of the History Region, [2,7,6];
    the following get(7) and get(4) find "G" and "D". *)
Theorem main_scenario (t1 t2 t3 t4 t5 t6 t7 t8 t9 t10 t11 t12 t13 : Z) :
  (t1 < t2 < t3)%Z → (t3 < t4 < t5)%Z → (t5 < t6 < t7)%Z →
  (t7 < t8 < t9)%Z → (t9 < t10 < t11)%Z → (t11 < t12 < t13)%Z →
  ∃ s0 s s1 s2,
    run (scenario_warm t1 t2 t3 t4 t5 t6 t7 t8 t9 t10) (LRUK_Cache_new 3 2)
    = Some s0 ∧
    hot_keys s0 = [4; 3; 2]%Z ∧ history_keys s0 = [7; 6; 5]%Z ∧
    put t11 5 "E1" s0 = Some s ∧
    hot_keys s = [5; 4; 3]%Z ∧ history_keys s = [2; 7; 6]%Z ∧
    get t12 7 s = Some ("G", true, s1) ∧
    get t13 4 s1 = Some ("D", true, s2).
Proof.
  intros. eexists _, _, _, _.
  split; [unfold scenario_warm; eval_run|].
  split; [reflexivity|]. split; [reflexivity|].
  split; [eval_call|].
  split; [reflexivity|]. split; [reflexivity|].
  split; [eval_call|]. eval_call.
Qed.

Lemma main_scenario_witness :
  (1 < 2 < 3)%Z ∧ (3 < 4 < 5)%Z ∧ (5 < 6 < 7)%Z ∧ (7 < 8 < 9)%Z ∧
  (9 < 10 < 11)%Z ∧ (11 < 12 < 13)%Z ∧
  ∃ s0 s s1 s2,
    run main_warm (LRUK_Cache_new 3 2) = Some s0 ∧
    hot_keys s0 = [4; 3; 2]%Z ∧ history_keys s0 = [7; 6; 5]%Z ∧
    put 11 5 "E1" s0 = Some s ∧
    hot_keys s = [5; 4; 3]%Z ∧ history_keys s = [2; 7; 6]%Z ∧
    get 12 7 s = Some ("G", true, s1) ∧
    get 13 4 s1 = Some ("D", true, s2).
Proof.
  repeat (split; [lia|]).
  apply (main_scenario 1 2 3 4 5 6 7 8 9 10 11 12 13); lia.
Defined.

(** ** C7: region sizes and ownership *)

(** C7: in every state reachable by get/put/clear from a cache constructed
    with capacity C ≥ 1 and K ≥ 1, the History Region holds at most C
    entries, the Hot Region holds at most C entries, and no key is a member
    of both regions (neither of both lists nor of both index maps). *)
Theorem regions_bounded_and_disjoint C K s :
  (1 ≤ C)%Z → (1 ≤ K)%Z → reachable C K s →
  (Z.of_nat (length (historyList_ s)) ≤ C)%Z ∧
  (Z.of_nat (length (cacheList_ s)) ≤ C)%Z ∧
  ∀ k, ¬ (k ∈ hot_keys s ∧ k ∈ history_keys s) ∧
       ¬ (is_Some (cache_map_ s !! k) ∧ is_Some (history_map_ s !! k)).
Proof.
  intros HC HK Hs. apply (reachable_inv C K s HC HK) in Hs.
  destruct Hs as [[_ _ Hk Hcm Hhm] _ _ Hcs Hhs _ _ _].
  split; [done|]. split; [done|].
  unfold keys in Hk. rewrite fmap_app in Hk.
  apply NoDup_app in Hk as (_ & Hdisj & _).
  assert (∀ k, ¬ (k ∈ hot_keys s ∧ k ∈ history_keys s)) as Hlists.
  { intros k [Hhot Hhist]. by apply (Hdisj k). }
  intros k. split; [done|].
  intros [[it Hc] [it' Hh]]. apply (Hlists k). split.
  - apply Hcm in Hc as (n & Hin & <- & _). by apply list_elem_of_fmap_2.
  - apply Hhm in Hh as (n & Hin & <- & _). by apply list_elem_of_fmap_2.
Qed.

Lemma regions_bounded_and_disjoint_witness :
  (1 ≤ 3)%Z ∧ (1 ≤ 2)%Z ∧
  reachable 3 2 (after main_prefix (LRUK_Cache_new 3 2)) ∧
  let s := after main_prefix (LRUK_Cache_new 3 2) in
  (Z.of_nat (length (historyList_ s)) ≤ 3)%Z ∧
  (Z.of_nat (length (cacheList_ s)) ≤ 3)%Z ∧
  ∀ k, ¬ (k ∈ hot_keys s ∧ k ∈ history_keys s) ∧
       ¬ (is_Some (cache_map_ s !! k) ∧ is_Some (history_map_ s !! k)).
Proof.
  split; [lia|]. split; [lia|]. split; [exact main_prefix_reachable|].
  apply (regions_bounded_and_disjoint 3 2); [lia|lia|].
  exact main_prefix_reachable.
Defined.

(** ** C8: order of the Hot Region *)

(** C8: in every reachable state, whatever the capacity and K, the Hot
    Region read from front to back is in non-increasing recency of the
    oldest retained timestamp: of two consecutive entries [A] before [B],
    the front of [A]'s queue is at least as recent as the front of [B]'s. *)
Theorem hot_region_ordered C K s i A B :
  reachable C K s →
  hot_entries s !! i = Some A → hot_entries s !! S i = Some B →
  (q_front B ≤ q_front A)%Z.
Proof.
  intros [_ Hs]%reachable_ordered. unfold hot_entries.
  rewrite !list_lookup_fmap.
  destruct (cacheList_ s !! i) as [a|] eqn:Ha; [|done].
  destruct (cacheList_ s !! S i) as [b|] eqn:Hb; [|done].
  cbn. intros [= <-] [= <-].
  apply (sorted_consecutive newer_or_equal _ i a b Hs Ha Hb).
Qed.

Lemma hot_region_ordered_witness :
  let s := after main_prefix (LRUK_Cache_new 3 2) in
  reachable 3 2 s ∧
  hot_entries s !! 0 = Some (mkEntry 5 "E1" [8; 11]%Z) ∧
  hot_entries s !! 1 = Some (mkEntry 4 "D" [4; 7]%Z) ∧
  (q_front (mkEntry 4 "D" [4; 7]%Z) ≤ q_front (mkEntry 5 "E1" [8; 11]%Z))%Z.
Proof.
  cbv zeta. split; [exact main_prefix_reachable|].
  split; [vm_compute; reflexivity|]. split; [vm_compute; reflexivity|].
  apply (hot_region_ordered 3 2 (after main_prefix (LRUK_Cache_new 3 2)) 0);
    [exact main_prefix_reachable|vm_compute; reflexivity
    |vm_compute; reflexivity].
Defined.

(** ** C9: construction *)

(** C9, as amended: for every capacity and every k, also when capacity ≤ 0
    or k ≤ 0, construction succeeds: the constructor stores both arguments
    unchecked and yields an empty cache; no configuration error is raised. *)
Theorem construct_never_rejects C K :
  construct C K = constructed (mkCache C K [] [] ∅ ∅ 0).
Proof. reflexivity. Qed.

(** C9, as stated, fails: capacity 0 and k 0 are not rejected. *)
Lemma construct_counterexample : construct 0 0 ≠ rejected.
Proof. discriminate. Qed.

(** What the unchecked capacity leads to: the first [put] into a cache of
    capacity 0 takes [--historyList_.end()] of the empty history list. *)
Lemma put_capacity_zero now k v K : put now k v (LRUK_Cache_new 0 K) = None.
Proof. reflexivity. Qed.

(** ** C10: a demoted key is promoted by its next access *)

(** C10: in a reachable state of a cache built with C ≥ 1 and K ≥ 1 in
    which a key is in the History Region with a timestamp queue of length K
    (the state a demotion from the Hot Region leaves), one [get] of the key
    finds it, records the new timestamp, drops the oldest one and moves the
    entry into the Hot Region at once. *)
Theorem demoted_entry_repromoted C K s now e :
  (1 ≤ C)%Z → (1 ≤ K)%Z → reachable C K s →
  e ∈ history_entries s → q_size e = K →
  ∃ s',
    get now (key_ e) s = Some (value_ e, true, s') ∧
    mkEntry (key_ e) (value_ e) (tail (access_time_ e) ++ [now])
      ∈ hot_entries s' ∧
    key_ e ∉ history_keys s'.
Proof.
  intros HC HK Hs Hin Hq. apply (reachable_inv C K s HC HK) in Hs.
  destruct s as [C' K' hl cl hm cm nx].
  pose proof (inv_capacity _ _ _ Hs) as HC'.
  pose proof (inv_k _ _ _ Hs) as HK'. cbn in HC', HK'. subst C' K'.
  unfold history_entries in Hin. revert Hin. fields.
  intros ([a e'] & -> & (l1 & l2 & ->)%list_elem_of_split)%list_elem_of_fmap.
  cbn [elem] in *.
  destruct (history_path now _ _ _ _ _ _ _ _ _ _ Hs HC HK)
    as (it & s1 & Hacc & Hmiss & Hhit & Hit & Hread & _).
  exists s1. split.
  { unfold get. rewrite Hmiss. bind_some. cbn [iterator_eqb negb].
    rewrite Hhit. bind_some. rewrite Hit. cbn [negb].
    rewrite Hread. bind_some. by rewrite value_touched. }
  pose proof (accessed_wf _ _ _ _ _ Hacc (inv_wf _ _ _ Hs)) as Hwf1.
  assert (touched K now e'
          = mkEntry (key_ e') (value_ e') (tail (access_time_ e') ++ [now]))
    as Htouched.
  { rewrite touched_full by (rewrite to_size_t_pos; lia).
    unfold q_pop, q_push, q_size in *. cbn.
    destruct (access_time_ e'); [cbn in Hq; lia|done]. }
  assert (key_ e' ∈ hot_keys s1 →
          mkEntry (key_ e') (value_ e') (tail (access_time_ e') ++ [now])
            ∈ hot_entries s1 →
          mkEntry (key_ e') (value_ e') (tail (access_time_ e') ++ [now])
            ∈ hot_entries s1 ∧ key_ e' ∉ history_keys s1) as Hgoal.
  { intros Hk ?. split; [done|]. by apply wf_hot_not_history. }
  rewrite <- Htouched in *. clear Htouched.
  inversion Hacc as [C' K' hl l1' a' e0 l2' hm' cm' nx'
                    |C' K' l1' a' e0 l2' cl' hm' cm' nx' Hlt
                    |C' K' l1' a' e0 l2' cl' hm' cm' nx' HKe Hfree
                    |C' K' l1' a' e0 l2' c1 av ev hm' cm' nx' HKe Hfull];
    subst; cbn [write] in *.
  - exfalso.
    pose proof (wf_keys _ (inv_wf _ _ _ Hs)) as Hk. revert Hk. fields.
    unfold keys. rewrite fmap_app. intros (_ & Hdisj & _)%NoDup_app.
    apply (Hdisj (key_ e')).
    + rewrite fmap_app, fmap_cons. apply elem_of_app. right. by left.
    + rewrite fmap_app, fmap_cons. apply elem_of_app. right. by left.
  - lia.
  - apply Hgoal; unfold hot_keys, hot_entries; fields;
      rewrite list_sort_perm, fmap_app; apply elem_of_app; right;
      apply list_elem_of_singleton; [|done].
    unfold nkey. cbn. by rewrite key_touched.
  - apply Hgoal; unfold hot_keys, hot_entries; fields;
      rewrite list_sort_perm, fmap_app; apply elem_of_app; right;
      apply list_elem_of_singleton; [|done].
    unfold nkey. cbn. by rewrite key_touched.
Qed.

Lemma demoted_entry_repromoted_witness :
  let s := after main_prefix (LRUK_Cache_new 3 2) in
  let e := mkEntry 2 "B" [2; 5]%Z in
  (1 ≤ 3)%Z ∧ (1 ≤ 2)%Z ∧ reachable 3 2 s ∧
  e ∈ history_entries s ∧ q_size e = 2%Z ∧
  ∃ s',
    get 12 (key_ e) s = Some (value_ e, true, s') ∧
    mkEntry (key_ e) (value_ e) (tail (access_time_ e) ++ [12%Z])
      ∈ hot_entries s' ∧
    key_ e ∉ history_keys s'.
Proof.
  assert (mkEntry 2 "B" [2; 5]%Z
          ∈ history_entries (after main_prefix (LRUK_Cache_new 3 2))) as Hin
    by (vm_compute; left).
  cbv zeta. split; [lia|]. split; [lia|].
  split; [exact main_prefix_reachable|]. split; [exact Hin|].
  split; [reflexivity|].
  apply (demoted_entry_repromoted 3 2 _ 12 (mkEntry 2 "B" [2; 5]%Z));
    [lia|lia|exact main_prefix_reachable|exact Hin|reflexivity].
Defined.

(** * Further properties of the code *)

(** ** Reading and writing *)

Lemma exec_access now o C K s k :
  inv C K s → (1 ≤ C)%Z → (1 ≤ K)%Z → key_of o = Some k →
  k ∈ keys (cacheList_ s ++ historyList_ s) →
  ∃ e s', key_ e = k ∧ e ∈ hot_entries s ++ history_entries s ∧
          exec now o s = Some s' ∧ accessed now (written o) s e s'.
Proof.
  intros Hinv HC HK Ho Hk.
  destruct (present_paths now C K s k Hinv HC HK Hk)
    as (e & s1 & it & Hke & Hacc & Hget & _ & Hput).
  pose proof (accessed_entry_before _ _ _ _ _ Hacc) as He.
  destruct o as [k'|k' v|]; cbn in Ho; [| |done]; injection Ho as ->.
  - exists e, s1. cbn [exec written]. rewrite Hget. done.
  - destruct (Hput v) as (s2 & Hacc2 & Hput2 & _).
    exists e, s2. done.
Qed.

Lemma contents_nodes s :
  contents s = pair_of <$> (cacheList_ s ++ historyList_ s).
Proof.
  unfold contents, hot_entries, history_entries.
  rewrite <- fmap_app, <- list_fmap_compose. done.
Qed.

Lemma value_touched_write ov K now e :
  value_ (write ov (touched K now e)) = default (value_ e) ov.
Proof. destruct ov; cbn; [done|]. apply value_touched. Qed.

Lemma pair_of_node a e : pair_of (mkNode a e) = (key_ e, value_ e).
Proof. done. Qed.

Lemma accessed_contents now ov s e s' :
  accessed now ov s e s' →
  ∃ R, contents s ≡ₚ (key_ e, value_ e) :: R ∧
       contents s' ≡ₚ (key_ e, default (value_ e) ov) :: R.
Proof.
  intros Hacc. rewrite !contents_nodes.
  destruct Hacc; fields.
  - exists (pair_of <$> (l1 ++ l2 ++ hl)).
    rewrite list_sort_perm, !fmap_app, !fmap_cons, !pair_of_node.
    rewrite key_after, value_touched_write. split; solve_Permutation.
  - exists (pair_of <$> (cl ++ l1 ++ l2)).
    rewrite !fmap_app, !fmap_cons, !fmap_app, !pair_of_node.
    rewrite key_after, value_touched_write. split; solve_Permutation.
  - exists (pair_of <$> (cl ++ l1 ++ l2)).
    rewrite list_sort_perm, !fmap_app, !fmap_cons. cbn [fmap list_fmap].
    rewrite !pair_of_node.
    rewrite key_after, value_touched_write. split; solve_Permutation.
  - exists (pair_of <$> (c1 ++ [mkNode av ev] ++ l1 ++ l2)).
    rewrite list_sort_perm, !fmap_app, !fmap_cons. cbn [fmap list_fmap].
    rewrite ?fmap_app, !pair_of_node.
    rewrite key_after, value_touched_write. split; solve_Permutation.
Qed.

Lemma keys_contents s :
  hot_keys s ++ history_keys s = fst <$> contents s.
Proof.
  rewrite contents_nodes, <- list_fmap_compose.
  unfold hot_keys, history_keys. by rewrite <- fmap_app.
Qed.

Lemma keys_regions s :
  keys (cacheList_ s ++ historyList_ s) = hot_keys s ++ history_keys s.
Proof. unfold keys, hot_keys, history_keys. by rewrite fmap_app. Qed.

Lemma get_present now C K s e :
  inv C K s → (1 ≤ C)%Z → (1 ≤ K)%Z →
  e ∈ hot_entries s ++ history_entries s →
  ∃ s1, get now (key_ e) s = Some (value_ e, true, s1) ∧
        accessed now None s e s1.
Proof.
  intros Hinv HC HK He.
  assert (key_ e ∈ keys (cacheList_ s ++ historyList_ s)) as Hk.
  { rewrite keys_regions. by apply entry_key. }
  destruct (present_paths now C K s (key_ e) Hinv HC HK Hk)
    as (e' & s1 & it & Hke & Hacc & Hget & _).
  assert (e' = e) as ->.
  { apply (entry_unique s); [apply (inv_wf _ _ _ Hinv)| |done|done].
    by apply (accessed_entry_before now None s e' s1). }
  by exists s1.
Qed.

Lemma inserted_entry_after now k v s s' :
  inserted now k v s s' →
  mkEntry k v [now] ∈ hot_entries s' ++ history_entries s'.
Proof.
  intros []; unfold hot_entries, history_entries; fields;
    apply elem_of_app; right; rewrite fmap_cons; by left.
Qed.

Lemma put_cases now k v C K s s' :
  inv C K s → (1 ≤ C)%Z → (1 ≤ K)%Z → put now k v s = Some s' →
  (∃ e, key_ e = k ∧ e ∈ hot_entries s ++ history_entries s ∧
        accessed now (Some v) s e s') ∨
  ((k ∉ hot_keys s ++ history_keys s) ∧ inserted now k v s s').
Proof.
  intros Hinv HC HK Hput.
  destruct (decide (k ∈ keys (cacheList_ s ++ historyList_ s))) as [Hk|Hk].
  - left.
    destruct (exec_access now (Put k v) C K s k Hinv HC HK eq_refl Hk)
      as (e & s2 & Hke & He & Hexec & Hacc).
    cbn [exec written] in Hexec, Hacc. exists e.
    assert (s2 = s') as -> by congruence. done.
  - right.
    destruct (put_absent now C K s k v Hinv HC Hk) as (s2 & Hins & Hput2).
    assert (s2 = s') as -> by congruence. by rewrite <- keys_regions.
Qed.

(** X1: in every state a cache built with C ≥ 1 and K ≥ 1 reaches, [get(k)]
    reports [found = true] exactly when [k] is in one of the two regions and
    then returns the value stored for [k]; for a key in neither region it
    returns [VALUE()] (the empty string) with [found = false] and leaves the
    cache as it was: no timestamp is recorded and nothing is inserted. *)
Theorem get_reports_membership C K s now k :
  (1 ≤ C)%Z → (1 ≤ K)%Z → reachable C K s →
  ∃ x found s',
    get now k s = Some (x, found, s') ∧
    (found = true ↔ k ∈ hot_keys s ++ history_keys s) ∧
    (∀ e, e ∈ hot_entries s ++ history_entries s → key_ e = k →
          x = value_ e) ∧
    (found = false → x = EmptyString ∧ s' = s).
Proof.
  intros HC HK Hs. apply (reachable_inv C K s HC HK) in Hs.
  destruct (decide (k ∈ hot_keys s ++ history_keys s)) as [Hk|Hk].
  - assert (∃ e, e ∈ hot_entries s ++ history_entries s ∧ key_ e = k)
      as (e & He & <-).
    { rewrite entries_app. rewrite keys_app, keys_entries in Hk.
      apply list_elem_of_fmap in Hk as (e & -> & He). by exists e. }
    destruct (get_present now C K s e Hs HC HK He) as (s1 & Hget & _).
    exists (value_ e), true, s1. split; [done|]. split; [done|].
    split; [|done]. intros e' He' Hke. f_equal.
    by apply (entry_unique s); [apply (inv_wf _ _ _ Hs)|..].
  - exists EmptyString, false, s. split.
    { apply get_absent; [apply (inv_wf _ _ _ Hs)|]. by rewrite keys_regions. }
    split; [done|]. split; [|done].
    intros e He Hke. destruct Hk. rewrite <- Hke. by apply entry_key.
Qed.

Lemma get_reports_membership_witness :
  let s := after main_prefix (LRUK_Cache_new 3 2) in
  (1 ≤ 3)%Z ∧ (1 ≤ 2)%Z ∧ reachable 3 2 s ∧
  ∃ x found s',
    get 12 1 s = Some (x, found, s') ∧
    (found = true ↔ 1%Z ∈ hot_keys s ++ history_keys s) ∧
    (∀ e, e ∈ hot_entries s ++ history_entries s → key_ e = 1%Z →
          x = value_ e) ∧
    (found = false → x = EmptyString ∧ s' = s).
Proof.
  cbv zeta. split; [lia|]. split; [lia|].
  split; [exact main_prefix_reachable|].
  apply (get_reports_membership 3 2); [lia|lia|exact main_prefix_reachable].
Defined.

(** X2: after [put(k, v)], on a key that was cached or not, the next [get(k)]
    finds the key and returns [v], whatever the clock readings are. *)
Theorem put_then_get C K s now k v s' now' :
  (1 ≤ C)%Z → (1 ≤ K)%Z → reachable C K s →
  put now k v s = Some s' →
  ∃ s'', get now' k s' = Some (v, true, s'').
Proof.
  intros HC HK Hs Hput.
  assert (reachable C K s') as Hs'.
  { by apply (reachable_step C K s now (Put k v)). }
  apply (reachable_inv C K s HC HK) in Hs.
  apply (reachable_inv C K s' HC HK) in Hs'.
  assert (∃ e, e ∈ hot_entries s' ++ history_entries s' ∧
               key_ e = k ∧ value_ e = v) as (e & He & <- & <-).
  { destruct (put_cases now k v C K s s' Hs HC HK Hput)
      as [(e & Hke & He & Hacc)|[_ Hins]].
    - exists (write (Some v) (touched (k_ s) now e)).
      split; [by apply accessed_entry_after|]. by rewrite key_after.
    - exists (mkEntry k v [now]).
      split; [by apply (inserted_entry_after now k v s)|done]. }
  destruct (get_present now' C K s' e Hs' HC HK He) as (s'' & Hget & _).
  by exists s''.
Qed.

Lemma put_then_get_witness :
  let s := after main_fill (LRUK_Cache_new 3 2) in
  let s' := after (main_fill ++ [(4, Put 4 "D")]%Z) (LRUK_Cache_new 3 2) in
  (1 ≤ 3)%Z ∧ (1 ≤ 2)%Z ∧ reachable 3 2 s ∧
  put 4 4 "D" s = Some s' ∧
  ∃ s'', get 5 4 s' = Some ("D", true, s'').
Proof.
  assert (put 4 4 "D" (after main_fill (LRUK_Cache_new 3 2))
          = Some (after (main_fill ++ [(4, Put 4 "D")]%Z)
                    (LRUK_Cache_new 3 2))) as Hput
    by (vm_compute; reflexivity).
  cbv zeta. split; [lia|]. split; [lia|].
  split; [exact history_full_reachable|]. split; [exact Hput|].
  apply (put_then_get 3 2 (after main_fill (LRUK_Cache_new 3 2)) 4 4 "D"
           (after (main_fill ++ [(4, Put 4 "D")]%Z) (LRUK_Cache_new 3 2)) 5);
    [lia|lia|exact history_full_reachable|exact Hput].
Defined.

(** X3: [get] never evicts and never changes a value: the keys with their
    values are the same after the call (only their places and timestamp
    queues change), whether the key is found or not; capacity and K are
    kept. *)
Theorem get_keeps_contents C K s now k x found s' :
  (1 ≤ C)%Z → (1 ≤ K)%Z → reachable C K s →
  get now k s = Some (x, found, s') →
  contents s' ≡ₚ contents s ∧
  capacity_ s' = capacity_ s ∧ k_ s' = k_ s.
Proof.
  intros HC HK Hs Hget. apply (reachable_inv C K s HC HK) in Hs.
  destruct (decide (k ∈ keys (cacheList_ s ++ historyList_ s))) as [Hk|Hk].
  - destruct (exec_access now (Get k) C K s k Hs HC HK eq_refl Hk)
      as (e & s2 & Hke & He & Hexec & Hacc).
    cbn [exec written] in Hexec, Hacc. rewrite Hget in Hexec.
    injection Hexec as <-.
    destruct (accessed_contents _ _ _ _ _ Hacc) as (R & HR & HR').
    cbn [default] in HR'. split; [by rewrite HR, HR'|].
    by destruct Hacc.
  - rewrite get_absent in Hget; [|apply (inv_wf _ _ _ Hs)|done].
    by injection Hget as <- <- <-.
Qed.

Lemma get_keeps_contents_witness :
  let s := after main_prefix (LRUK_Cache_new 3 2) in
  let s' := after (main_prefix ++ [(12, Get 2)]%Z) (LRUK_Cache_new 3 2) in
  (1 ≤ 3)%Z ∧ (1 ≤ 2)%Z ∧ reachable 3 2 s ∧
  get 12 2 s = Some ("B", true, s') ∧
  contents s' ≡ₚ contents s ∧ capacity_ s' = capacity_ s ∧ k_ s' = k_ s.
Proof.
  assert (get 12 2 (after main_prefix (LRUK_Cache_new 3 2))
          = Some ("B", true,
                  after (main_prefix ++ [(12, Get 2)]%Z)
                    (LRUK_Cache_new 3 2))) as Hget
    by (vm_compute; reflexivity).
  cbv zeta. split; [lia|]. split; [lia|].
  split; [exact main_prefix_reachable|]. split; [exact Hget|].
  apply (get_keeps_contents 3 2 (after main_prefix (LRUK_Cache_new 3 2))
           12 2 "B" true);
    [lia|lia|exact main_prefix_reachable|exact Hget].
Defined.

(** X4: [put(k, v)] on a cached key replaces the value of [k] by [v] and
    keeps every other key with its value: nothing is evicted, also when the
    access promotes [k] and demotes another key. *)
Theorem put_present_contents C K s now k v :
  (1 ≤ C)%Z → (1 ≤ K)%Z → reachable C K s →
  k ∈ hot_keys s ++ history_keys s →
  ∃ s' x R,
    put now k v s = Some s' ∧
    contents s ≡ₚ (k, x) :: R ∧ contents s' ≡ₚ (k, v) :: R.
Proof.
  intros HC HK Hs Hk. apply (reachable_inv C K s HC HK) in Hs.
  rewrite <- keys_regions in Hk.
  destruct (exec_access now (Put k v) C K s k Hs HC HK eq_refl Hk)
    as (e & s' & <- & He & Hexec & Hacc).
  destruct (accessed_contents _ _ _ _ _ Hacc) as (R & HR & HR').
  by exists s', (value_ e), R.
Qed.

Lemma put_present_contents_witness :
  let s := after main_warm (LRUK_Cache_new 3 2) in
  (1 ≤ 3)%Z ∧ (1 ≤ 2)%Z ∧ reachable 3 2 s ∧
  5%Z ∈ hot_keys s ++ history_keys s ∧
  ∃ s' x R,
    put 11 5 "E1" s = Some s' ∧
    contents s ≡ₚ (5%Z, x) :: R ∧ contents s' ≡ₚ (5%Z, "E1") :: R.
Proof.
  assert (5%Z ∈ hot_keys (after main_warm (LRUK_Cache_new 3 2))
                ++ history_keys (after main_warm (LRUK_Cache_new 3 2)))
    as Hin by compute_done.
  cbv zeta. split; [lia|]. split; [lia|].
  split; [exact main_warm_reachable|]. split; [exact Hin|].
  apply (put_present_contents 3 2);
    [lia|lia|exact main_warm_reachable|exact Hin].
Defined.

(** X5: [put] of a key that is in neither region, while the History Region
    holds fewer than C entries, evicts nothing: the new entry, with the one
    timestamp of the call, goes to the front of the History Region, in front
    of the entries that were there, and the Hot Region and its index are
    untouched. *)
Theorem put_new_without_eviction C K s now k v :
  (1 ≤ C)%Z → (1 ≤ K)%Z → reachable C K s →
  k ∉ hot_keys s ++ history_keys s →
  (Z.of_nat (length (historyList_ s)) < C)%Z →
  ∃ s',
    put now k v s = Some s' ∧
    history_entries s' = mkEntry k v [now] :: history_entries s ∧
    cacheList_ s' = cacheList_ s ∧ cache_map_ s' = cache_map_ s ∧
    contents s' ≡ₚ (k, v) :: contents s.
Proof.
  intros HC HK Hs Hk Hfree. apply (reachable_inv C K s HC HK) in Hs.
  rewrite <- keys_regions in Hk.
  destruct (put_absent now C K s k v Hs HC Hk) as (s' & Hins & Hput).
  exists s'. split; [done|].
  pose proof (inv_capacity _ _ _ Hs) as HCs.
  destruct Hins as [C' K' hl cl hm cm nx _|C' K' h1 at_ et cl hm cm nx Hfull];
    cbn in HCs, Hfree; subst C'; [|lia].
  rewrite !contents_nodes. unfold history_entries. fields.
  repeat split. rewrite !fmap_app, fmap_cons, pair_of_node. cbn.
  solve_Permutation.
Qed.

Lemma put_new_without_eviction_witness :
  let s := after main_first (LRUK_Cache_new 3 2) in
  (1 ≤ 3)%Z ∧ (1 ≤ 2)%Z ∧ reachable 3 2 s ∧
  (2%Z ∉ hot_keys s ++ history_keys s) ∧
  (Z.of_nat (length (historyList_ s)) < 3)%Z ∧
  ∃ s',
    put 2 2 "B" s = Some s' ∧
    history_entries s' = mkEntry 2 "B" [2%Z] :: history_entries s ∧
    cacheList_ s' = cacheList_ s ∧ cache_map_ s' = cache_map_ s ∧
    contents s' ≡ₚ (2%Z, "B") :: contents s.
Proof.
  assert (2%Z ∉ hot_keys (after main_first (LRUK_Cache_new 3 2))
                ++ history_keys (after main_first (LRUK_Cache_new 3 2)))
    as Hout by compute_done.
  cbv zeta. split; [lia|]. split; [lia|].
  split; [exact main_first_reachable|]. split; [exact Hout|].
  split; [vm_compute; reflexivity|].
  apply (put_new_without_eviction 3 2);
    [lia|lia|exact main_first_reachable|exact Hout|vm_compute; reflexivity].
Defined.

(** X6: a key leaves the cache in one way only, [clear] apart: a [put] of
    a key that is in neither region, made while the History Region holds C
    entries, evicts the key at the tail of the History Region.  No [get], no
    [put] of a cached key and no promotion or demotion drops a key. *)
Theorem eviction_only_of_history_tail C K s now o s' k :
  (1 ≤ C)%Z → (1 ≤ K)%Z → reachable C K s →
  exec now o s = Some s' →
  k ∈ hot_keys s ++ history_keys s →
  k ∉ hot_keys s' ++ history_keys s' →
  o = Clear ∨
  ∃ k' v, o = Put k' v ∧ (k' ∉ hot_keys s ++ history_keys s) ∧
          Z.of_nat (length (historyList_ s)) = C ∧
          last (history_keys s) = Some k.
Proof.
  intros HC HK Hs Hexec Hin Hout. apply (reachable_inv C K s HC HK) in Hs.
  destruct (exec_cases now o C K s s' HC HK Hs Hexec)
    as [(ov & e & Hko & Hacc)|[(k0 & -> & Hk0 & ->)|[(k0 & v & -> & Hk0 & Hins)
       |[-> ->]]]]; [| |right|by left].
  - destruct (accessed_contents _ _ _ _ _ Hacc) as (R & HR & HR').
    destruct Hout. rewrite keys_contents in Hin |- *.
    rewrite HR in Hin. rewrite HR'. by rewrite fmap_cons in *.
  - done.
  - exists k0, v. rewrite <- keys_regions. split; [done|]. split; [done|].
    pose proof (inv_capacity _ _ _ Hs) as HCs.
    pose proof (inv_history_size _ _ _ Hs) as Hsize.
    destruct Hins as [C' K' hl cl hm cm nx _|C' K' h1 at_ et cl hm cm nx Hfull];
      unfold hot_keys, history_keys in *; revert Hin Hout; fields;
      cbn in HCs, Hsize; subst C'.
    + intros Hin Hout. destruct Hout. rewrite fmap_cons.
      apply elem_of_app in Hin as [Hin|Hin]; apply elem_of_app;
        [by left|right; by right].
    + intros Hin Hout. split; [lia|].
      rewrite fmap_app. cbn [fmap list_fmap]. rewrite last_snoc. f_equal.
      rewrite fmap_app in Hin. cbn [fmap list_fmap] in Hin.
      rewrite fmap_cons in Hout.
      apply elem_of_app in Hin as [Hin|Hin].
      { destruct Hout. apply elem_of_app. by left. }
      apply elem_of_app in Hin as [Hin|Hin].
      { destruct Hout. apply elem_of_app. right. by right. }
      by apply list_elem_of_singleton in Hin.
Qed.

Lemma eviction_only_of_history_tail_witness :
  let s := after main_fill (LRUK_Cache_new 3 2) in
  let s' := after (main_fill ++ [(4, Put 4 "D")]%Z) (LRUK_Cache_new 3 2) in
  (1 ≤ 3)%Z ∧ (1 ≤ 2)%Z ∧ reachable 3 2 s ∧
  exec 4 (Put 4 "D") s = Some s' ∧
  1%Z ∈ hot_keys s ++ history_keys s ∧
  (1%Z ∉ hot_keys s' ++ history_keys s') ∧
  (Put 4 "D" = Clear ∨
   ∃ k' v, Put 4 "D" = Put k' v ∧ (k' ∉ hot_keys s ++ history_keys s) ∧
           Z.of_nat (length (historyList_ s)) = 3%Z ∧
           last (history_keys s) = Some 1%Z).
Proof.
  assert (exec 4 (Put 4 "D") (after main_fill (LRUK_Cache_new 3 2))
          = Some (after (main_fill ++ [(4, Put 4 "D")]%Z)
                    (LRUK_Cache_new 3 2))) as Hexec
    by (vm_compute; reflexivity).
  assert (1%Z ∈ hot_keys (after main_fill (LRUK_Cache_new 3 2))
                ++ history_keys (after main_fill (LRUK_Cache_new 3 2)))
    as Hin by compute_done.
  assert (1%Z ∉ hot_keys (after (main_fill ++ [(4, Put 4 "D")]%Z)
                            (LRUK_Cache_new 3 2))
                ++ history_keys (after (main_fill ++ [(4, Put 4 "D")]%Z)
                                   (LRUK_Cache_new 3 2)))
    as Hout by compute_done.
  cbv zeta. split; [lia|]. split; [lia|].
  split; [exact history_full_reachable|]. split; [exact Hexec|].
  split; [exact Hin|]. split; [exact Hout|].
  apply (eviction_only_of_history_tail 3 2
           (after main_fill (LRUK_Cache_new 3 2)) 4 (Put 4 "D")
           (after (main_fill ++ [(4, Put 4 "D")]%Z) (LRUK_Cache_new 3 2)));
    [lia|lia|exact history_full_reachable|exact Hexec|exact Hin|exact Hout].
Defined.

Lemma NoDup_fmap_split_eq {A B} (f : A → B) (l1 l1' l2 l2' : list A) x x' :
  NoDup (f <$> (l1 ++ x :: l2)) → l1 ++ x :: l2 = l1' ++ x' :: l2' →
  f x = f x' → l1 = l1' ∧ x = x' ∧ l2 = l2'.
Proof.
  revert l1'. induction l1 as [|y l1 IH]; intros [|y' l1'] Hnd Heq Hf;
    cbn [app] in *.
  - by injection Heq as -> ->.
  - injection Heq as Hx Hl. exfalso. rewrite fmap_cons in Hnd.
    apply NoDup_cons in Hnd as [Hnd _]. apply Hnd. rewrite Hl, Hf.
    rewrite fmap_app, fmap_cons. apply elem_of_app. right. by left.
  - injection Heq as Hx Hl. exfalso. rewrite fmap_cons in Hnd.
    apply NoDup_cons in Hnd as [Hnd _]. apply Hnd. rewrite Hx, <- Hf.
    rewrite fmap_app, fmap_cons. apply elem_of_app. right. by left.
  - injection Heq as -> Heq. rewrite fmap_cons in Hnd.
    apply NoDup_cons in Hnd as [_ Hnd].
    destruct (IH l1' Hnd Heq Hf) as (-> & -> & ->). done.
Qed.

Lemma wf_keys_cache s : wf s → NoDup (nkey <$> cacheList_ s).
Proof.
  intros Hwf. pose proof (wf_keys _ Hwf) as Hk. unfold keys in Hk.
  rewrite fmap_app in Hk. by apply NoDup_app in Hk as (? & _ & _).
Qed.

Lemma wf_keys_history s : wf s → NoDup (nkey <$> historyList_ s).
Proof.
  intros Hwf. pose proof (wf_keys _ Hwf) as Hk. unfold keys in Hk.
  rewrite fmap_app in Hk. by apply NoDup_app in Hk as (_ & _ & ?).
Qed.

Lemma wf_regions_disjoint s k :
  wf s → k ∈ hot_keys s → k ∈ history_keys s → False.
Proof.
  intros Hwf Hc Hh. pose proof (wf_keys _ Hwf) as Hk. unfold keys in Hk.
  rewrite fmap_app in Hk. apply NoDup_app in Hk as (_ & Hdisj & _).
  by apply (Hdisj k).
Qed.

Lemma key_in_middle l1 (n : node) l2 : nkey n ∈ nkey <$> (l1 ++ n :: l2).
Proof. rewrite fmap_app, fmap_cons. apply elem_of_app. right. by left. Qed.

Lemma accessed_in_cache now ov C K hl l1 n l2 hm cm nx s' :
  wf (mkCache C K hl (l1 ++ n :: l2) hm cm nx) →
  accessed now ov (mkCache C K hl (l1 ++ n :: l2) hm cm nx) (elem n) s' →
  s' = mkCache C K hl
         (list_sort (l1 ++ mkNode (addr n) (write ov (touched K now (elem n)))
                        :: l2)) hm cm nx.
Proof.
  intros Hwf Hacc. pose proof (wf_keys_cache _ Hwf) as Hnd. revert Hnd. fields.
  intros Hnd.
  assert (∀ l1' a' l2', hl = l1' ++ mkNode a' (elem n) :: l2' → False)
    as Hno.
  { intros l1' a' l2' ->. apply (wf_regions_disjoint _ (nkey n) Hwf).
    - apply key_in_middle.
    - apply (key_in_middle l1' (mkNode a' (elem n)) l2'). }
  remember (mkCache C K hl (l1 ++ n :: l2) hm cm nx) as s eqn:Hs.
  remember (elem n) as e eqn:He.
  destruct Hacc as [C' K' hl' l1' a' e0 l2' hm' cm' nx'
                   |C' K' l1' a' e0 l2' cl' hm' cm' nx' Hlt
                   |C' K' l1' a' e0 l2' cl' hm' cm' nx' HKe Hfree
                   |C' K' l1' a' e0 l2' c1 av ev hm' cm' nx' HKe Hfull];
    injection Hs as -> -> Hhl Hcl -> -> ->; subst e0;
    try (exfalso; symmetry in Hhl; by apply Hno in Hhl).
  subst hl'. symmetry in Hcl.
  destruct (NoDup_fmap_split_eq nkey _ _ _ _ _ _ Hnd Hcl eq_refl)
    as (-> & -> & ->). done.
Qed.

Lemma accessed_in_history now ov C K l1 p l2 cl hm cm nx s' :
  wf (mkCache C K (l1 ++ p :: l2) cl hm cm nx) →
  accessed now ov (mkCache C K (l1 ++ p :: l2) cl hm cm nx) (elem p) s' →
  let e' := write ov (touched K now (elem p)) in
  ((q_size (elem p) + 1 < K)%Z ∧
   s' = mkCache C K (mkNode (addr p) e' :: l1 ++ l2) cl hm cm nx) ∨
  ((K ≤ q_size (elem p) + 1)%Z ∧ (Z.of_nat (length cl) < C)%Z ∧
   s' = mkCache C K (l1 ++ l2) (list_sort (cl ++ [mkNode nx e']))
          (delete (nkey p) hm) (<[nkey p := node_at nx]> cm) (S nx)) ∨
  (∃ c1 v,
     (K ≤ q_size (elem p) + 1)%Z ∧ cl = c1 ++ [v] ∧
     (C ≤ Z.of_nat (length cl))%Z ∧
     s' = mkCache C K (mkNode (S nx) (elem v) :: l1 ++ l2)
            (list_sort (c1 ++ [mkNode nx e']))
            (delete (nkey p) (<[nkey v := node_at (S nx)]> hm))
            (<[nkey p := node_at nx]> (delete (nkey v) cm)) (S (S nx))).
Proof.
  intros Hwf Hacc. pose proof (wf_keys_history _ Hwf) as Hnd. revert Hnd.
  fields. intros Hnd.
  assert (∀ l1' a' l2', cl = l1' ++ mkNode a' (elem p) :: l2' → False)
    as Hno.
  { intros l1' a' l2' ->. apply (wf_regions_disjoint _ (nkey p) Hwf).
    - apply (key_in_middle l1' (mkNode a' (elem p)) l2').
    - apply key_in_middle. }
  remember (mkCache C K (l1 ++ p :: l2) cl hm cm nx) as s eqn:Hs.
  remember (elem p) as e eqn:He.
  destruct Hacc as [C' K' hl' l1' a' e0 l2' hm' cm' nx'
                   |C' K' l1' a' e0 l2' cl' hm' cm' nx' Hlt
                   |C' K' l1' a' e0 l2' cl' hm' cm' nx' HKe Hfree
                   |C' K' l1' a' e0 l2' c1 av ev hm' cm' nx' HKe Hfull];
    injection Hs as -> -> Hhl Hcl -> -> ->; subst e0.
  - exfalso. symmetry in Hcl. by apply Hno in Hcl.
  - subst cl'. symmetry in Hhl.
    destruct (NoDup_fmap_split_eq nkey _ _ _ _ _ _ Hnd Hhl eq_refl)
      as (-> & -> & ->). left. done.
  - subst cl'. symmetry in Hhl.
    destruct (NoDup_fmap_split_eq nkey _ _ _ _ _ _ Hnd Hhl eq_refl)
      as (-> & -> & ->). right. left. done.
  - symmetry in Hhl.
    destruct (NoDup_fmap_split_eq nkey _ _ _ _ _ _ Hnd Hhl eq_refl)
      as (-> & -> & ->). right. right.
    exists c1, (mkNode av ev). subst cl. done.
Qed.

Lemma access_entry now o C K s n :
  inv C K s → (1 ≤ C)%Z → (1 ≤ K)%Z →
  n ∈ cacheList_ s ++ historyList_ s → key_of o = Some (nkey n) →
  ∃ s', exec now o s = Some s' ∧ accessed now (written o) s (elem n) s'.
Proof.
  intros Hinv HC HK Hn Ho.
  assert (nkey n ∈ keys (cacheList_ s ++ historyList_ s)) as Hk
    by (by apply list_elem_of_fmap_2).
  destruct (exec_access now o C K s (nkey n) Hinv HC HK Ho Hk)
    as (e & s' & Hke & He & Hexec & Hacc).
  assert (e = elem n) as ->.
  { apply (entry_unique s); [apply (inv_wf _ _ _ Hinv)|done| |done].
    rewrite entries_app. by apply list_elem_of_fmap_2. }
  by exists s'.
Qed.

Lemma write_touched_below ov K now e :
  (1 ≤ K)%Z → (q_size e + 1 ≤ K)%Z →
  write ov (touched K now e)
  = mkEntry (key_ e) (default (value_ e) ov) (access_time_ e ++ [now]).
Proof.
  intros HK Hq. unfold touched. rewrite q_size_push, to_size_t_pos by lia.
  destruct (Z.ltb_spec K (q_size e + 1)); [lia|]. by destruct ov.
Qed.

Lemma write_touched_full ov K now e :
  (1 ≤ K)%Z → (K ≤ q_size e)%Z →
  write ov (touched K now e)
  = mkEntry (key_ e) (default (value_ e) ov) (tail (access_time_ e) ++ [now]).
Proof.
  intros HK Hq. rewrite touched_full by (rewrite to_size_t_pos; lia).
  unfold q_size in Hq. destruct e as [k v [|t q]]; cbn in Hq; [lia|].
  by destruct ov.
Qed.

(** X7: a [get] or [put] of a key of the Hot Region drops the oldest
    timestamp of its entry and appends the reading of the call (the value
    is replaced for a [put]); the Hot Region keeps its members, the history
    list and both index maps are unchanged. *)
Theorem hot_access C K s now o l1 n l2 :
  (1 ≤ C)%Z → (1 ≤ K)%Z → reachable C K s →
  cacheList_ s = l1 ++ n :: l2 → key_of o = Some (nkey n) →
  ∃ s',
    exec now o s = Some s' ∧
    hot_entries s'
    ≡ₚ mkEntry (nkey n) (default (value_ (elem n)) (written o))
         (tail (access_time_ (elem n)) ++ [now]) :: (elem <$> (l1 ++ l2)) ∧
    historyList_ s' = historyList_ s ∧
    history_map_ s' = history_map_ s ∧ cache_map_ s' = cache_map_ s.
Proof.
  intros HC HK Hs Hcl Ho. apply (reachable_inv C K s HC HK) in Hs.
  assert (n ∈ cacheList_ s ++ historyList_ s) as Hn.
  { rewrite Hcl. apply elem_of_app. left. apply elem_of_app. right. by left. }
  destruct (access_entry now o C K s n Hs HC HK Hn Ho) as (s' & Hexec & Hacc).
  exists s'. split; [done|].
  pose proof (inv_hot_queue _ _ _ Hs) as Hq.
  pose proof (inv_capacity _ _ _ Hs) as HCs.
  pose proof (inv_k _ _ _ Hs) as HKs.
  destruct s as [C' K' hl cl hm cm nx]. cbn in Hcl, Hq, HCs, HKs. subst.
  rewrite (accessed_in_cache _ _ _ _ _ _ _ _ _ _ _ _ (inv_wf _ _ _ Hs) Hacc).
  unfold hot_entries. fields.
  rewrite Forall_app, Forall_cons in Hq. destruct Hq as (_ & Hq & _).
  rewrite write_touched_full by lia.
  rewrite list_sort_perm, !fmap_app, !fmap_cons. cbn [elem].
  repeat split. solve_Permutation.
Qed.

Lemma hot_access_witness :
  let s := after main_warm (LRUK_Cache_new 3 2) in
  (1 ≤ 3)%Z ∧ (1 ≤ 2)%Z ∧ reachable 3 2 s ∧
  cacheList_ s = [mkNode 6 (mkEntry 4 "D" [4; 7]%Z)]
                 ++ mkNode 5 (mkEntry 3 "C1" [3; 6]%Z)
                 :: [mkNode 4 (mkEntry 2 "B" [2; 5]%Z)] ∧
  key_of (Get 3) = Some 3%Z ∧
  ∃ s',
    exec 11 (Get 3) s = Some s' ∧
    hot_entries s'
    ≡ₚ mkEntry 3 "C1" [6; 11]%Z
       :: [mkEntry 4 "D" [4; 7]%Z; mkEntry 2 "B" [2; 5]%Z] ∧
    historyList_ s' = historyList_ s ∧
    history_map_ s' = history_map_ s ∧ cache_map_ s' = cache_map_ s.
Proof.
  assert (cacheList_ (after main_warm (LRUK_Cache_new 3 2))
          = [mkNode 6 (mkEntry 4 "D" [4; 7]%Z)]
            ++ mkNode 5 (mkEntry 3 "C1" [3; 6]%Z)
            :: [mkNode 4 (mkEntry 2 "B" [2; 5]%Z)]) as Hcl
    by (vm_compute; reflexivity).
  cbv zeta. split; [lia|]. split; [lia|].
  split; [exact main_warm_reachable|]. split; [exact Hcl|].
  split; [reflexivity|].
  apply (hot_access 3 2 (after main_warm (LRUK_Cache_new 3 2)) 11 (Get 3)
           [mkNode 6 (mkEntry 4 "D" [4; 7]%Z)]
           (mkNode 5 (mkEntry 3 "C1" [3; 6]%Z))
           [mkNode 4 (mkEntry 2 "B" [2; 5]%Z)]);
    [lia|lia|exact main_warm_reachable|exact Hcl|reflexivity].
Defined.

(** X8: a [get] or [put] of a History entry whose window stays below K
    (it holds fewer than K - 1 timestamps) appends the reading of the call
    to its queue and moves the entry to the front of the History Region; the
    other History entries keep their order, the Hot Region and both index
    maps are unchanged. *)
Theorem history_access_below_k C K s now o l1 p l2 :
  (1 ≤ C)%Z → (1 ≤ K)%Z → reachable C K s →
  historyList_ s = l1 ++ p :: l2 → key_of o = Some (nkey p) →
  (q_size (elem p) + 1 < K)%Z →
  ∃ s',
    exec now o s = Some s' ∧
    history_entries s'
    = mkEntry (nkey p) (default (value_ (elem p)) (written o))
        (access_time_ (elem p) ++ [now]) :: (elem <$> (l1 ++ l2)) ∧
    cacheList_ s' = cacheList_ s ∧
    history_map_ s' = history_map_ s ∧ cache_map_ s' = cache_map_ s.
Proof.
  intros HC HK Hs Hhl Ho Hlt. apply (reachable_inv C K s HC HK) in Hs.
  assert (p ∈ cacheList_ s ++ historyList_ s) as Hp.
  { rewrite Hhl. apply elem_of_app. right. apply elem_of_app. right. by left. }
  destruct (access_entry now o C K s p Hs HC HK Hp Ho) as (s' & Hexec & Hacc).
  exists s'. split; [done|].
  pose proof (inv_capacity _ _ _ Hs) as HCs.
  pose proof (inv_k _ _ _ Hs) as HKs.
  destruct s as [C' K' hl cl hm cm nx]. cbn in Hhl, HCs, HKs. subst.
  destruct (accessed_in_history _ _ _ _ _ _ _ _ _ _ _ _ (inv_wf _ _ _ Hs) Hacc)
    as [[_ ->]|[(Hge & _)|(c1 & v & Hge & _)]]; [|lia|lia].
  unfold history_entries. fields.
  rewrite write_touched_below by lia. done.
Qed.

Lemma history_access_below_k_witness :
  let s := after [(1, Put 1 "A"); (2, Put 2 "B")]%Z (LRUK_Cache_new 3 3) in
  (1 ≤ 3)%Z ∧ (1 ≤ 3)%Z ∧ reachable 3 3 s ∧
  historyList_ s = [mkNode 1 (mkEntry 2 "B" [2%Z])]
                   ++ mkNode 0 (mkEntry 1 "A" [1%Z]) :: [] ∧
  key_of (Get 1) = Some 1%Z ∧
  (q_size (mkEntry 1 "A" [1%Z]) + 1 < 3)%Z ∧
  ∃ s',
    exec 3 (Get 1) s = Some s' ∧
    history_entries s'
    = mkEntry 1 "A" [1; 3]%Z :: [mkEntry 2 "B" [2%Z]] ∧
    cacheList_ s' = cacheList_ s ∧
    history_map_ s' = history_map_ s ∧ cache_map_ s' = cache_map_ s.
Proof.
  assert (reachable 3 3
            (after [(1, Put 1 "A"); (2, Put 2 "B")]%Z (LRUK_Cache_new 3 3)))
    as Hs.
  { apply (run_reachable 3 3 [(1, Put 1 "A"); (2, Put 2 "B")]%Z
             (LRUK_Cache_new 3 3)); [constructor|].
    vm_compute. reflexivity. }
  assert (historyList_
            (after [(1, Put 1 "A"); (2, Put 2 "B")]%Z (LRUK_Cache_new 3 3))
          = [mkNode 1 (mkEntry 2 "B" [2%Z])]
            ++ mkNode 0 (mkEntry 1 "A" [1%Z]) :: []) as Hhl
    by (vm_compute; reflexivity).
  cbv zeta. split; [lia|]. split; [lia|]. split; [exact Hs|].
  split; [exact Hhl|]. split; [reflexivity|].
  split; [vm_compute; reflexivity|].
  apply (history_access_below_k 3 3
           (after [(1, Put 1 "A"); (2, Put 2 "B")]%Z (LRUK_Cache_new 3 3))
           3 (Get 1) [mkNode 1 (mkEntry 2 "B" [2%Z])]
           (mkNode 0 (mkEntry 1 "A" [1%Z])) []);
    [lia|lia|exact Hs|exact Hhl|reflexivity|vm_compute; reflexivity].
Defined.

(** X9: when the Hot Region holds fewer than C entries, an access to a
    History entry whose window reaches K moves the entry into the Hot Region
    with a queue of exactly K timestamps ending in the reading of the call;
    the History Region loses this entry only and keeps the order of the
    others, and no Hot entry is demoted. *)
Theorem promotion_into_free_hot C K s now o l1 p l2 :
  (1 ≤ C)%Z → (1 ≤ K)%Z → reachable C K s →
  historyList_ s = l1 ++ p :: l2 → key_of o = Some (nkey p) →
  (K ≤ q_size (elem p) + 1)%Z →
  (Z.of_nat (length (cacheList_ s)) < C)%Z →
  ∃ s' q,
    exec now o s = Some s' ∧
    history_entries s' = elem <$> (l1 ++ l2) ∧
    hot_entries s'
    ≡ₚ mkEntry (nkey p) (default (value_ (elem p)) (written o)) q
       :: hot_entries s ∧
    Z.of_nat (length q) = K ∧ last q = Some now ∧
    (q = access_time_ (elem p) ++ [now] ∨
     q = tail (access_time_ (elem p)) ++ [now]).
Proof.
  intros HC HK Hs Hhl Ho Hge Hfree. apply (reachable_inv C K s HC HK) in Hs.
  assert (p ∈ cacheList_ s ++ historyList_ s) as Hp.
  { rewrite Hhl. apply elem_of_app. right. apply elem_of_app. right. by left. }
  destruct (access_entry now o C K s p Hs HC HK Hp Ho) as (s' & Hexec & Hacc).
  pose proof (inv_capacity _ _ _ Hs) as HCs.
  pose proof (inv_k _ _ _ Hs) as HKs.
  pose proof (inv_history_queue _ _ _ Hs) as Hq.
  destruct s as [C' K' hl cl hm cm nx]. cbn in Hhl, HCs, HKs, Hfree, Hq. subst.
  rewrite Forall_app, Forall_cons in Hq. destruct Hq as (_ & Hq & _).
  destruct (accessed_in_history _ _ _ _ _ _ _ _ _ _ _ _ (inv_wf _ _ _ Hs) Hacc)
    as [[Hlt _]|[(_ & _ & ->)|(c1 & v & _ & _ & Hfull & _)]]; [lia| |lia].
  cbv zeta. unfold hot_entries, history_entries. fields.
  destruct (decide (q_size (elem p) = K)) as [HqK|HqK].
  - exists (mkCache C K (l1 ++ l2)
              (list_sort
                 (cl ++ [mkNode nx (write (written o)
                                     (touched K now (elem p)))]))
              (delete (nkey p) hm) (<[nkey p:=node_at nx]> cm) (S nx)),
      (tail (access_time_ (elem p)) ++ [now]).
    split; [done|]. fields. rewrite write_touched_full by lia.
    split; [done|].
    split; [rewrite list_sort_perm, fmap_app; cbn [fmap list_fmap elem];
            solve_Permutation|].
    rewrite last_snoc, length_app. unfold q_size in HqK.
    destruct (access_time_ (elem p)) as [|t q]; cbn [length tail] in *;
      [lia|].
    split; [lia|]. split; [done|]. by right.
  - exists (mkCache C K (l1 ++ l2)
              (list_sort
                 (cl ++ [mkNode nx (write (written o)
                                     (touched K now (elem p)))]))
              (delete (nkey p) hm) (<[nkey p:=node_at nx]> cm) (S nx)),
      (access_time_ (elem p) ++ [now]).
    split; [done|]. fields. rewrite write_touched_below by lia.
    split; [done|].
    split; [rewrite list_sort_perm, fmap_app; cbn [fmap list_fmap elem];
            solve_Permutation|].
    rewrite last_snoc, length_app. unfold q_size in HqK, Hge, Hq.
    cbn [length]. split; [lia|]. split; [done|]. by left.
Qed.

Lemma promotion_into_free_hot_witness :
  let s := after (main_fill ++ [(4, Put 4 "D")]%Z) (LRUK_Cache_new 3 2) in
  (1 ≤ 3)%Z ∧ (1 ≤ 2)%Z ∧ reachable 3 2 s ∧
  historyList_ s = [mkNode 3 (mkEntry 4 "D" [4%Z]);
                    mkNode 2 (mkEntry 3 "C" [3%Z])]
                   ++ mkNode 1 (mkEntry 2 "B" [2%Z]) :: [] ∧
  key_of (Get 2) = Some 2%Z ∧
  (2 ≤ q_size (mkEntry 2 "B" [2%Z]) + 1)%Z ∧
  (Z.of_nat (length (cacheList_ s)) < 3)%Z ∧
  ∃ s' q,
    exec 5 (Get 2) s = Some s' ∧
    history_entries s'
    = [mkEntry 4 "D" [4%Z]; mkEntry 3 "C" [3%Z]] ∧
    hot_entries s' ≡ₚ mkEntry 2 "B" q :: hot_entries s ∧
    Z.of_nat (length q) = 2%Z ∧ last q = Some 5%Z ∧
    (q = [2%Z] ++ [5%Z] ∨ q = tail [2%Z] ++ [5%Z]).
Proof.
  assert (reachable 3 2
            (after (main_fill ++ [(4, Put 4 "D")]%Z) (LRUK_Cache_new 3 2)))
    as Hs.
  { apply (run_reachable 3 2 (main_fill ++ [(4, Put 4 "D")]%Z)
             (LRUK_Cache_new 3 2)); [constructor|].
    vm_compute. reflexivity. }
  assert (historyList_
            (after (main_fill ++ [(4, Put 4 "D")]%Z) (LRUK_Cache_new 3 2))
          = [mkNode 3 (mkEntry 4 "D" [4%Z]); mkNode 2 (mkEntry 3 "C" [3%Z])]
            ++ mkNode 1 (mkEntry 2 "B" [2%Z]) :: []) as Hhl
    by (vm_compute; reflexivity).
  cbv zeta. split; [lia|]. split; [lia|]. split; [exact Hs|].
  split; [exact Hhl|]. split; [reflexivity|].
  split; [vm_compute; discriminate|]. split; [vm_compute; reflexivity|].
  apply (promotion_into_free_hot 3 2
           (after (main_fill ++ [(4, Put 4 "D")]%Z) (LRUK_Cache_new 3 2))
           5 (Get 2)
           [mkNode 3 (mkEntry 4 "D" [4%Z]); mkNode 2 (mkEntry 3 "C" [3%Z])]
           (mkNode 1 (mkEntry 2 "B" [2%Z])) []);
    [lia|lia|exact Hs|exact Hhl|reflexivity|vm_compute; discriminate
    |vm_compute; reflexivity].
Defined.

(** X10: a key leaves the Hot Region in one way only, [clear] apart: it
    is the last key of a full Hot Region and a [get] or [put] promotes a key
    of the History Region; the key that left is then at the front of the
    History Region.  (The converse of the demotion rule.) *)
Theorem hot_left_only_by_demotion C K s now o s' k :
  (1 ≤ C)%Z → (1 ≤ K)%Z → reachable C K s →
  exec now o s = Some s' → k ∈ hot_keys s → k ∉ hot_keys s' →
  o = Clear ∨
  (Z.of_nat (length (cacheList_ s)) = C ∧
   last (hot_keys s) = Some k ∧ head (history_keys s') = Some k ∧
   ∃ k', key_of o = Some k' ∧ k' ∈ history_keys s ∧ k' ∈ hot_keys s').
Proof.
  intros HC HK Hs Hexec Hin Hout. apply (reachable_inv C K s HC HK) in Hs.
  destruct (exec_cases now o C K s s' HC HK Hs Hexec)
    as [(ov & e & Hko & Hacc)|[(k0 & -> & Hk0 & ->)|[(k0 & v & -> & Hk0 & Hins)
       |[-> ->]]]]; [|done| |by left].
  - right.
    pose proof (inv_capacity _ _ _ Hs) as HCs.
    pose proof (inv_hot_size _ _ _ Hs) as Hsize.
    destruct Hacc as [C' K' hl l1 a e l2 hm cm nx
                     |C' K' l1 a e l2 cl hm cm nx Hlt
                     |C' K' l1 a e l2 cl hm cm nx HKe Hfree
                     |C' K' l1 a e l2 c1 av ev hm cm nx HKe Hfull];
      unfold hot_keys, history_keys in *; revert Hin Hout; fields;
      cbn in HCs, Hsize; subst C'; intros Hin Hout.
    + destruct Hout. rewrite list_sort_perm.
      rewrite fmap_app, fmap_cons in Hin |- *. unfold nkey at 2. cbn [elem].
      by rewrite key_after.
    + done.
    + destruct Hout. rewrite list_sort_perm, fmap_app.
      apply elem_of_app. by left.
    + rewrite list_sort_perm in Hout. rewrite fmap_app in Hin, Hout |- *.
      cbn [fmap list_fmap] in *. rewrite last_snoc.
      apply elem_of_app in Hin as [Hin|Hin].
      { destruct Hout. apply elem_of_app. by left. }
      apply list_elem_of_singleton in Hin as ->.
      split; [lia|]. split; [done|]. split; [done|].
      exists (key_ e). split; [done|]. split.
      * apply (key_in_middle l1 (mkNode a e) l2).
      * rewrite list_sort_perm, fmap_app. apply elem_of_app. right.
        apply list_elem_of_singleton. unfold nkey. cbn [elem].
        by rewrite key_after.
  - destruct Hout. by destruct Hins.
Qed.

Lemma hot_left_only_by_demotion_witness :
  let s := after main_warm (LRUK_Cache_new 3 2) in
  let s' := after main_prefix (LRUK_Cache_new 3 2) in
  (1 ≤ 3)%Z ∧ (1 ≤ 2)%Z ∧ reachable 3 2 s ∧
  exec 11 (Put 5 "E1") s = Some s' ∧
  2%Z ∈ hot_keys s ∧ (2%Z ∉ hot_keys s') ∧
  (Put 5 "E1" = Clear ∨
   (Z.of_nat (length (cacheList_ s)) = 3%Z ∧
    last (hot_keys s) = Some 2%Z ∧ head (history_keys s') = Some 2%Z ∧
    ∃ k', key_of (Put 5 "E1") = Some k' ∧ k' ∈ history_keys s ∧
          k' ∈ hot_keys s')).
Proof.
  assert (exec 11 (Put 5 "E1") (after main_warm (LRUK_Cache_new 3 2))
          = Some (after main_prefix (LRUK_Cache_new 3 2))) as Hexec
    by (vm_compute; reflexivity).
  assert (2%Z ∈ hot_keys (after main_warm (LRUK_Cache_new 3 2))) as Hin
    by compute_done.
  assert (2%Z ∉ hot_keys (after main_prefix (LRUK_Cache_new 3 2))) as Hout
    by compute_done.
  cbv zeta. split; [lia|]. split; [lia|].
  split; [exact main_warm_reachable|]. split; [exact Hexec|].
  split; [exact Hin|]. split; [exact Hout|].
  apply (hot_left_only_by_demotion 3 2
           (after main_warm (LRUK_Cache_new 3 2)) 11 (Put 5 "E1")
           (after main_prefix (LRUK_Cache_new 3 2)));
    [lia|lia|exact main_warm_reachable|exact Hexec|exact Hin|exact Hout].
Defined.

(** X11: the two [unordered_map]s index the two lists exactly: a key has
    a mapping in [cache_map_] ([history_map_]) exactly when it is in the Hot
    (History) Region, and the stored iterator is valid: it points to a node
    of that list holding this key. *)
Theorem index_maps_valid C K s k :
  (1 ≤ C)%Z → (1 ≤ K)%Z → reachable C K s →
  (k ∈ hot_keys s ↔ is_Some (cache_map_ s !! k)) ∧
  (k ∈ history_keys s ↔ is_Some (history_map_ s !! k)) ∧
  (∀ it, cache_map_ s !! k = Some it →
         ∃ e, deref it s = Some e ∧ key_ e = k ∧ e ∈ hot_entries s) ∧
  (∀ it, history_map_ s !! k = Some it →
         ∃ e, deref it s = Some e ∧ key_ e = k ∧ e ∈ history_entries s).
Proof.
  intros HC HK Hs. apply (reachable_inv C K s HC HK) in Hs.
  pose proof (inv_wf _ _ _ Hs) as Hwf.
  destruct Hwf as [Haddr _ _ Hcm Hhm].
  assert (∀ n, n ∈ cacheList_ s ++ historyList_ s →
               deref (node_at (addr n)) s = Some (elem n)) as Hderef.
  { intros n Hn. unfold deref.
    destruct (find_node (addr n) (cacheList_ s ++ historyList_ s))
      as [n'|] eqn:Hfind.
    - apply find_node_Some in Hfind as [Hn' Ha]. cbn. f_equal. f_equal.
      by apply (NoDup_fmap_eq addr (cacheList_ s ++ historyList_ s)).
    - exfalso. unfold find_node in Hfind.
      assert (In n (cacheList_ s ++ historyList_ s)) as Hin
        by (by apply list_elem_of_In).
      pose proof (find_none _ _ Hfind n Hin) as Hf. cbn in Hf.
      by rewrite Nat.eqb_refl in Hf. }
  split; [|split; [|split]].
  - split.
    + intros (n & -> & Hn)%list_elem_of_fmap. exists (node_at (addr n)).
      apply Hcm. by exists n.
    + intros [it (n & Hn & <- & _)%Hcm]. by apply list_elem_of_fmap_2.
  - split.
    + intros (n & -> & Hn)%list_elem_of_fmap. exists (node_at (addr n)).
      apply Hhm. by exists n.
    + intros [it (n & Hn & <- & _)%Hhm]. by apply list_elem_of_fmap_2.
  - intros it (n & Hn & <- & ->)%Hcm. exists (elem n).
    split; [apply Hderef, elem_of_app; by left|].
    split; [done|]. by apply list_elem_of_fmap_2.
  - intros it (n & Hn & <- & ->)%Hhm. exists (elem n).
    split; [apply Hderef, elem_of_app; by right|].
    split; [done|]. by apply list_elem_of_fmap_2.
Qed.

Lemma index_maps_valid_witness :
  let s := after main_prefix (LRUK_Cache_new 3 2) in
  (1 ≤ 3)%Z ∧ (1 ≤ 2)%Z ∧ reachable 3 2 s ∧
  (5%Z ∈ hot_keys s ↔ is_Some (cache_map_ s !! 5%Z)) ∧
  (5%Z ∈ history_keys s ↔ is_Some (history_map_ s !! 5%Z)) ∧
  (∀ it, cache_map_ s !! 5%Z = Some it →
         ∃ e, deref it s = Some e ∧ key_ e = 5%Z ∧
              e ∈ hot_entries s) ∧
  (∀ it, history_map_ s !! 5%Z = Some it →
         ∃ e, deref it s = Some e ∧ key_ e = 5%Z ∧
              e ∈ history_entries s).
Proof.
  cbv zeta. split; [lia|]. split; [lia|].
  split; [exact main_prefix_reachable|].
  apply (index_maps_valid 3 2); [lia|lia|exact main_prefix_reachable].
Defined.

(** X12: whatever the capacity and K, every entry of a reachable state
    has at least one recorded timestamp, so [access_time_.front()], which
    [compareByAccessTime] calls during every sort, is defined. *)
Theorem timestamp_queues_nonempty C K s e :
  reachable C K s → e ∈ hot_entries s ++ history_entries s →
  access_time_ e ≠ [] ∧ hd_error (access_time_ e) = Some (q_front e).
Proof.
  intros Hs He. apply reachable_queues_nonempty in Hs.
  unfold queues_nonempty in Hs. rewrite Forall_forall in Hs.
  rewrite entries_app in He.
  apply list_elem_of_fmap in He as (n & -> & Hn).
  specialize (Hs n Hn). split; [done|].
  unfold q_front. by destruct (access_time_ (elem n)).
Qed.

Lemma timestamp_queues_nonempty_witness :
  let s := after main_prefix (LRUK_Cache_new 3 2) in
  let e := mkEntry 2 "B" [2; 5]%Z in
  reachable 3 2 s ∧ e ∈ hot_entries s ++ history_entries s ∧
  access_time_ e ≠ [] ∧ hd_error (access_time_ e) = Some (q_front e).
Proof.
  assert (mkEntry 2 "B" [2; 5]%Z
          ∈ hot_entries (after main_prefix (LRUK_Cache_new 3 2))
            ++ history_entries (after main_prefix (LRUK_Cache_new 3 2)))
    as Hin by (vm_compute; do 3 right; left).
  cbv zeta. split; [exact main_prefix_reachable|]. split; [exact Hin|].
  apply (timestamp_queues_nonempty 3 2
           (after main_prefix (LRUK_Cache_new 3 2)));
    [exact main_prefix_reachable|exact Hin].
Defined.

(** X13: a cache built with capacity 0 stays empty: every [get] misses
    and every [put] is undefined behaviour, since [findVictimFromHistory]
    decrements [end()] of the empty history list. *)
Theorem capacity_zero_stores_nothing K s now k v :
  reachable 0 K s →
  s = LRUK_Cache_new 0 K ∧ put now k v s = None ∧
  get now k s = Some (EmptyString, false, s).
Proof.
  intros Hs.
  assert (s = LRUK_Cache_new 0 K) as ->.
  { induction Hs as [|s t o s' _ -> Hexec]; [done|].
    destruct o as [k0|k0 v0|]; cbn [exec] in Hexec.
    - rewrite get_absent in Hexec; [|apply wf_new|by intros ?%elem_of_nil].
      by injection Hexec as <-.
    - by rewrite put_capacity_zero in Hexec.
    - by injection Hexec as <-. }
  split; [done|]. split; [apply put_capacity_zero|].
  apply get_absent; [apply wf_new|by intros ?%elem_of_nil].
Qed.

Lemma capacity_zero_stores_nothing_witness :
  reachable 0 2 (LRUK_Cache_new 0 2) ∧
  LRUK_Cache_new 0 2 = LRUK_Cache_new 0 2 ∧
  put 1 1 "A" (LRUK_Cache_new 0 2) = None ∧
  get 1 1 (LRUK_Cache_new 0 2) = Some (EmptyString, false, LRUK_Cache_new 0 2).
Proof.
  split; [constructor|].
  apply (capacity_zero_stores_nothing 2 (LRUK_Cache_new 0 2) 1 1 "A").
  constructor.
Defined.

(** X14: after [clear], on any state, both lists and both maps are empty
    and capacity and K are kept; every [get] misses, [print] writes the two
    messages for empty lists, and (when the capacity read as [size_t] is at
    least 1) a [put] stores its entry as the only one of the History
    Region. *)
Theorem clear_forgets s now k v :
  (1 ≤ to_size_t (capacity_ s))%Z →
  hot_entries (clear s) = [] ∧ history_entries (clear s) = [] ∧
  cache_map_ (clear s) = ∅ ∧ history_map_ (clear s) = ∅ ∧
  capacity_ (clear s) = capacity_ s ∧ k_ (clear s) = k_ s ∧
  get now k (clear s) = Some (EmptyString, false, clear s) ∧
  print (clear s)
  = Some ("cacheList is empty." +:+ newline +:+ "historyList is empty."
          +:+ newline) ∧
  ∃ s', put now k v (clear s) = Some s' ∧ hot_entries s' = [] ∧
        history_entries s' = [mkEntry k v [now]].
Proof.
  intros HC. do 6 (split; [done|]). split.
  { apply get_absent; [apply wf_clear|by intros ?%elem_of_nil]. }
  split; [done|].
  destruct s as [C K hl cl hm cm nx]. cbn [capacity_] in HC.
  unfold put, clear. fields.
  rewrite getFromCacheList_miss by apply lookup_empty. bind_some.
  cbn [iterator_eqb negb].
  rewrite getFromHistoryList_miss by apply lookup_empty. bind_some.
  cbn [iterator_eqb negb length].
  destruct (Z.ltb_spec (Z.of_nat 0) (to_size_t C)) as [_|?]; [|lia].
  unfold insert_new, historyList_emplace_front. fields.
  cbn [list_begin addr]. unfold update_at. fields.
  cbn [app find_node find addr].
  rewrite Nat.eqb_refl. bind_some. eexists. split; [done|].
  unfold hot_entries, history_entries. fields.
  unfold modify_node. cbn [fmap list_fmap addr elem].
  rewrite Nat.eqb_refl. done.
Qed.

Lemma clear_forgets_witness :
  let s := after main_prefix (LRUK_Cache_new 3 2) in
  (1 ≤ to_size_t (capacity_ s))%Z ∧
  hot_entries (clear s) = [] ∧ history_entries (clear s) = [] ∧
  cache_map_ (clear s) = ∅ ∧ history_map_ (clear s) = ∅ ∧
  capacity_ (clear s) = capacity_ s ∧ k_ (clear s) = k_ s ∧
  get 12 1 (clear s) = Some (EmptyString, false, clear s) ∧
  print (clear s)
  = Some ("cacheList is empty." +:+ newline +:+ "historyList is empty."
          +:+ newline) ∧
  ∃ s', put 12 1 "A" (clear s) = Some s' ∧ hot_entries s' = [] ∧
        history_entries s' = [mkEntry 1 "A" [12%Z]].
Proof.
  cbv zeta. split; [vm_compute; discriminate|].
  apply (clear_forgets (after main_prefix (LRUK_Cache_new 3 2)) 12 1 "A").
  vm_compute. discriminate.
Defined.

Lemma string_app_assoc (a b c : string) : (a +:+ b) +:+ c = a +:+ (b +:+ c).
Proof.
  induction a as [|x a IH]; [done|].
  change (String x ((a +:+ b) +:+ c) = String x (a +:+ (b +:+ c))).
  by rewrite IH.
Qed.

Lemma string_app_nil_r (a : string) : a +:+ "" = a.
Proof.
  induction a as [|x a IH]; [done|].
  change (String x (a +:+ "") = String x a). by rewrite IH.
Qed.

Lemma print_entry_line n msg (j : nat) :
  (Z.of_nat j < INT_MAX)%Z →
  print_entry n (msg, Z.of_nat j)
  = Some (msg +:+ entry_line j (elem n), Z.of_nat (S j)).
Proof.
  intros Hj. unfold print_entry. cbv zeta.
  destruct (Z.ltb_spec (Z.of_nat j) INT_MAX) as [_|?]; [|lia].
  f_equal. f_equal; [|lia].
  unfold entry_line, to_string_if_not_string_KEY, to_string_if_not_string_VALUE.
  rewrite !string_app_assoc. done.
Qed.

Lemma print_loop_lines l msg (j : nat) :
  (Z.of_nat (j + length l) ≤ INT_MAX)%Z →
  print_loop l (msg, Z.of_nat j)
  = Some (msg +:+ lines (imap (λ i, entry_line (j + i)) (elem <$> l)),
          Z.of_nat (j + length l)).
Proof.
  revert msg j. induction l as [|n l IH]; intros msg j Hj; cbn [length] in Hj.
  - cbn. by rewrite string_app_nil_r, Nat.add_0_r.
  - cbn [print_loop]. rewrite print_entry_line by lia. bind_some.
    rewrite IH by (cbn [length]; lia).
    rewrite fmap_cons, imap_cons. unfold lines at 2. cbn [foldr length].
    fold (lines (imap ((λ i, entry_line (j + i)) ∘ S) (elem <$> l))).
    rewrite string_app_assoc, Nat.add_0_r. f_equal. f_equal; [|f_equal; lia].
    f_equal. f_equal. f_equal. apply imap_ext. intros i e _. cbn.
    f_equal. lia.
Qed.

Lemma print_list_text name l msg :
  (Z.of_nat (length l) ≤ INT_MAX)%Z →
  print_list (name +:+ ":" +:+ newline) (name +:+ " is empty." +:+ newline)
    l msg
  = Some (msg +:+ region_text name (elem <$> l)).
Proof.
  intros Hl. unfold print_list, region_text.
  destruct l as [|n l]; [done|].
  destruct (Z.ltb_spec 0 (Z.of_nat (length (n :: l)))) as [_|Hn];
    [|cbn [length] in Hn; lia].
  rewrite (print_loop_lines (n :: l) _ 0) by done.
  cbn [fmap option_fmap option_map fst].
  rewrite fmap_cons. by rewrite !string_app_assoc.
Qed.

(** X15: [print] is defined on every reachable state of a cache with
    1 ≤ C ≤ INT_MAX and K ≥ 1 (the counter [num] does not overflow) and
    writes, for the cache list and then for the history list, either the
    message for an empty list or the title and one line
    [[i] key=<key>, value=<value>] per entry, in list order, [i] counting
    from 0. *)
Theorem print_text C K s :
  (1 ≤ C ≤ INT_MAX)%Z → (1 ≤ K)%Z → reachable C K s →
  print s = Some (region_text "cacheList" (hot_entries s)
                  +:+ region_text "historyList" (history_entries s)).
Proof.
  intros HC HK Hs. apply (reachable_inv C K s) in Hs; [|lia|done].
  pose proof (inv_hot_size _ _ _ Hs). pose proof (inv_history_size _ _ _ Hs).
  unfold print.
  change ("cacheList:" +:+ newline) with ("cacheList" +:+ ":" +:+ newline).
  change ("cacheList is empty." +:+ newline)
    with ("cacheList" +:+ " is empty." +:+ newline).
  change ("historyList:" +:+ newline) with ("historyList" +:+ ":" +:+ newline).
  change ("historyList is empty." +:+ newline)
    with ("historyList" +:+ " is empty." +:+ newline).
  rewrite (print_list_text "cacheList" (cacheList_ s) "") by lia. bind_some.
  rewrite (print_list_text "historyList" (historyList_ s)) by lia. done.
Qed.

Lemma print_text_witness :
  let s := after main_prefix (LRUK_Cache_new 3 2) in
  (1 ≤ 3 ≤ INT_MAX)%Z ∧ (1 ≤ 2)%Z ∧ reachable 3 2 s ∧
  print s = Some (region_text "cacheList" (hot_entries s)
                  +:+ region_text "historyList" (history_entries s)).
Proof.
  cbv zeta. split; [by vm_compute|]. split; [lia|].
  split; [exact main_prefix_reachable|].
  apply (print_text 3 2);
    [by vm_compute|lia|exact main_prefix_reachable].
Defined.

Lemma bind_Some_eq {A B} (m : option A) (f : A → option B) x :
  m = Some x → m ≫= f = f x.
Proof. by intros ->. Qed.

Ltac eval_bind tac := erewrite bind_Some_eq; [|tac]; cbv beta.

(** X16: for all strictly increasing clock readings, [main] as embedded
    returns 0 with the output [main_output]: the three assertions hold and
    [cache.print()] writes the state that the comment at the end of [main]
    describes: cache list 5/E2, 7/G, 6/F1 and history list 4/D, 3/C1, 2/B.
    On the way no call dereferences, updates or erases through a
    past-the-end or dangling iterator.  The promoting calls of [main]
    compare an iterator into [cacheList_] with [historyList_.end()]; the
    result is for the value "not equal" of that comparison, see
    [iterator_eqb], and says nothing on whether C++ defines it. *)
Theorem main_runs (t1 t2 t3 t4 t5 t6 t7 t8 t9 t10 t11 t12 t13 t14 : Z) :
  (t1 < t2 < t3)%Z → (t3 < t4 < t5)%Z → (t5 < t6 < t7)%Z →
  (t7 < t8 < t9)%Z → (t9 < t10 < t11)%Z → (t11 < t12 < t13)%Z →
  (t13 < t14)%Z →
  main t1 t2 t3 t4 t5 t6 t7 t8 t9 t10 t11 t12 t13 t14
  = Some (main_output, 0%Z).
Proof.
  intros. unfold main. cbv zeta.
  do 4 (eval_bind eval_call).
  eval_bind eval_call. cbn [fst snd]. eval_bind ltac:(exact eq_refl).
  eval_bind eval_call.
  eval_bind eval_call. cbn [fst snd]. eval_bind ltac:(exact eq_refl).
  do 5 (eval_bind eval_call).
  eval_bind eval_call. cbn [fst snd]. eval_bind ltac:(exact eq_refl).
  eval_bind eval_call.
  eval_bind ltac:(vm_compute; reflexivity).
  vm_compute. reflexivity.
Qed.

Lemma main_runs_witness :
  (1 < 2 < 3)%Z ∧ (3 < 4 < 5)%Z ∧ (5 < 6 < 7)%Z ∧ (7 < 8 < 9)%Z ∧
  (9 < 10 < 11)%Z ∧ (11 < 12 < 13)%Z ∧ (13 < 14)%Z ∧
  main 1 2 3 4 5 6 7 8 9 10 11 12 13 14 = Some (main_output, 0%Z).
Proof.
  repeat (split; [lia|]).
  apply (main_runs 1 2 3 4 5 6 7 8 9 10 11 12 13 14); lia.
Defined.

(** X17: the linear search [findCacheEntry(k)] returns the iterator
    that [cache_map_] stores for [k], and [cacheList_.end()] exactly when
    [k] is not in the Hot Region: re-indexing the key after a sort stores the
    iterator that was stored before. *)
Theorem findCacheEntry_agrees_with_index C K s k :
  (1 ≤ C)%Z → (1 ≤ K)%Z → reachable C K s →
  findCacheEntry k s = default cache_end (cache_map_ s !! k) ∧
  (findCacheEntry k s = cache_end ↔ k ∉ hot_keys s).
Proof.
  intros HC HK Hs. apply (reachable_inv C K s HC HK) in Hs.
  pose proof (inv_wf _ _ _ Hs) as Hwf.
  pose proof (wf_keys_cache _ Hwf) as Hnd.
  destruct (decide (k ∈ hot_keys s)) as [Hk|Hk].
  - apply list_elem_of_fmap in Hk as Hk'. destruct Hk' as (n & -> & Hn).
    unfold findCacheEntry. rewrite (find_key_unique _ _ n Hnd Hn eq_refl).
    assert (cache_map_ s !! nkey n = Some (node_at (addr n))) as ->.
    { apply (wf_cmap _ Hwf). by exists n. }
    split; [done|]. split; [done|]. by intros [].
  - unfold findCacheEntry. rewrite find_key_None by done.
    assert (cache_map_ s !! k = None) as ->.
    { by apply (indexes_None _ _ _ (wf_cmap _ Hwf)). }
    done.
Qed.

Lemma findCacheEntry_agrees_with_index_witness :
  let s := after main_prefix (LRUK_Cache_new 3 2) in
  (1 ≤ 3)%Z ∧ (1 ≤ 2)%Z ∧ reachable 3 2 s ∧
  findCacheEntry 4 s = default cache_end (cache_map_ s !! 4%Z) ∧
  (findCacheEntry 4 s = cache_end ↔ 4%Z ∉ hot_keys s).
Proof.
  cbv zeta. split; [lia|]. split; [lia|].
  split; [exact main_prefix_reachable|].
  apply (findCacheEntry_agrees_with_index 3 2);
    [lia|lia|exact main_prefix_reachable].
Defined.

Lemma queue_ordered_mono b b' e :
  (b ≤ b')%Z → queue_ordered b e → queue_ordered b' e.
Proof.
  intros Hb [Hs Hle]. split; [done|].
  eapply Forall_impl; [done|]. intros t Ht. cbn in Ht. lia.
Qed.

Lemma queue_ordered_touched ov K now b e :
  (b ≤ now)%Z → queue_ordered b e →
  queue_ordered now (write ov (touched K now e)).
Proof.
  intros Hb [Hs Hle]. unfold queue_ordered. rewrite access_time_write.
  assert (StronglySorted Z.le (access_time_ e ++ [now]) ∧
          Forall (λ t, (t ≤ now)%Z) (access_time_ e ++ [now])) as [Hs' Hle'].
  { split.
    - apply StronglySorted_app.
      split; [|split; [done|repeat constructor]].
      intros t1 t2 Ht1 ->%list_elem_of_singleton.
      rewrite Forall_forall in Hle. specialize (Hle t1 Ht1). cbn in Hle. lia.
    - apply Forall_app. split; [|by repeat constructor].
      eapply Forall_impl; [done|]. intros t Ht. cbn in Ht. lia. }
  unfold touched. destruct (_ <? _)%Z; cbn [q_pop q_push access_time_]; [|done].
  destruct (access_time_ e ++ [now]) as [|t q]; [done|]. cbn [tail].
  apply StronglySorted_inv in Hs' as [? _].
  by apply Forall_cons in Hle' as [_ ?].
Qed.

Lemma exec_queue_ordered now o C K s s' b :
  (1 ≤ C)%Z → (1 ≤ K)%Z → inv C K s → exec now o s = Some s' →
  (b ≤ now)%Z →
  Forall (queue_ordered b) (hot_entries s ++ history_entries s) →
  Forall (queue_ordered now) (hot_entries s' ++ history_entries s').
Proof.
  intros HC HK Hinv Hexec Hb Hall. rewrite Forall_forall in Hall.
  apply Forall_forall. intros e He.
  destruct (exec_cases now o C K s s' HC HK Hinv Hexec)
    as [(ov & e0 & Hko & Hacc)|[(k0 & -> & Hk0 & ->)|[(k0 & v & -> & Hk0 & Hins)
       |[-> ->]]]].
  - destruct (accessed_entries _ _ _ _ _ _ Hacc He) as [->|Hold].
    + apply (queue_ordered_touched _ _ _ b); [done|]. apply Hall.
      by apply (accessed_entry_before now ov s e0 s').
    + apply (queue_ordered_mono b); [done|]. by apply Hall.
  - apply (queue_ordered_mono b); [done|]. by apply Hall.
  - destruct (inserted_entries _ _ _ _ _ _ Hins He) as [->|Hold].
    + split; cbn; repeat constructor. lia.
    + apply (queue_ordered_mono b); [done|]. by apply Hall.
  - by apply elem_of_nil in He.
Qed.

Lemma run_queue_ordered C K ops s s' b :
  (1 ≤ C)%Z → (1 ≤ K)%Z → inv C K s → run ops s = Some s' →
  monotone ops → Forall (λ t, (b ≤ t)%Z) (fst <$> ops) →
  Forall (queue_ordered b) (hot_entries s ++ history_entries s) →
  ∃ b', Forall (queue_ordered b') (hot_entries s' ++ history_entries s').
Proof.
  intros HC HK. revert s b.
  induction ops as [|[now o] ops IH]; intros s b Hinv Hrun Hmono Hb Hall.
  - injection Hrun as <-. by exists b.
  - cbn [run] in Hrun.
    destruct (exec now o s) as [s1|] eqn:Hexec; [|done]. cbn in Hrun.
    unfold monotone in Hmono. rewrite fmap_cons in Hmono, Hb.
    apply StronglySorted_inv in Hmono as [Hmono Hnow].
    apply Forall_cons in Hb as [Hb _]. cbn [fst] in *.
    destruct (exec_inv now o C K s HC HK Hinv) as (s1' & Heq & Hinv1).
    assert (s1' = s1) as -> by congruence.
    apply (IH s1 now Hinv1 Hrun Hmono Hnow).
    by apply (exec_queue_ordered now o C K s s1 b).
Qed.

(** X18: along a run whose clock readings never go back, every
    timestamp queue is in non-decreasing order: [front()], the sort key of
    the Hot Region, is the oldest of the retained readings. *)
Theorem timestamps_oldest_first C K ops s e :
  (1 ≤ C)%Z → (1 ≤ K)%Z → monotone ops →
  run ops (LRUK_Cache_new C K) = Some s →
  e ∈ hot_entries s ++ history_entries s →
  StronglySorted Z.le (access_time_ e) ∧
  Forall (λ t, (q_front e ≤ t)%Z) (access_time_ e).
Proof.
  intros HC HK Hmono Hrun He.
  assert (inv C K (LRUK_Cache_new C K)) as Hinv by (apply inv_new; lia).
  destruct ops as [|[t0 o0] ops].
  { injection Hrun as <-. by apply elem_of_nil in He. }
  destruct (run_queue_ordered C K ((t0, o0) :: ops) (LRUK_Cache_new C K) s t0
              HC HK Hinv Hrun Hmono) as (b & Hall).
  - unfold monotone in Hmono. rewrite fmap_cons in Hmono |- *.
    apply StronglySorted_inv in Hmono as [_ Hle].
    apply Forall_cons. split; [cbn; lia|done].
  - constructor.
  - rewrite Forall_forall in Hall. destruct (Hall e He) as [Hs _].
    split; [done|]. unfold q_front.
    destruct (access_time_ e) as [|t q]; [done|]. cbn [hd].
    apply StronglySorted_inv in Hs as [_ Hle].
    apply Forall_cons. split; [lia|done].
Qed.

Lemma timestamps_oldest_first_witness :
  let s := after main_prefix (LRUK_Cache_new 3 2) in
  let e := mkEntry 5 "E1" [8; 11]%Z in
  (1 ≤ 3)%Z ∧ (1 ≤ 2)%Z ∧ monotone main_prefix ∧
  run main_prefix (LRUK_Cache_new 3 2) = Some s ∧
  e ∈ hot_entries s ++ history_entries s ∧
  StronglySorted Z.le (access_time_ e) ∧
  Forall (λ t, (q_front e ≤ t)%Z) (access_time_ e).
Proof.
  assert (monotone main_prefix) as Hmono.
  { unfold monotone. cbn.
    repeat (constructor; [|repeat (constructor; [lia|]); constructor]).
    constructor. }
  assert (run main_prefix (LRUK_Cache_new 3 2)
          = Some (after main_prefix (LRUK_Cache_new 3 2))) as Hrun
    by (vm_compute; reflexivity).
  assert (mkEntry 5 "E1" [8; 11]%Z
          ∈ hot_entries (after main_prefix (LRUK_Cache_new 3 2))
            ++ history_entries (after main_prefix (LRUK_Cache_new 3 2)))
    as Hin by (vm_compute; left).
  cbv zeta. split; [lia|]. split; [lia|]. split; [exact Hmono|].
  split; [exact Hrun|]. split; [exact Hin|].
  apply (timestamps_oldest_first 3 2 main_prefix
           (after main_prefix (LRUK_Cache_new 3 2)));
    [lia|lia|exact Hmono|exact Hrun|exact Hin].
Defined.

Lemma contents_value_unique s k x x' :
  wf s → (k, x) ∈ contents s → (k, x') ∈ contents s → x = x'.
Proof.
  intros Hwf Hx Hx'.
  assert (NoDup (fst <$> contents s)) as Hnd.
  { rewrite <- keys_contents, <- keys_regions. apply (wf_keys _ Hwf). }
  by injection (NoDup_fmap_eq fst _ _ _ Hnd Hx Hx' eq_refl).
Qed.

(** X19: the value stored for a key changes only by a [put] of this
    key: if [k] has value [x] before an operation and a different value
    [x'] after it, the operation is [put(k, x')]. *)
Theorem value_changes_only_by_put C K s now o s' k x x' :
  (1 ≤ C)%Z → (1 ≤ K)%Z → reachable C K s →
  exec now o s = Some s' →
  (k, x) ∈ contents s → (k, x') ∈ contents s' → x ≠ x' →
  o = Put k x'.
Proof.
  intros HC HK Hs Hexec Hx Hx' Hne.
  assert (reachable C K s') as Hs' by (by eapply reachable_step).
  apply (reachable_inv C K s HC HK) in Hs.
  apply (reachable_inv C K s' HC HK) in Hs'.
  pose proof (inv_wf _ _ _ Hs) as Hwf. pose proof (inv_wf _ _ _ Hs') as Hwf'.
  assert (k ∈ keys (cacheList_ s ++ historyList_ s)) as Hk.
  { rewrite keys_regions, keys_contents.
    by apply (list_elem_of_fmap_2 fst _ (k, x)). }
  destruct (decide (key_of o = Some k)) as [Hko|Hko].
  - destruct (exec_access now o C K s k Hs HC HK Hko Hk)
      as (e & s2 & <- & He & Hexec2 & Hacc).
    assert (s2 = s') as -> by congruence.
    destruct (accessed_contents _ _ _ _ _ Hacc) as (R & HR & HR').
    assert (x = value_ e) as ->.
    { apply (contents_value_unique s (key_ e)); [done|done|].
      rewrite HR. by left. }
    assert (x' = default (value_ e) (written o)) as Hx'v.
    { apply (contents_value_unique s' (key_ e)); [done|done|].
      rewrite HR'. by left. }
    destruct o as [k1|k1 v1|]; cbn in Hko, Hx'v; [done| |done].
    congruence.
  - exfalso. apply Hne.
    destruct (exec_cases now o C K s s' HC HK Hs Hexec)
      as [(ov & e & Hke & Hacc)|[(k0 & -> & Hk0 & ->)|[(k0 & v & -> & Hk0 & Hins)
         |[-> ->]]]].
    + assert (key_ e ≠ k) as Hek by congruence.
      destruct (accessed_contents _ _ _ _ _ Hacc) as (R & HR & HR').
      rewrite HR in Hx. rewrite HR' in Hx'.
      apply elem_of_cons in Hx as [[= ? _]|Hx]; [congruence|].
      apply elem_of_cons in Hx' as [[= ? _]|Hx']; [congruence|].
      apply (contents_value_unique s k); [done| |]; rewrite HR; by right.
    + by apply (contents_value_unique s k).
    + assert (k ≠ k0) as Hkk0 by (intros ->; done).
      apply (contents_value_unique s k); [done|done|].
      rewrite contents_nodes in Hx' |- *.
      destruct Hins; revert Hx'; fields;
        rewrite !fmap_app, ?fmap_cons, ?fmap_app, ?pair_of_node;
        rewrite !elem_of_app, ?elem_of_cons, ?elem_of_app;
        intros [?|[[= ? _]|?]]; (done || tauto).
    + by apply elem_of_nil in Hx'.
Qed.

Lemma value_changes_only_by_put_witness :
  let s := after main_warm (LRUK_Cache_new 3 2) in
  let s' := after main_prefix (LRUK_Cache_new 3 2) in
  (1 ≤ 3)%Z ∧ (1 ≤ 2)%Z ∧ reachable 3 2 s ∧
  exec 11 (Put 5 "E1") s = Some s' ∧
  (5%Z, "E") ∈ contents s ∧ (5%Z, "E1") ∈ contents s' ∧ "E" ≠ "E1" ∧
  Put 5 "E1" = Put 5 "E1".
Proof.
  assert (exec 11 (Put 5 "E1") (after main_warm (LRUK_Cache_new 3 2))
          = Some (after main_prefix (LRUK_Cache_new 3 2))) as Hexec
    by (vm_compute; reflexivity).
  assert ((5%Z, "E") ∈ contents (after main_warm (LRUK_Cache_new 3 2)))
    as Hx by (vm_compute; do 5 right; left).
  assert ((5%Z, "E1") ∈ contents (after main_prefix (LRUK_Cache_new 3 2)))
    as Hx' by (vm_compute; left).
  assert ("E" ≠ "E1") as Hne by discriminate.
  cbv zeta. split; [lia|]. split; [lia|].
  split; [exact main_warm_reachable|]. split; [exact Hexec|].
  split; [exact Hx|]. split; [exact Hx'|]. split; [exact Hne|].
  apply (value_changes_only_by_put 3 2
           (after main_warm (LRUK_Cache_new 3 2)) 11 (Put 5 "E1")
           (after main_prefix (LRUK_Cache_new 3 2)) 5 "E" "E1");
    [lia|lia|exact main_warm_reachable|exact Hexec|exact Hx|exact Hx'
    |exact Hne].
Defined.

(** ** The configuration read as [size_t] *)

Section reconfigure.
Implicit Types (s : LRUK_Cache) (c k : Z) (it : iterator).

Ltac open_state :=
  unfold reconfigure, on_state, deref, update_at, cacheList_erase,
    historyList_erase, historyList_splice_front, cacheList_emplace_back,
    historyList_emplace_front, findVictimFromCache, findVictimFromHistory,
    findCacheEntry, sort_cacheList;
  fields;
  cbn [mbind option_bind fmap option_fmap option_map prod_map id fst snd];
  fields.

Ltac cases :=
  repeat (match goal with
          | it : iterator |- _ => destruct it
          | |- context [find_node ?a ?l] => destruct (find_node a l) eqn:?
          | |- context [last ?l] => destruct (last l) eqn:?
          | |- context [List.find ?f ?l] => destruct (List.find f l) eqn:?
          | |- context [(?x <? ?y)%Z] => destruct (x <? y)%Z eqn:?
          | |- context [(?x <=? ?y)%Z] => destruct (x <=? y)%Z eqn:?
          end; open_state; try done).

Lemma deref_reconfigure c k it s : deref it (reconfigure c k s) = deref it s.
Proof. by destruct it. Qed.

Lemma update_at_reconfigure c k it f s :
  update_at it f (reconfigure c k s) = reconfigure c k <$> update_at it f s.
Proof. open_state. cases. Qed.

Lemma finish_promotion_reconfigure c k k0 it s :
  finish_promotion k0 it (reconfigure c k s)
  = on_state (reconfigure c k) (finish_promotion k0 it s).
Proof. unfold finish_promotion. open_state. cases. Qed.

Lemma insert_new_reconfigure c k now k0 v s :
  insert_new now k0 v (reconfigure c k s)
  = reconfigure c k <$> insert_new now k0 v s.
Proof. unfold insert_new. open_state. cbn [list_begin]. open_state. cases. Qed.

Lemma cacheList_erase_reconfigure c k it s :
  cacheList_erase it (reconfigure c k s)
  = reconfigure c k <$> cacheList_erase it s.
Proof. open_state. cases. Qed.

Lemma promote_reconfigure c k c' k' k0 it s :
  to_size_t c = to_size_t c' →
  promote k0 it (reconfigure c k s)
  = on_state (reconfigure c k) (promote k0 it (reconfigure c' k' s)).
Proof.
  intros Hc. unfold promote. cbn [cacheList_ capacity_ reconfigure].
  rewrite Hc. destruct (_ <? _)%Z.
  - rewrite !deref_reconfigure. destruct (deref it s) as [e|]; [|done].
    cbn [mbind option_bind]. cbv zeta.
    change (cacheList_emplace_back e (reconfigure ?a ?b s))
      with (reconfigure a b (cacheList_emplace_back e s)).
    rewrite !finish_promotion_reconfigure.
    by destruct (finish_promotion _ _ _) as [[]|].
  - change (findVictimFromCache (reconfigure ?a ?b s))
      with (findVictimFromCache s).
    destruct (findVictimFromCache s) as [vict|]; [|done].
    cbn [mbind option_bind].
    rewrite !deref_reconfigure. destruct (deref it s) as [e|]; [|done].
    cbn [mbind option_bind]. cbv zeta.
    change (cacheList_emplace_back e (reconfigure ?a ?b s))
      with (reconfigure a b (cacheList_emplace_back e s)).
    rewrite !deref_reconfigure.
    destruct (deref vict _) as [v|]; [|done]. cbn [mbind option_bind].
    change (historyList_emplace_front v (reconfigure ?a ?b ?t))
      with (reconfigure a b (historyList_emplace_front v t)).
    set (s4 := historyList_emplace_front v (cacheList_emplace_back e s)).
    cbn [historyList_ history_map_ cache_map_ reconfigure].
    change (with_history_map ?m (reconfigure ?a ?b s4))
      with (reconfigure a b (with_history_map m s4)).
    set (s5 := with_history_map _ s4).
    cbn [cache_map_ reconfigure].
    change (with_cache_map ?m (reconfigure ?a ?b s5))
      with (reconfigure a b (with_cache_map m s5)).
    set (s6 := with_cache_map _ s5).
    rewrite !cacheList_erase_reconfigure.
    destruct (cacheList_erase vict s6) as [s7|]; [|done].
    cbn [fmap option_fmap option_map mbind option_bind].
    rewrite !finish_promotion_reconfigure.
    by destruct (finish_promotion _ _ _) as [[]|].
Qed.

Lemma find_node_modify a f l :
  find_node a (modify_node a f l)
  = (λ n, mkNode (addr n) (f (elem n))) <$> find_node a l.
Proof.
  unfold find_node, modify_node. induction l as [|n l IH]; [done|].
  rewrite fmap_cons. cbn [find]. destruct (Nat.eqb_spec (addr n) a) as [Ha|Ha].
  - cbn [addr]. by rewrite (proj2 (Nat.eqb_eq _ _) Ha).
  - by rewrite (proj2 (Nat.eqb_neq _ _) Ha).
Qed.

Lemma pushed_size now a s n :
  queues_nonempty s →
  find_node a (cacheList_ s ++ historyList_ s) = Some n →
  (2 ≤ q_size (q_push now (elem n)))%Z.
Proof.
  intros Hne [Hn _]%find_node_Some. unfold queues_nonempty in Hne.
  rewrite Forall_forall in Hne. specialize (Hne n Hn).
  rewrite q_size_push. unfold q_size.
  destruct (access_time_ (elem n)); [done|]. cbn [length]. lia.
Qed.

Lemma pushed_node now a s :
  find_node a (modify_node a (q_push now) (cacheList_ s)
               ++ modify_node a (q_push now) (historyList_ s))
  = (λ n, mkNode (addr n) (q_push now (elem n)))
    <$> find_node a (cacheList_ s ++ historyList_ s).
Proof.
  unfold modify_node at 1 2. rewrite <- fmap_app. apply find_node_modify.
Qed.

Lemma getFromCacheList_reconfigure c k c' k' now k0 s :
  same_thresholds k k' → queues_nonempty s →
  getFromCacheList now k0 (reconfigure c k s)
  = on_state (reconfigure c k) (getFromCacheList now k0 (reconfigure c' k' s)).
Proof.
  intros Hk Hne. unfold getFromCacheList. cbn [cache_map_ reconfigure].
  destruct (cache_map_ s !! k0) as [[| |a]|]; [done|done| |done].
  open_state.
  destruct (find_node a (cacheList_ s ++ historyList_ s)) as [n|] eqn:Hfind;
    [|done].
  open_state. rewrite pushed_node, Hfind. open_state.
  destruct (Hk _ (pushed_size now a s n Hne Hfind)) as [-> _].
  destruct (_ <? _)%Z; [|done]. cases.
Qed.

Lemma getFromHistoryList_reconfigure c k c' k' now k0 s :
  to_size_t c = to_size_t c' → same_thresholds k k' → queues_nonempty s →
  getFromHistoryList now k0 (reconfigure c k s)
  = on_state (reconfigure c k)
      (getFromHistoryList now k0 (reconfigure c' k' s)).
Proof.
  intros Hc Hk Hne. unfold getFromHistoryList. cbn [history_map_ reconfigure].
  destruct (history_map_ s !! k0) as [[| |a]|]; [done|done| |done].
  open_state.
  destruct (find_node a (cacheList_ s ++ historyList_ s)) as [n|] eqn:Hfind;
    [|done].
  open_state. rewrite pushed_node, Hfind. open_state.
  destruct (Hk _ (pushed_size now a s n Hne Hfind)) as [-> ->].
  destruct (_ <=? _)%Z.
  - destruct (_ <? _)%Z.
    + open_state.
      apply (promote_reconfigure c k c' k' k0 (node_at a)
               (mkCache c k _ _ _ _ _) Hc).
    + open_state.
      apply (promote_reconfigure c k c' k' k0 (node_at a)
               (mkCache c k _ _ _ _ _) Hc).
  - cases.
Qed.

Lemma same_thresholds_refl k : same_thresholds k k.
Proof. by intros n _. Qed.

Lemma ordered_reconfigure c k s : ordered (reconfigure c k s) ↔ ordered s.
Proof. done. Qed.

Lemma getFromCacheList_keeps_config c k now k0 s it s1 :
  queues_nonempty s →
  getFromCacheList now k0 (reconfigure c k s) = Some (it, s1) →
  s1 = reconfigure c k s1.
Proof.
  intros Hne Hget.
  rewrite (getFromCacheList_reconfigure c k c k) in Hget;
    [|apply same_thresholds_refl|done].
  destruct (getFromCacheList now k0 (reconfigure c k s)) as [[it' s']|];
    [|done].
  by injection Hget as _ <-.
Qed.

Lemma getFromHistoryList_keeps_config c k now k0 s it s1 :
  queues_nonempty s →
  getFromHistoryList now k0 (reconfigure c k s) = Some (it, s1) →
  s1 = reconfigure c k s1.
Proof.
  intros Hne Hget.
  rewrite (getFromHistoryList_reconfigure c k c k) in Hget;
    [|done|apply same_thresholds_refl|done].
  destruct (getFromHistoryList now k0 (reconfigure c k s)) as [[it' s']|];
    [|done].
  by injection Hget as _ <-.
Qed.

Lemma get_reconfigure c k c' k' now k0 s :
  to_size_t c = to_size_t c' → same_thresholds k k' → ordered s →
  get now k0 (reconfigure c k s)
  = prod_map id (reconfigure c k) <$> get now k0 (reconfigure c' k' s).
Proof.
  intros Hc Hk Hord. unfold get.
  rewrite (getFromCacheList_reconfigure c k c' k') by (done || apply Hord).
  destruct (getFromCacheList now k0 (reconfigure c' k' s)) as [[it s1]|] eqn:H1;
    [|done].
  pose proof (getFromCacheList_keeps_config _ _ _ _ _ _ _ (proj1 Hord) H1)
    as Hs1.
  pose proof (getFromCacheList_ordered _ _ _ _ _ H1 Hord) as Hord1.
  cbn [on_state fmap option_fmap option_map prod_map id fst snd mbind
       option_bind].
  destruct (negb (iterator_eqb it cache_end)).
  { rewrite deref_reconfigure. by destruct (deref it s1). }
  rewrite Hs1 at 2.
  rewrite (getFromHistoryList_reconfigure c k c' k') by (done || apply Hord1).
  destruct (getFromHistoryList now k0 (reconfigure c' k' s1)) as [[it2 s2]|];
    [|done].
  cbn [on_state fmap option_fmap option_map prod_map id fst snd mbind
       option_bind].
  destruct (negb (iterator_eqb it2 history_end)); [|done].
  rewrite deref_reconfigure. by destruct (deref it2 s2).
Qed.

Lemma put_reconfigure c k c' k' now k0 v s :
  to_size_t c = to_size_t c' → same_thresholds k k' → ordered s →
  put now k0 v (reconfigure c k s)
  = reconfigure c k <$> put now k0 v (reconfigure c' k' s).
Proof.
  intros Hc Hk Hord. unfold put.
  rewrite (getFromCacheList_reconfigure c k c' k') by (done || apply Hord).
  destruct (getFromCacheList now k0 (reconfigure c' k' s)) as [[it s1]|] eqn:H1;
    [|done].
  pose proof (getFromCacheList_keeps_config _ _ _ _ _ _ _ (proj1 Hord) H1)
    as Hs1.
  pose proof (getFromCacheList_ordered _ _ _ _ _ H1 Hord) as Hord1.
  cbn [on_state fmap option_fmap option_map prod_map id fst snd mbind
       option_bind].
  destruct (negb (iterator_eqb it cache_end)).
  { rewrite update_at_reconfigure. rewrite Hs1 at 2.
    rewrite update_at_reconfigure. by destruct (update_at it _ s1). }
  rewrite Hs1 at 2.
  rewrite (getFromHistoryList_reconfigure c k c' k') by (done || apply Hord1).
  destruct (getFromHistoryList now k0 (reconfigure c' k' s1))
    as [[it2 s2]|] eqn:H2; [|done].
  pose proof (getFromHistoryList_keeps_config _ _ _ _ _ _ _ (proj1 Hord1) H2)
    as Hs2.
  cbn [on_state fmap option_fmap option_map prod_map id fst snd mbind
       option_bind].
  destruct (negb (iterator_eqb it2 history_end)).
  { rewrite update_at_reconfigure. rewrite Hs2 at 2.
    rewrite update_at_reconfigure. by destruct (update_at it2 _ s2). }
  destruct s2 as [C2 K2 hl2 cl2 hm2 cm2 nx2]. unfold reconfigure in Hs2.
  cbn in Hs2. injection Hs2 as -> ->.
  unfold insert_new. open_state. rewrite Hc. cbn [list_begin]. cases.
Qed.

Lemma exec_reconfigure c k c' k' now o s :
  to_size_t c = to_size_t c' → same_thresholds k k' → ordered s →
  exec now o (reconfigure c k s)
  = reconfigure c k <$> exec now o (reconfigure c' k' s).
Proof.
  intros Hc Hk Hord. destruct o as [k0|k0 v|]; cbn [exec].
  - rewrite (get_reconfigure c k c' k') by done.
    by destruct (get now k0 (reconfigure c' k' s)) as [[[x f] s1]|].
  - by apply put_reconfigure.
  - done.
Qed.

Lemma exec_ordered now o s s' :
  exec now o s = Some s' → ordered s → ordered s'.
Proof.
  intros Hexec Hord. destruct o as [k0|k0 v|]; cbn [exec] in Hexec.
  - destruct (get now k0 s) as [[x s1]|] eqn:Hget; [|done].
    cbn in Hexec. injection Hexec as <-. by apply (get_ordered now k0 s x).
  - by apply (put_ordered now k0 v s).
  - injection Hexec as <-. split; constructor.
Qed.

Lemma exec_keeps_config c k now o s s1 :
  ordered s → exec now o (reconfigure c k s) = Some s1 →
  s1 = reconfigure c k s1.
Proof.
  intros Hord Hexec.
  rewrite (exec_reconfigure c k c k) in Hexec;
    [|done|apply same_thresholds_refl|done].
  destruct (exec now o (reconfigure c k s)) as [s'|]; [|done].
  by injection Hexec as <-.
Qed.

Lemma run_reconfigure c k c' k' ops s :
  to_size_t c = to_size_t c' → same_thresholds k k' → ordered s →
  run ops (reconfigure c k s)
  = reconfigure c k <$> run ops (reconfigure c' k' s).
Proof.
  intros Hc Hk. revert s. induction ops as [|[now o] ops IH]; intros s Hord.
  - done.
  - cbn [run]. rewrite (exec_reconfigure c k c' k') by done.
    destruct (exec now o (reconfigure c' k' s)) as [s1|] eqn:Hexec; [|done].
    cbn [fmap option_fmap option_map mbind option_bind].
    rewrite (exec_keeps_config _ _ _ _ _ _ Hord Hexec) at 2.
    apply IH. by apply (exec_ordered now o (reconfigure c' k' s)).
Qed.

Lemma to_size_t_unsigned z : (- 2 ^ 64 ≤ z)%Z → (0 ≤ to_size_t z)%Z.
Proof. unfold to_size_t. destruct (Z.ltb_spec z 0); lia. Qed.

Lemma to_size_t_idemp z :
  (- 2 ^ 64 ≤ z)%Z → to_size_t (to_size_t z) = to_size_t z.
Proof. intros Hz. apply to_size_t_pos. by apply to_size_t_unsigned. Qed.

Lemma same_thresholds_unsigned k :
  (- 2 ^ 64 ≤ k)%Z → same_thresholds k (Z.max 1 (to_size_t k)).
Proof.
  intros Hk n Hn. pose proof (to_size_t_unsigned k Hk) as Hu.
  rewrite (to_size_t_pos (Z.max 1 (to_size_t k))) by lia.
  destruct (Z.ltb_spec (to_size_t k) n), (Z.ltb_spec (Z.max 1 (to_size_t k)) n),
    (Z.leb_spec (to_size_t k) n), (Z.leb_spec (Z.max 1 (to_size_t k)) n);
    (done || lia).
Qed.
End reconfigure.

Lemma reachable_config C K s : reachable C K s → s = reconfigure C K s.
Proof.
  induction 1 as [|s now o s' Hs IH Hexec]; [done|].
  rewrite IH in Hexec.
  apply (exec_keeps_config C K now o s s'); [|done].
  by apply (reachable_ordered C K).
Qed.

Lemma reachable_unsigned C K s :
  (- 2 ^ 64 ≤ C)%Z → (- 2 ^ 64 ≤ K)%Z → reachable C K s →
  ∃ t, reachable (to_size_t C) (Z.max 1 (to_size_t K)) t ∧
       s = reconfigure C K t.
Proof.
  intros HC HK. induction 1 as [|s now o s' Hs (t & Ht & ->) Hexec].
  - exists (LRUK_Cache_new (to_size_t C) (Z.max 1 (to_size_t K))).
    split; [constructor|done].
  - rewrite (exec_reconfigure C K (to_size_t C) (Z.max 1 (to_size_t K)))
      in Hexec;
      [|by rewrite to_size_t_idemp|by apply same_thresholds_unsigned
       |by apply (reachable_ordered _ _ _ Ht)].
    rewrite <- (reachable_config _ _ _ Ht) in Hexec.
    destruct (exec now o t) as [t'|] eqn:Hexec'; [|done].
    injection Hexec as <-. exists t'. split; [|done].
    by apply (reachable_step _ _ t now o).
Qed.

(** X20: the class reads its configuration through comparisons with
    [size_t] values only, so a cache built with [int] arguments [(C, K)]
    behaves, on every sequence of operations, as the cache built with the
    capacity and K converted to [size_t], K raised to 1 when it is 0: the
    same operations are defined and the states differ in the two stored
    [int]s only.  So K = 0 acts as K = 1, a negative K as 2^64 + K and a
    negative capacity as 2^64 + C. *)
Theorem configuration_as_unsigned C K ops :
  (- 2 ^ 31 ≤ C < 2 ^ 31)%Z → (- 2 ^ 31 ≤ K < 2 ^ 31)%Z →
  run ops (LRUK_Cache_new C K)
  = reconfigure C K
    <$> run ops (LRUK_Cache_new (to_size_t C) (Z.max 1 (to_size_t K))).
Proof.
  intros HC HK.
  apply (run_reconfigure C K (to_size_t C) (Z.max 1 (to_size_t K)) ops
           (LRUK_Cache_new C K)).
  - rewrite to_size_t_idemp; [done|lia].
  - apply same_thresholds_unsigned. lia.
  - split; constructor.
Qed.

Lemma configuration_as_unsigned_witness :
  (- 2 ^ 31 ≤ 3 < 2 ^ 31)%Z ∧ (- 2 ^ 31 ≤ 0 < 2 ^ 31)%Z ∧
  run main_prefix (LRUK_Cache_new 3 0)
  = reconfigure 3 0
    <$> run main_prefix (LRUK_Cache_new (to_size_t 3) (Z.max 1 (to_size_t 0))).
Proof.
  split; [lia|]. split; [lia|].
  apply (configuration_as_unsigned 3 0 main_prefix); lia.
Defined.

(** X21: for every configuration with a capacity other than 0, also a
    negative capacity and K ≤ 0, every sequence of [get], [put] and [clear]
    at any clock readings returns a state, again reachable: no operation
    dereferences, updates or erases through a past-the-end or dangling
    iterator, and [--end()] is never taken of an empty list.  These are the
    undefined operations the embedding follows.  The comparison of an
    iterator into [cacheList_] with [historyList_.end()], which [get] and
    [put] make after every promotion, is not one of them: it has the value
    "not equal" here ([iterator_eqb]), and the statement does not say that
    C++ defines it. *)
Theorem operations_defined C K s ops :
  (- 2 ^ 31 ≤ C < 2 ^ 31)%Z → (- 2 ^ 31 ≤ K < 2 ^ 31)%Z → C ≠ 0%Z →
  reachable C K s →
  ∃ s', run ops s = Some s' ∧ reachable C K s'.
Proof.
  intros HC HK HC0 Hs. revert s Hs.
  induction ops as [|[now o] ops IH]; intros s Hs; [by exists s|].
  assert (is_Some (exec now o s)) as [s1 Hs1].
  { destruct (reachable_unsigned C K s) as (t & Ht & ->); [lia|lia|done|].
    rewrite (exec_reconfigure C K (to_size_t C) (Z.max 1 (to_size_t K)));
      [|rewrite to_size_t_idemp; [done|lia]
       |apply same_thresholds_unsigned; lia
       |by apply (reachable_ordered _ _ _ Ht)].
    rewrite <- (reachable_config _ _ _ Ht).
    destruct (exec_total now o (to_size_t C) (Z.max 1 (to_size_t K)) t)
      as [t' ->]; [|lia|done|done].
    unfold to_size_t. destruct (Z.ltb_spec C 0); lia. }
  cbn [run]. rewrite Hs1. cbn. apply IH. by eapply reachable_step.
Qed.

Lemma operations_defined_witness :
  (- 2 ^ 31 ≤ -1 < 2 ^ 31)%Z ∧ (- 2 ^ 31 ≤ 0 < 2 ^ 31)%Z ∧
  (-1)%Z ≠ 0%Z ∧
  reachable (-1) 0 (LRUK_Cache_new (-1) 0) ∧
  ∃ s', run main_prefix (LRUK_Cache_new (-1) 0) = Some s' ∧
        reachable (-1) 0 s'.
Proof.
  split; [lia|]. split; [lia|]. split; [lia|]. split; [constructor|].
  apply (operations_defined (-1) 0); [lia|lia|lia|constructor].
Defined.

(** X22: for every configuration with a capacity other than 0, with
    C' the capacity and K' the K as [size_t] (K' = 1 for K = 0): both
    regions hold at most C' entries, no key occurs twice, every Hot entry
    has exactly K' timestamps and every History entry between 1 and K'. *)
Theorem invariants_any_configuration C K s :
  (- 2 ^ 31 ≤ C < 2 ^ 31)%Z → (- 2 ^ 31 ≤ K < 2 ^ 31)%Z → C ≠ 0%Z →
  reachable C K s →
  (Z.of_nat (length (cacheList_ s)) ≤ to_size_t C)%Z ∧
  (Z.of_nat (length (historyList_ s)) ≤ to_size_t C)%Z ∧
  NoDup (hot_keys s ++ history_keys s) ∧
  Forall (λ e, q_size e = Z.max 1 (to_size_t K)) (hot_entries s) ∧
  Forall (λ e, (1 ≤ q_size e ≤ Z.max 1 (to_size_t K))%Z)
    (history_entries s).
Proof.
  intros HC HK HC0 Hs.
  destruct (reachable_unsigned C K s) as (t & Ht & ->); [lia|lia|done|].
  apply reachable_inv in Ht; [|unfold to_size_t; destruct (Z.ltb_spec C 0); lia
                              |lia].
  destruct Ht as [Hwf _ _ Hcs Hhs Hcq Hhq _].
  unfold hot_keys, history_keys, hot_entries, history_entries.
  cbn [cacheList_ historyList_ reconfigure].
  split; [done|]. split; [done|]. split.
  { rewrite <- fmap_app. apply (wf_keys _ Hwf). }
  split; by apply Forall_elem.
Qed.

Lemma invariants_any_configuration_witness :
  let s := after main_prefix (LRUK_Cache_new (-1) 0) in
  (- 2 ^ 31 ≤ -1 < 2 ^ 31)%Z ∧ (- 2 ^ 31 ≤ 0 < 2 ^ 31)%Z ∧
  (-1)%Z ≠ 0%Z ∧
  reachable (-1) 0 s ∧
  (Z.of_nat (length (cacheList_ s)) ≤ to_size_t (-1))%Z ∧
  (Z.of_nat (length (historyList_ s)) ≤ to_size_t (-1))%Z ∧
  NoDup (hot_keys s ++ history_keys s) ∧
  Forall (λ e, q_size e = Z.max 1 (to_size_t 0)) (hot_entries s) ∧
  Forall (λ e, (1 ≤ q_size e ≤ Z.max 1 (to_size_t 0))%Z)
    (history_entries s).
Proof.
  assert (reachable (-1) 0 (after main_prefix (LRUK_Cache_new (-1) 0)))
    as Hs.
  { apply (run_reachable (-1) 0 main_prefix (LRUK_Cache_new (-1) 0));
      [constructor|].
    vm_compute. reflexivity. }
  cbv zeta. split; [lia|]. split; [lia|]. split; [lia|]. split; [exact Hs|].
  apply (invariants_any_configuration (-1) 0); [lia|lia|lia|exact Hs].
Defined.

(** ** [clear] and the addresses of the nodes *)

Section relocate.
Context (d : nat).
Implicit Types (s : LRUK_Cache) (l : list node) (it : iterator) (a : nat).

Lemma eqb_relocate a b : Nat.eqb (d + a) (d + b) = Nat.eqb a b.
Proof.
  destruct (Nat.eqb_spec a b) as [->|Hne]; [apply Nat.eqb_refl|].
  apply Nat.eqb_neq. lia.
Qed.

Lemma find_node_relocate a l :
  find_node (d + a) (shift_node d <$> l) = shift_node d <$> find_node a l.
Proof.
  unfold find_node. induction l as [|n l IH]; [done|].
  rewrite fmap_cons. cbn [find addr shift_node]. rewrite eqb_relocate.
  by destruct (Nat.eqb (addr n) a).
Qed.

Lemma modify_node_relocate a f l :
  modify_node (d + a) f (shift_node d <$> l)
  = shift_node d <$> modify_node a f l.
Proof.
  unfold modify_node. rewrite <- !list_fmap_compose.
  apply list_fmap_ext. intros i n _. cbn. rewrite eqb_relocate.
  by destruct (Nat.eqb (addr n) a).
Qed.

Lemma erase_node_relocate a l :
  erase_node (d + a) (shift_node d <$> l) = shift_node d <$> erase_node a l.
Proof.
  unfold erase_node. induction l as [|n l IH]; [done|].
  rewrite fmap_cons. cbn [List.filter addr shift_node].
  rewrite eqb_relocate, IH. by destruct (Nat.eqb (addr n) a).
Qed.

Lemma sort_insert_relocate n l :
  sort_insert (shift_node d n) (shift_node d <$> l)
  = shift_node d <$> sort_insert n l.
Proof.
  induction l as [|m l IH]; [done|].
  rewrite fmap_cons. cbn [sort_insert elem shift_node].
  destruct (compareByAccessTime (elem m) (elem n)); [|done].
  by rewrite fmap_cons, <- IH.
Qed.

Lemma list_sort_relocate l :
  list_sort (shift_node d <$> l) = shift_node d <$> list_sort l.
Proof.
  unfold list_sort. induction l as [|n l IH]; [done|].
  rewrite fmap_cons. cbn [foldr]. by rewrite IH, sort_insert_relocate.
Qed.

Lemma find_key_relocate (k : Z) l :
  List.find (λ n, Z.eqb (nkey n) k) (shift_node d <$> l)
  = shift_node d <$> List.find (λ n, Z.eqb (nkey n) k) l.
Proof.
  induction l as [|n l IH]; [done|].
  rewrite fmap_cons. cbn [find]. unfold nkey at 1. cbn [elem shift_node].
  fold (nkey n). by destruct (Z.eqb (nkey n) k).
Qed.

Lemma map_emplace_relocate (k : Z) it (m : gmap Z iterator) :
  map_emplace k (shift_iter d it) (shift_iter d <$> m)
  = shift_iter d <$> map_emplace k it m.
Proof.
  unfold map_emplace. rewrite lookup_fmap.
  destruct (m !! k); cbn; [done|]. by rewrite fmap_insert.
Qed.

Lemma iterator_eqb_cache_end it :
  iterator_eqb (shift_iter d it) cache_end = iterator_eqb it cache_end.
Proof. by destruct it. Qed.

Lemma iterator_eqb_history_end it :
  iterator_eqb (shift_iter d it) history_end = iterator_eqb it history_end.
Proof. by destruct it. Qed.

Lemma deref_relocate it s : deref (shift_iter d it) (relocate d s) = deref it s.
Proof.
  destruct it as [| |a]; [done|done|]. unfold deref, relocate. fields.
  cbn [shift_iter]. rewrite <- fmap_app, find_node_relocate.
  by destruct (find_node a _).
Qed.

Lemma update_at_relocate it f s :
  update_at (shift_iter d it) f (relocate d s)
  = relocate d <$> update_at it f s.
Proof.
  destruct it as [| |a]; [done|done|]. unfold update_at, relocate. fields.
  cbn [shift_iter]. rewrite <- fmap_app, find_node_relocate.
  destruct (find_node a _); [|done]. bind_some.
  by rewrite !modify_node_relocate.
Qed.

Lemma cacheList_erase_relocate it s :
  cacheList_erase (shift_iter d it) (relocate d s)
  = relocate d <$> cacheList_erase it s.
Proof.
  destruct it as [| |a]; [done|done|]. unfold cacheList_erase, relocate.
  fields. cbn [shift_iter]. rewrite find_node_relocate.
  destruct (find_node a _); [|done]. bind_some.
  by rewrite erase_node_relocate.
Qed.

Lemma historyList_erase_relocate it s :
  historyList_erase (shift_iter d it) (relocate d s)
  = relocate d <$> historyList_erase it s.
Proof.
  destruct it as [| |a]; [done|done|]. unfold historyList_erase, relocate.
  fields. cbn [shift_iter]. rewrite find_node_relocate.
  destruct (find_node a _); [|done]. bind_some.
  by rewrite erase_node_relocate.
Qed.

Lemma splice_relocate it s :
  historyList_splice_front (shift_iter d it) (relocate d s)
  = relocate d <$> historyList_splice_front it s.
Proof.
  destruct it as [| |a]; [done|done|].
  unfold historyList_splice_front, relocate.
  fields. cbn [shift_iter]. rewrite find_node_relocate.
  destruct (find_node a _); [|done]. bind_some.
  by rewrite erase_node_relocate.
Qed.

Lemma emplace_back_relocate e s :
  cacheList_emplace_back e (relocate d s)
  = relocate d (cacheList_emplace_back e s).
Proof.
  unfold cacheList_emplace_back, relocate. fields.
  by rewrite fmap_app, Nat.add_succ_r.
Qed.

Lemma emplace_front_relocate e s :
  historyList_emplace_front e (relocate d s)
  = relocate d (historyList_emplace_front e s).
Proof.
  unfold historyList_emplace_front, relocate. fields.
  by rewrite fmap_cons, Nat.add_succ_r.
Qed.

Lemma findVictimFromCache_relocate s :
  findVictimFromCache (relocate d s) = shift_iter d <$> findVictimFromCache s.
Proof.
  unfold findVictimFromCache, relocate. fields. rewrite fmap_last.
  by destruct (last (cacheList_ s)).
Qed.

Lemma findVictimFromHistory_relocate s :
  findVictimFromHistory (relocate d s)
  = shift_iter d <$> findVictimFromHistory s.
Proof.
  unfold findVictimFromHistory, relocate. fields. rewrite fmap_last.
  by destruct (last (historyList_ s)).
Qed.

Lemma findCacheEntry_relocate (k : Z) s :
  findCacheEntry k (relocate d s) = (shift_iter d) (findCacheEntry k s).
Proof.
  unfold findCacheEntry, relocate. fields. rewrite find_key_relocate.
  by destruct (List.find _ (cacheList_ s)).
Qed.

Lemma sort_cacheList_relocate s :
  sort_cacheList (relocate d s) = relocate d (sort_cacheList s).
Proof.
  unfold sort_cacheList, relocate. fields. by rewrite list_sort_relocate.
Qed.

Ltac step := cbn [mbind option_bind fmap option_fmap option_map prod_map id
                  fst snd].

Lemma index_relocate (k : Z) it s :
  relocate d (with_cache_map (map_emplace k it (delete k (cache_map_ s))) s)
  = with_cache_map
      (map_emplace k (shift_iter d it) (delete k (cache_map_ (relocate d s))))
      (relocate d s).
Proof.
  unfold with_cache_map, relocate. fields.
  by rewrite <- fmap_delete, map_emplace_relocate.
Qed.

Lemma getFromCacheList_relocate now (k : Z) s :
  getFromCacheList now k (relocate d s)
  = prod_map (shift_iter d) (relocate d) <$> getFromCacheList now k s.
Proof.
  unfold getFromCacheList.
  change (cache_map_ (relocate d s)) with (shift_iter d <$> cache_map_ s).
  rewrite lookup_fmap. destruct (cache_map_ s !! k) as [it|]; step; [|done].
  rewrite update_at_relocate.
  destruct (update_at it (q_push now) s) as [s1|]; step; [|done].
  rewrite deref_relocate. destruct (deref it s1) as [e|]; step; [|done].
  change (k_ (relocate d s1)) with (k_ s1).
  destruct (_ <? _)%Z; [|done].
  rewrite update_at_relocate.
  destruct (update_at it q_pop s1) as [s2|]; step; [|done].
  cbv zeta. rewrite sort_cacheList_relocate, findCacheEntry_relocate.
  f_equal. f_equal. unfold with_cache_map at 2 4. fields.
  symmetry. apply index_relocate.
Qed.

Lemma finish_promotion_relocate (k : Z) it s :
  finish_promotion k (shift_iter d it) (relocate d s)
  = prod_map (shift_iter d) (relocate d) <$> finish_promotion k it s.
Proof.
  unfold finish_promotion. rewrite deref_relocate.
  destruct (deref it s) as [e|]; step; [|done].
  assert (with_history_map (delete (key_ e) (history_map_ (relocate d s)))
            (relocate d s)
          = relocate d (with_history_map (delete (key_ e) (history_map_ s)) s))
    as ->.
  { unfold with_history_map, relocate. fields. by rewrite fmap_delete. }
  rewrite historyList_erase_relocate.
  destruct (historyList_erase it _) as [s2|]; step; [|done].
  cbv zeta. rewrite sort_cacheList_relocate, findCacheEntry_relocate.
  f_equal. f_equal. unfold with_cache_map, relocate. fields.
  by rewrite map_emplace_relocate.
Qed.

Lemma promote_relocate (k : Z) it s :
  promote k (shift_iter d it) (relocate d s)
  = prod_map (shift_iter d) (relocate d) <$> promote k it s.
Proof.
  unfold promote.
  change (cacheList_ (relocate d s)) with (shift_node d <$> cacheList_ s).
  change (capacity_ (relocate d s)) with (capacity_ s).
  rewrite length_fmap. destruct (_ <? _)%Z.
  - rewrite deref_relocate. destruct (deref it s) as [e|]; step; [|done].
    cbv zeta. rewrite emplace_back_relocate. apply finish_promotion_relocate.
  - rewrite findVictimFromCache_relocate.
    destruct (findVictimFromCache s) as [vict|]; step; [|done].
    rewrite deref_relocate. destruct (deref it s) as [e|]; step; [|done].
    cbv zeta. rewrite emplace_back_relocate, deref_relocate.
    destruct (deref vict _) as [v|]; step; [|done].
    rewrite emplace_front_relocate.
    set (s4 := historyList_emplace_front v (cacheList_emplace_back e s)).
    assert (with_cache_map
              (delete (key_ v)
                 (cache_map_
                    (with_history_map
                       (map_emplace (key_ v)
                          (list_begin history_end
                             (historyList_ (relocate d s4)))
                          (history_map_ (relocate d s4))) (relocate d s4))))
              (with_history_map
                 (map_emplace (key_ v)
                    (list_begin history_end (historyList_ (relocate d s4)))
                    (history_map_ (relocate d s4))) (relocate d s4))
            = relocate d
                (with_cache_map
                   (delete (key_ v)
                      (cache_map_
                         (with_history_map
                            (map_emplace (key_ v)
                               (list_begin history_end (historyList_ s4))
                               (history_map_ s4)) s4)))
                   (with_history_map
                      (map_emplace (key_ v)
                         (list_begin history_end (historyList_ s4))
                         (history_map_ s4)) s4))) as ->.
    { unfold with_cache_map, with_history_map, relocate. fields.
      rewrite fmap_delete. f_equal.
      assert (list_begin history_end (shift_node d <$> historyList_ s4)
              = (shift_iter d) (list_begin history_end (historyList_ s4))) as ->
        by (by destruct (historyList_ s4)).
      by rewrite map_emplace_relocate. }
    rewrite cacheList_erase_relocate.
    destruct (cacheList_erase vict _) as [s7|]; step; [|done].
    apply finish_promotion_relocate.
Qed.

Lemma getFromHistoryList_relocate now (k : Z) s :
  getFromHistoryList now k (relocate d s)
  = prod_map (shift_iter d) (relocate d) <$> getFromHistoryList now k s.
Proof.
  unfold getFromHistoryList.
  change (history_map_ (relocate d s)) with (shift_iter d <$> history_map_ s).
  rewrite lookup_fmap. destruct (history_map_ s !! k) as [it|]; step; [|done].
  rewrite update_at_relocate.
  destruct (update_at it (q_push now) s) as [s1|]; step; [|done].
  rewrite deref_relocate. destruct (deref it s1) as [e|]; step; [|done].
  change (k_ (relocate d s1)) with (k_ s1).
  destruct (_ <=? _)%Z.
  - destruct (_ <? _)%Z.
    + rewrite update_at_relocate.
      destruct (update_at it q_pop s1) as [s2|]; step; [|done].
      apply promote_relocate.
    + step. apply promote_relocate.
  - rewrite splice_relocate.
    by destruct (historyList_splice_front it s1) as [s2|].
Qed.

Lemma get_relocate now (k : Z) s :
  get now k (relocate d s) = prod_map id (relocate d) <$> get now k s.
Proof.
  unfold get. rewrite getFromCacheList_relocate.
  destruct (getFromCacheList now k s) as [[it s1]|]; step; [|done].
  rewrite iterator_eqb_cache_end.
  destruct (negb (iterator_eqb it cache_end)).
  { rewrite deref_relocate. by destruct (deref it s1). }
  rewrite getFromHistoryList_relocate.
  destruct (getFromHistoryList now k s1) as [[it2 s2]|]; step; [|done].
  rewrite iterator_eqb_history_end.
  destruct (negb (iterator_eqb it2 history_end)); [|done].
  rewrite deref_relocate. by destruct (deref it2 s2).
Qed.

Lemma insert_new_relocate now (k : Z) v s :
  insert_new now k v (relocate d s) = relocate d <$> insert_new now k v s.
Proof.
  unfold insert_new. cbv zeta. rewrite emplace_front_relocate.
  set (s1 := historyList_emplace_front _ s).
  assert (list_begin history_end (historyList_ (relocate d s1))
          = (shift_iter d) (list_begin history_end (historyList_ s1))) as ->.
  { unfold relocate. fields. by destruct (historyList_ s1). }
  rewrite update_at_relocate.
  destruct (update_at _ _ s1) as [s2|]; step; [|done].
  f_equal. unfold with_history_map, relocate. fields.
  by rewrite map_emplace_relocate.
Qed.

Lemma put_relocate now (k : Z) v s :
  put now k v (relocate d s) = relocate d <$> put now k v s.
Proof.
  unfold put. rewrite getFromCacheList_relocate.
  destruct (getFromCacheList now k s) as [[it s1]|]; step; [|done].
  rewrite iterator_eqb_cache_end.
  destruct (negb (iterator_eqb it cache_end)).
  { apply update_at_relocate. }
  rewrite getFromHistoryList_relocate.
  destruct (getFromHistoryList now k s1) as [[it2 s2]|]; step; [|done].
  rewrite iterator_eqb_history_end.
  destruct (negb (iterator_eqb it2 history_end)).
  { apply update_at_relocate. }
  change (historyList_ (relocate d s2)) with (shift_node d <$> historyList_ s2).
  change (capacity_ (relocate d s2)) with (capacity_ s2).
  rewrite length_fmap. destruct (_ <? _)%Z.
  { apply insert_new_relocate. }
  rewrite findVictimFromHistory_relocate.
  destruct (findVictimFromHistory s2) as [vict|]; step; [|done].
  rewrite deref_relocate. destruct (deref vict s2) as [ev|]; step; [|done].
  cbv zeta.
  assert (with_history_map (delete (key_ ev) (history_map_ (relocate d s2)))
            (relocate d s2)
          = relocate d
              (with_history_map (delete (key_ ev) (history_map_ s2)) s2))
    as ->.
  { unfold with_history_map, relocate. fields. by rewrite fmap_delete. }
  rewrite historyList_erase_relocate.
  destruct (historyList_erase vict _) as [s4|]; step; [|done].
  apply insert_new_relocate.
Qed.

Lemma clear_relocate s : clear (relocate d s) = relocate d (clear s).
Proof. unfold clear, relocate. fields. by rewrite !fmap_empty. Qed.

Lemma exec_relocate now o s :
  exec now o (relocate d s) = relocate d <$> exec now o s.
Proof.
  destruct o as [k|k v|]; cbn [exec].
  - rewrite get_relocate. by destruct (get now k s) as [[[x f] s1]|].
  - apply put_relocate.
  - by rewrite clear_relocate.
Qed.

Lemma run_relocate ops s : run ops (relocate d s) = relocate d <$> run ops s.
Proof.
  revert s. induction ops as [|[now o] ops IH]; intros s; [done|].
  cbn [run]. rewrite exec_relocate.
  destruct (exec now o s) as [s1|]; step; [|done]. apply IH.
Qed.

Lemma hot_entries_relocate s : hot_entries (relocate d s) = hot_entries s.
Proof.
  unfold hot_entries, relocate. fields. by rewrite <- list_fmap_compose.
Qed.

Lemma history_entries_relocate s :
  history_entries (relocate d s) = history_entries s.
Proof.
  unfold history_entries, relocate. fields. by rewrite <- list_fmap_compose.
Qed.
End relocate.

Lemma clear_as_relocate s :
  clear s = relocate (next_ s) (LRUK_Cache_new (capacity_ s) (k_ s)).
Proof.
  unfold clear, relocate, LRUK_Cache_new. fields.
  by rewrite !fmap_empty, Nat.add_0_r.
Qed.

(** X23: [clear] takes the cache back to its initial behaviour: after
    [clear] on any reachable state, every sequence of operations is defined
    exactly when it is on a newly built cache, leaves the same entries in
    the same order in both regions and gives the same [get] results; the
    states differ in the addresses of the list nodes only. *)
Theorem clear_restarts C K s ops :
  reachable C K s →
  run ops (clear s) = relocate (next_ s) <$> run ops (LRUK_Cache_new C K) ∧
  hot_entries <$> run ops (clear s)
  = hot_entries <$> run ops (LRUK_Cache_new C K) ∧
  history_entries <$> run ops (clear s)
  = history_entries <$> run ops (LRUK_Cache_new C K) ∧
  ∀ now k,
    fst <$> (run ops (clear s) ≫= get now k)
    = fst <$> (run ops (LRUK_Cache_new C K) ≫= get now k).
Proof.
  intros Hs.
  assert (capacity_ s = C ∧ k_ s = K) as [HC HK].
  { by rewrite (reachable_config C K s Hs). }
  rewrite clear_as_relocate, HC, HK, run_relocate.
  destruct (run ops (LRUK_Cache_new C K)) as [s1|]; [|done].
  cbn [fmap option_fmap option_map mbind option_bind].
  rewrite hot_entries_relocate, history_entries_relocate.
  split; [done|]. split; [done|]. split; [done|].
  intros now k. rewrite get_relocate.
  by destruct (get now k s1) as [[[x f] s2]|].
Qed.

Lemma clear_restarts_witness :
  let s := after main_prefix (LRUK_Cache_new 3 2) in
  reachable 3 2 s ∧
  run main_fill (clear s)
  = relocate (next_ s) <$> run main_fill (LRUK_Cache_new 3 2) ∧
  hot_entries <$> run main_fill (clear s)
  = hot_entries <$> run main_fill (LRUK_Cache_new 3 2) ∧
  history_entries <$> run main_fill (clear s)
  = history_entries <$> run main_fill (LRUK_Cache_new 3 2) ∧
  ∀ now k,
    fst <$> (run main_fill (clear s) ≫= get now k)
    = fst <$> (run main_fill (LRUK_Cache_new 3 2) ≫= get now k).
Proof.
  cbv zeta. split; [exact main_prefix_reachable|].
  apply (clear_restarts 3 2 (after main_prefix (LRUK_Cache_new 3 2))
           main_fill).
  exact main_prefix_reachable.
Defined.

(** ** What an operation leaves alone *)

(** X24: [clear] apart, no operation makes the Hot Region or the cache as
    a whole smaller: a Hot Region that is full stays full, and the number of
    cached keys never goes down. *)
Theorem regions_never_shrink C K s now o s' :
  (1 ≤ C)%Z → (1 ≤ K)%Z → reachable C K s →
  exec now o s = Some s' → o ≠ Clear →
  length (cacheList_ s) ≤ length (cacheList_ s') ∧
  length (cacheList_ s) + length (historyList_ s)
  ≤ length (cacheList_ s') + length (historyList_ s').
Proof.
  intros HC HK Hs Hexec Ho. apply (reachable_inv C K s HC HK) in Hs.
  destruct (exec_cases now o C K s s' HC HK Hs Hexec)
    as [(ov & e & Hko & Hacc)|[(k0 & -> & Hk0 & ->)|[(k0 & v & -> & Hk0 & Hins)
       |[-> ->]]]]; [| | |done].
  - destruct Hacc; fields; rewrite ?list_sort_length, ?length_app;
      cbn [length]; rewrite ?length_app; cbn [length]; lia.
  - done.
  - destruct Hins; fields; rewrite ?length_app; cbn [length]; lia.
Qed.

Lemma regions_never_shrink_witness :
  let s := after main_warm (LRUK_Cache_new 3 2) in
  let s' := after main_prefix (LRUK_Cache_new 3 2) in
  (1 ≤ 3)%Z ∧ (1 ≤ 2)%Z ∧ reachable 3 2 s ∧
  exec 11 (Put 5 "E1") s = Some s' ∧ Put 5 "E1" ≠ Clear ∧
  length (cacheList_ s) ≤ length (cacheList_ s') ∧
  length (cacheList_ s) + length (historyList_ s)
  ≤ length (cacheList_ s') + length (historyList_ s').
Proof.
  assert (exec 11 (Put 5 "E1") (after main_warm (LRUK_Cache_new 3 2))
          = Some (after main_prefix (LRUK_Cache_new 3 2))) as Hexec
    by (vm_compute; reflexivity).
  assert (Put 5 "E1" ≠ Clear) as Hne by discriminate.
  cbv zeta. split; [lia|]. split; [lia|].
  split; [exact main_warm_reachable|]. split; [exact Hexec|].
  split; [exact Hne|].
  apply (regions_never_shrink 3 2 (after main_warm (LRUK_Cache_new 3 2)) 11
           (Put 5 "E1") (after main_prefix (LRUK_Cache_new 3 2)));
    [lia|lia|exact main_warm_reachable|exact Hexec|exact Hne].
Defined.

Lemma last_touched K now e :
  (1 ≤ K)%Z → last (access_time_ (touched K now e)) = Some now.
Proof.
  intros HK. unfold touched. rewrite q_size_push, to_size_t_pos by lia.
  destruct (Z.ltb_spec K (q_size e + 1)) as [Hlt|_];
    cbn [q_pop q_push access_time_]; [|apply last_snoc].
  unfold q_size in Hlt.
  destruct (access_time_ e) as [|t q]; [cbn in Hlt; lia|].
  cbn [app tail]. apply last_snoc.
Qed.

(** X25: after a [get] or [put] of a key, the entry of this key, when the
    cache holds one, has the reading of the call as its newest timestamp:
    every access that finds or creates an entry is recorded, by [put] as
    well as by [get]. *)
Theorem access_is_recorded C K s now o s' e :
  (1 ≤ C)%Z → (1 ≤ K)%Z → reachable C K s →
  exec now o s = Some s' →
  e ∈ hot_entries s' ++ history_entries s' → key_of o = Some (key_ e) →
  last (access_time_ e) = Some now.
Proof.
  intros HC HK Hs Hexec He Ho.
  assert (reachable C K s') as Hs' by (by eapply reachable_step).
  apply (reachable_inv C K s HC HK) in Hs.
  apply (reachable_inv C K s' HC HK) in Hs'.
  pose proof (inv_wf _ _ _ Hs') as Hwf'.
  pose proof (inv_k _ _ _ Hs) as HKs.
  destruct (exec_cases now o C K s s' HC HK Hs Hexec)
    as [(ov & e0 & Hko & Hacc)|[(k0 & -> & Hk0 & ->)|[(k0 & v & -> & Hk0 & Hins)
       |[-> ->]]]].
  - assert (e = write ov (touched (k_ s) now e0)) as ->.
    { apply (entry_unique s'); [done|done|by apply accessed_entry_after|].
      rewrite key_after. congruence. }
    rewrite access_time_write, HKs. by apply last_touched.
  - exfalso. apply Hk0. rewrite keys_regions. cbn in Ho. injection Ho as ->.
    by apply entry_key.
  - cbn in Ho. injection Ho as ->.
    assert (e = mkEntry (key_ e) v [now]) as ->; [|done].
    apply (entry_unique s'); [done|done| |done].
    by apply (inserted_entry_after now (key_ e) v s).
  - done.
Qed.

Lemma access_is_recorded_witness :
  let s := after main_warm (LRUK_Cache_new 3 2) in
  let s' := after main_prefix (LRUK_Cache_new 3 2) in
  let e := mkEntry 5 "E1" [8; 11]%Z in
  (1 ≤ 3)%Z ∧ (1 ≤ 2)%Z ∧ reachable 3 2 s ∧
  exec 11 (Put 5 "E1") s = Some s' ∧
  e ∈ hot_entries s' ++ history_entries s' ∧
  key_of (Put 5 "E1") = Some (key_ e) ∧
  last (access_time_ e) = Some 11%Z.
Proof.
  assert (exec 11 (Put 5 "E1") (after main_warm (LRUK_Cache_new 3 2))
          = Some (after main_prefix (LRUK_Cache_new 3 2))) as Hexec
    by (vm_compute; reflexivity).
  assert (mkEntry 5 "E1" [8; 11]%Z
          ∈ hot_entries (after main_prefix (LRUK_Cache_new 3 2))
            ++ history_entries (after main_prefix (LRUK_Cache_new 3 2)))
    as Hin by (vm_compute; left).
  cbv zeta. split; [lia|]. split; [lia|].
  split; [exact main_warm_reachable|]. split; [exact Hexec|].
  split; [exact Hin|]. split; [reflexivity|].
  apply (access_is_recorded 3 2 (after main_warm (LRUK_Cache_new 3 2)) 11
           (Put 5 "E1") (after main_prefix (LRUK_Cache_new 3 2))
           (mkEntry 5 "E1" [8; 11]%Z));
    [lia|lia|exact main_warm_reachable|exact Hexec|exact Hin|reflexivity].
Defined.

(** X26: an operation changes no entry but the one of its key: every
    entry of another key that is cached after the operation was cached
    before it with the same value and the same timestamp queue (also when
    it is demoted or pushed back by the operation). *)
Theorem other_entries_untouched C K s now o s' e :
  (1 ≤ C)%Z → (1 ≤ K)%Z → reachable C K s →
  exec now o s = Some s' →
  e ∈ hot_entries s' ++ history_entries s' → key_of o ≠ Some (key_ e) →
  e ∈ hot_entries s ++ history_entries s.
Proof.
  intros HC HK Hs Hexec He Ho. apply (reachable_inv C K s HC HK) in Hs.
  destruct (exec_cases now o C K s s' HC HK Hs Hexec)
    as [(ov & e0 & Hko & Hacc)|[(k0 & -> & Hk0 & ->)|[(k0 & v & -> & Hk0 & Hins)
       |[-> ->]]]].
  - destruct (accessed_entries _ _ _ _ _ _ Hacc He) as [->|Hold]; [|done].
    destruct Ho. by rewrite key_after.
  - done.
  - destruct (inserted_entries _ _ _ _ _ _ Hins He) as [->|Hold]; [|done].
    by destruct Ho.
  - by apply elem_of_nil in He.
Qed.

Lemma other_entries_untouched_witness :
  let s := after main_warm (LRUK_Cache_new 3 2) in
  let s' := after main_prefix (LRUK_Cache_new 3 2) in
  let e := mkEntry 2 "B" [2; 5]%Z in
  (1 ≤ 3)%Z ∧ (1 ≤ 2)%Z ∧ reachable 3 2 s ∧
  exec 11 (Put 5 "E1") s = Some s' ∧
  e ∈ hot_entries s' ++ history_entries s' ∧
  key_of (Put 5 "E1") ≠ Some (key_ e) ∧
  e ∈ hot_entries s ++ history_entries s.
Proof.
  assert (exec 11 (Put 5 "E1") (after main_warm (LRUK_Cache_new 3 2))
          = Some (after main_prefix (LRUK_Cache_new 3 2))) as Hexec
    by (vm_compute; reflexivity).
  assert (mkEntry 2 "B" [2; 5]%Z
          ∈ hot_entries (after main_prefix (LRUK_Cache_new 3 2))
            ++ history_entries (after main_prefix (LRUK_Cache_new 3 2)))
    as Hin by (vm_compute; do 3 right; left).
  assert (key_of (Put 5 "E1") ≠ Some (key_ (mkEntry 2 "B" [2; 5]%Z)))
    as Hne by discriminate.
  cbv zeta. split; [lia|]. split; [lia|].
  split; [exact main_warm_reachable|]. split; [exact Hexec|].
  split; [exact Hin|]. split; [exact Hne|].
  apply (other_entries_untouched 3 2 (after main_warm (LRUK_Cache_new 3 2))
           11 (Put 5 "E1") (after main_prefix (LRUK_Cache_new 3 2))
           (mkEntry 2 "B" [2; 5]%Z));
    [lia|lia|exact main_warm_reachable|exact Hexec|exact Hin|exact Hne].
Defined.

(** ** The clock *)

Section retime.
Context (phi : time_point → time_point).
Hypothesis phi_increasing : ∀ a b, (a < b)%Z → (phi a < phi b)%Z.
Implicit Types (s : LRUK_Cache) (l : list node) (it : iterator) (a : nat)
  (e : CacheEntry).

Ltac step := cbn [mbind option_bind fmap option_fmap option_map prod_map id
                  fst snd].

Lemma q_size_retime e : q_size (retime_entry phi e) = q_size e.
Proof. unfold q_size. cbn. by rewrite length_fmap. Qed.

Lemma q_push_retime now e :
  q_push (phi now) (retime_entry phi e) = retime_entry phi (q_push now e).
Proof. unfold q_push, retime_entry. cbn. by rewrite fmap_app. Qed.

Lemma q_pop_retime e : q_pop (retime_entry phi e) = retime_entry phi (q_pop e).
Proof. unfold q_pop, retime_entry. cbn. by rewrite fmap_tail. Qed.

Lemma set_value_retime v e :
  set_value v (retime_entry phi e) = retime_entry phi (set_value v e).
Proof. done. Qed.

Lemma compare_retime e1 e2 :
  access_time_ e1 ≠ [] → access_time_ e2 ≠ [] →
  compareByAccessTime (retime_entry phi e1) (retime_entry phi e2)
  = compareByAccessTime e1 e2.
Proof.
  unfold compareByAccessTime, q_front. cbn.
  destruct (access_time_ e1) as [|t1 q1], (access_time_ e2) as [|t2 q2];
    [done|done|done|]. intros _ _. cbn.
  destruct (Z.ltb_spec t2 t1) as [Hlt|Hge].
  - apply Z.ltb_lt. by apply phi_increasing.
  - apply Z.ltb_ge. destruct (decide (t1 = t2)) as [->|Hne]; [lia|].
    assert (t1 < t2)%Z as Hlt by lia. apply phi_increasing in Hlt. lia.
Qed.

Lemma find_node_retime a l :
  find_node a (retime_node phi <$> l) = retime_node phi <$> find_node a l.
Proof.
  unfold find_node. induction l as [|n l IH]; [done|].
  rewrite fmap_cons. cbn [find addr retime_node].
  by destruct (Nat.eqb (addr n) a).
Qed.

Lemma modify_node_retime a (g g' : CacheEntry → CacheEntry) l :
  (∀ e, g' (retime_entry phi e) = retime_entry phi (g e)) →
  modify_node a g' (retime_node phi <$> l)
  = retime_node phi <$> modify_node a g l.
Proof.
  intros Hg. unfold modify_node. rewrite <- !list_fmap_compose.
  apply list_fmap_ext. intros i n _. cbn.
  destruct (Nat.eqb (addr n) a); [|done].
  unfold retime_node. cbn. by rewrite Hg.
Qed.

Lemma erase_node_retime a l :
  erase_node a (retime_node phi <$> l) = retime_node phi <$> erase_node a l.
Proof.
  unfold erase_node. induction l as [|n l IH]; [done|].
  rewrite fmap_cons. cbn [List.filter addr retime_node].
  rewrite IH. by destruct (Nat.eqb (addr n) a).
Qed.

Lemma sort_insert_retime n l :
  access_time_ (elem n) ≠ [] → nonempty l →
  sort_insert (retime_node phi n) (retime_node phi <$> l)
  = retime_node phi <$> sort_insert n l.
Proof.
  intros Hn. induction l as [|m l IH]; intros Hl; [done|].
  apply Forall_cons in Hl as [Hm Hl].
  rewrite fmap_cons. cbn [sort_insert elem retime_node].
  rewrite compare_retime by done.
  destruct (compareByAccessTime (elem m) (elem n)); [|done].
  by rewrite fmap_cons, <- IH.
Qed.

Lemma sort_insert_nonempty n l :
  access_time_ (elem n) ≠ [] → nonempty l → nonempty (sort_insert n l).
Proof.
  intros Hn Hl. unfold nonempty. rewrite sort_insert_perm.
  by apply Forall_cons.
Qed.

Lemma list_sort_retime l :
  nonempty l →
  list_sort (retime_node phi <$> l) = retime_node phi <$> list_sort l.
Proof.
  unfold list_sort. induction l as [|n l IH]; intros Hl; [done|].
  apply Forall_cons in Hl as [Hn Hl].
  rewrite fmap_cons. cbn [foldr]. rewrite IH by done.
  apply sort_insert_retime; [done|].
  unfold nonempty. fold (list_sort l). by rewrite list_sort_perm.
Qed.

Lemma find_key_retime (k : Z) l :
  List.find (λ n, Z.eqb (nkey n) k) (retime_node phi <$> l)
  = retime_node phi <$> List.find (λ n, Z.eqb (nkey n) k) l.
Proof.
  induction l as [|n l IH]; [done|].
  rewrite fmap_cons. cbn [find]. unfold nkey at 1. cbn [elem retime_node key_
    retime_entry].
  fold (nkey n). by destruct (Z.eqb (nkey n) k).
Qed.

Lemma deref_retime it s :
  deref it (retime phi s) = retime_entry phi <$> deref it s.
Proof.
  destruct it as [| |a]; [done|done|]. unfold deref, retime. fields.
  rewrite <- fmap_app, find_node_retime.
  by destruct (find_node a _).
Qed.

Lemma update_at_retime it (g g' : CacheEntry → CacheEntry) s :
  (∀ e, g' (retime_entry phi e) = retime_entry phi (g e)) →
  update_at it g' (retime phi s) = retime phi <$> update_at it g s.
Proof.
  intros Hg. destruct it as [| |a]; [done|done|].
  unfold update_at, retime. fields.
  rewrite <- fmap_app, find_node_retime.
  destruct (find_node a _); [|done]. bind_some.
  by rewrite !(modify_node_retime a g g').
Qed.

Lemma cacheList_erase_retime it s :
  cacheList_erase it (retime phi s) = retime phi <$> cacheList_erase it s.
Proof.
  destruct it as [| |a]; [done|done|]. unfold cacheList_erase, retime.
  fields. rewrite find_node_retime.
  destruct (find_node a _); [|done]. bind_some.
  by rewrite erase_node_retime.
Qed.

Lemma historyList_erase_retime it s :
  historyList_erase it (retime phi s) = retime phi <$> historyList_erase it s.
Proof.
  destruct it as [| |a]; [done|done|]. unfold historyList_erase, retime.
  fields. rewrite find_node_retime.
  destruct (find_node a _); [|done]. bind_some.
  by rewrite erase_node_retime.
Qed.

Lemma splice_retime it s :
  historyList_splice_front it (retime phi s)
  = retime phi <$> historyList_splice_front it s.
Proof.
  destruct it as [| |a]; [done|done|].
  unfold historyList_splice_front, retime.
  fields. rewrite find_node_retime.
  destruct (find_node a _); [|done]. bind_some.
  by rewrite erase_node_retime.
Qed.

Lemma emplace_back_retime e s :
  cacheList_emplace_back (retime_entry phi e) (retime phi s)
  = retime phi (cacheList_emplace_back e s).
Proof.
  unfold cacheList_emplace_back, retime. fields. by rewrite fmap_app.
Qed.

Lemma emplace_front_retime e s :
  historyList_emplace_front (retime_entry phi e) (retime phi s)
  = retime phi (historyList_emplace_front e s).
Proof. done. Qed.

Lemma findVictimFromCache_retime s :
  findVictimFromCache (retime phi s) = findVictimFromCache s.
Proof.
  unfold findVictimFromCache, retime. fields. rewrite fmap_last.
  by destruct (last (cacheList_ s)).
Qed.

Lemma findVictimFromHistory_retime s :
  findVictimFromHistory (retime phi s) = findVictimFromHistory s.
Proof.
  unfold findVictimFromHistory, retime. fields. rewrite fmap_last.
  by destruct (last (historyList_ s)).
Qed.

Lemma findCacheEntry_retime (k : Z) s :
  findCacheEntry k (retime phi s) = findCacheEntry k s.
Proof.
  unfold findCacheEntry, retime. fields. rewrite find_key_retime.
  by destruct (List.find _ (cacheList_ s)).
Qed.

Lemma sort_cacheList_retime s :
  nonempty (cacheList_ s) →
  sort_cacheList (retime phi s) = retime phi (sort_cacheList s).
Proof.
  intros Hne. unfold sort_cacheList, retime. fields.
  by rewrite list_sort_retime.
Qed.

Lemma list_begin_retime pe l :
  list_begin pe (retime_node phi <$> l) = list_begin pe l.
Proof. by destruct l. Qed.

Lemma nonempty_cache s : queues_nonempty s → nonempty (cacheList_ s).
Proof. unfold queues_nonempty, nonempty. by intros [? _]%Forall_app. Qed.

Lemma update_push_nonempty now it s s1 :
  queues_nonempty s → update_at it (q_push now) s = Some s1 →
  queues_nonempty s1.
Proof.
  intros Hne (a & -> & ->)%update_at_Some. unfold queues_nonempty in *.
  fields. apply Forall_app in Hne as [Hc Hh].
  apply Forall_app. split; apply nonempty_modify; try done;
    intros e _; apply push_nonempty.
Qed.

Lemma update_pop_push_nonempty now it s s1 s2 :
  queues_nonempty s → update_at it (q_push now) s = Some s1 →
  update_at it q_pop s1 = Some s2 → queues_nonempty s2.
Proof.
  intros Hne (a & -> & ->)%update_at_Some (a' & [= <-] & ->)%update_at_Some.
  unfold queues_nonempty in *. fields. rewrite !modify_node_compose.
  apply Forall_app in Hne as [Hc Hh].
  apply Forall_app. split; apply nonempty_modify; try done;
    intros e He; by apply pop_push_nonempty.
Qed.

Lemma getFromCacheList_retime now (k : Z) s :
  queues_nonempty s →
  getFromCacheList (phi now) k (retime phi s)
  = prod_map id (retime phi) <$> getFromCacheList now k s.
Proof.
  intros Hne. unfold getFromCacheList.
  change (cache_map_ (retime phi s)) with (cache_map_ s).
  destruct (cache_map_ s !! k) as [it|]; step; [|done].
  rewrite (update_at_retime it (q_push now) (q_push (phi now)))
    by apply q_push_retime.
  destruct (update_at it (q_push now) s) as [s1|] eqn:H1; step; [|done].
  rewrite deref_retime. destruct (deref it s1) as [e|]; step; [|done].
  rewrite q_size_retime. change (k_ (retime phi s1)) with (k_ s1).
  destruct (_ <? _)%Z; [|done].
  rewrite (update_at_retime it q_pop q_pop) by apply q_pop_retime.
  destruct (update_at it q_pop s1) as [s2|] eqn:H2; step; [|done].
  cbv zeta. rewrite sort_cacheList_retime, findCacheEntry_retime; [done|].
  apply nonempty_cache. by apply (update_pop_push_nonempty now it s s1).
Qed.

Lemma finish_promotion_retime (k : Z) it s :
  nonempty (cacheList_ s) →
  finish_promotion k it (retime phi s)
  = prod_map id (retime phi) <$> finish_promotion k it s.
Proof.
  intros Hne. unfold finish_promotion. rewrite deref_retime.
  destruct (deref it s) as [e|]; step; [|done].
  change (with_history_map (delete (key_ (retime_entry phi e))
                              (history_map_ (retime phi s))) (retime phi s))
    with (retime phi (with_history_map (delete (key_ e) (history_map_ s)) s)).
  rewrite historyList_erase_retime.
  destruct (historyList_erase it _) as [s2|] eqn:H2; step; [|done].
  apply historyList_erase_Some in H2 as [Hcl _].
  cbv zeta. rewrite sort_cacheList_retime, findCacheEntry_retime; [done|].
  by rewrite Hcl.
Qed.

Lemma promote_retime (k : Z) it s :
  queues_nonempty s →
  promote k it (retime phi s) = prod_map id (retime phi) <$> promote k it s.
Proof.
  intros Hne. unfold promote.
  change (cacheList_ (retime phi s)) with (retime_node phi <$> cacheList_ s).
  change (capacity_ (retime phi s)) with (capacity_ s).
  rewrite length_fmap. destruct (_ <? _)%Z.
  - rewrite deref_retime. destruct (deref it s) as [e|] eqn:He; step; [|done].
    cbv zeta. rewrite emplace_back_retime. apply finish_promotion_retime.
    unfold cacheList_emplace_back. fields. apply Forall_app.
    split; [by apply nonempty_cache|]. apply Forall_singleton.
    by apply (deref_nonempty it s).
  - rewrite findVictimFromCache_retime.
    destruct (findVictimFromCache s) as [vict|]; step; [|done].
    rewrite deref_retime. destruct (deref it s) as [e|] eqn:He; step; [|done].
    cbv zeta. rewrite emplace_back_retime, deref_retime.
    destruct (deref vict _) as [v|]; step; [|done].
    rewrite emplace_front_retime.
    set (s4 := historyList_emplace_front v (cacheList_emplace_back e s)).
    assert (with_cache_map
              (delete (key_ (retime_entry phi v))
                 (cache_map_
                    (with_history_map
                       (map_emplace (key_ (retime_entry phi v))
                          (list_begin history_end
                             (historyList_ (retime phi s4)))
                          (history_map_ (retime phi s4))) (retime phi s4))))
              (with_history_map
                 (map_emplace (key_ (retime_entry phi v))
                    (list_begin history_end (historyList_ (retime phi s4)))
                    (history_map_ (retime phi s4))) (retime phi s4))
            = retime phi
                (with_cache_map
                   (delete (key_ v)
                      (cache_map_
                         (with_history_map
                            (map_emplace (key_ v)
                               (list_begin history_end (historyList_ s4))
                               (history_map_ s4)) s4)))
                   (with_history_map
                      (map_emplace (key_ v)
                         (list_begin history_end (historyList_ s4))
                         (history_map_ s4)) s4))) as ->.
    { unfold with_cache_map, with_history_map, retime. fields.
      by rewrite list_begin_retime. }
    rewrite cacheList_erase_retime.
    destruct (cacheList_erase vict _) as [s7|] eqn:H7; step; [|done].
    apply finish_promotion_retime.
    apply cacheList_erase_Some in H7 as [_ Hsub]. revert Hsub. fields.
    intros Hsub. apply (nonempty_sub _ _ Hsub). apply Forall_app.
    split; [by apply nonempty_cache|]. apply Forall_singleton.
    by apply (deref_nonempty it s).
Qed.

Lemma getFromHistoryList_retime now (k : Z) s :
  queues_nonempty s →
  getFromHistoryList (phi now) k (retime phi s)
  = prod_map id (retime phi) <$> getFromHistoryList now k s.
Proof.
  intros Hne. unfold getFromHistoryList.
  change (history_map_ (retime phi s)) with (history_map_ s).
  destruct (history_map_ s !! k) as [it|]; step; [|done].
  rewrite (update_at_retime it (q_push now) (q_push (phi now)))
    by apply q_push_retime.
  destruct (update_at it (q_push now) s) as [s1|] eqn:H1; step; [|done].
  rewrite deref_retime. destruct (deref it s1) as [e|]; step; [|done].
  rewrite q_size_retime. change (k_ (retime phi s1)) with (k_ s1).
  destruct (_ <=? _)%Z.
  - destruct (_ <? _)%Z.
    + rewrite (update_at_retime it q_pop q_pop) by apply q_pop_retime.
      destruct (update_at it q_pop s1) as [s2|] eqn:H2; step; [|done].
      apply promote_retime. by apply (update_pop_push_nonempty now it s s1).
    + step. apply promote_retime. by apply (update_push_nonempty now it s).
  - rewrite splice_retime.
    by destruct (historyList_splice_front it s1) as [s2|].
Qed.

Lemma get_retime now (k : Z) s :
  ordered s →
  get (phi now) k (retime phi s) = prod_map id (retime phi) <$> get now k s.
Proof.
  intros Hord. unfold get. rewrite getFromCacheList_retime by apply Hord.
  destruct (getFromCacheList now k s) as [[it s1]|] eqn:H1; step; [|done].
  pose proof (getFromCacheList_ordered _ _ _ _ _ H1 Hord) as Hord1.
  destruct (negb (iterator_eqb it cache_end)).
  { rewrite deref_retime. by destruct (deref it s1). }
  rewrite getFromHistoryList_retime by apply Hord1.
  destruct (getFromHistoryList now k s1) as [[it2 s2]|]; step; [|done].
  destruct (negb (iterator_eqb it2 history_end)); [|done].
  rewrite deref_retime. by destruct (deref it2 s2).
Qed.

Lemma insert_new_retime now (k : Z) v s :
  insert_new (phi now) k v (retime phi s)
  = retime phi <$> insert_new now k v s.
Proof.
  unfold insert_new. cbv zeta.
  change (historyList_emplace_front (mkEntry k v []) (retime phi s))
    with (retime phi (historyList_emplace_front (mkEntry k v []) s)).
  set (s1 := historyList_emplace_front _ s).
  change (historyList_ (retime phi s1))
    with (retime_node phi <$> historyList_ s1).
  rewrite list_begin_retime.
  rewrite (update_at_retime _ (q_push now) (q_push (phi now)))
    by apply q_push_retime.
  by destruct (update_at _ _ s1) as [s2|].
Qed.

Lemma put_retime now (k : Z) v s :
  ordered s →
  put (phi now) k v (retime phi s) = retime phi <$> put now k v s.
Proof.
  intros Hord. unfold put. rewrite getFromCacheList_retime by apply Hord.
  destruct (getFromCacheList now k s) as [[it s1]|] eqn:H1; step; [|done].
  pose proof (getFromCacheList_ordered _ _ _ _ _ H1 Hord) as Hord1.
  destruct (negb (iterator_eqb it cache_end)).
  { by apply update_at_retime. }
  rewrite getFromHistoryList_retime by apply Hord1.
  destruct (getFromHistoryList now k s1) as [[it2 s2]|]; step; [|done].
  destruct (negb (iterator_eqb it2 history_end)).
  { by apply update_at_retime. }
  change (historyList_ (retime phi s2))
    with (retime_node phi <$> historyList_ s2).
  change (capacity_ (retime phi s2)) with (capacity_ s2).
  rewrite length_fmap. destruct (_ <? _)%Z.
  { apply insert_new_retime. }
  rewrite (findVictimFromHistory_retime s2).
  destruct (findVictimFromHistory s2) as [vict|]; step; [|done].
  rewrite deref_retime. destruct (deref vict s2) as [ev|]; step; [|done].
  cbv zeta.
  change (with_history_map (delete (key_ (retime_entry phi ev))
                              (history_map_ (retime phi s2))) (retime phi s2))
    with (retime phi
            (with_history_map (delete (key_ ev) (history_map_ s2)) s2)).
  rewrite historyList_erase_retime.
  destruct (historyList_erase vict _) as [s4|]; step; [|done].
  apply insert_new_retime.
Qed.

Lemma exec_retime now o s :
  ordered s → exec (phi now) o (retime phi s) = retime phi <$> exec now o s.
Proof.
  intros Hord. destruct o as [k|k v|]; cbn [exec].
  - rewrite get_retime by done. by destruct (get now k s) as [[[x f] s1]|].
  - by apply put_retime.
  - done.
Qed.

Lemma run_retime ops s :
  ordered s →
  run (retime_ops phi ops) (retime phi s) = retime phi <$> run ops s.
Proof.
  revert s. induction ops as [|[now o] ops IH]; intros s Hord; [done|].
  unfold retime_ops. rewrite fmap_cons. cbn [run prod_map fst snd id].
  rewrite exec_retime by done.
  destruct (exec now o s) as [s1|] eqn:Hexec; step; [|done]. apply IH.
  by apply (exec_ordered now o s).
Qed.
End retime.

(** X27: the cache depends on the order of the clock readings only, not
    on their values: for every strictly increasing [phi], a sequence of
    operations at the readings [phi t] is defined exactly when it is at the
    readings [t], and ends in the same state with every recorded timestamp
    [t] replaced by [phi t]: the same keys in the same order in both
    regions, with the same values.  This holds for every capacity and K. *)
Theorem clock_order_only (phi : time_point → time_point) C K ops :
  (∀ a b, (a < b)%Z → (phi a < phi b)%Z) →
  run (retime_ops phi ops) (LRUK_Cache_new C K)
  = retime phi <$> run ops (LRUK_Cache_new C K) ∧
  hot_keys <$> run (retime_ops phi ops) (LRUK_Cache_new C K)
  = hot_keys <$> run ops (LRUK_Cache_new C K) ∧
  history_keys <$> run (retime_ops phi ops) (LRUK_Cache_new C K)
  = history_keys <$> run ops (LRUK_Cache_new C K) ∧
  contents <$> run (retime_ops phi ops) (LRUK_Cache_new C K)
  = contents <$> run ops (LRUK_Cache_new C K).
Proof.
  intros Hphi.
  assert (run (retime_ops phi ops) (LRUK_Cache_new C K)
          = retime phi <$> run ops (LRUK_Cache_new C K)) as Hrun.
  { apply (run_retime phi Hphi ops (LRUK_Cache_new C K)). split; constructor. }
  split; [done|]. rewrite Hrun.
  destruct (run ops (LRUK_Cache_new C K)) as [s|]; [|done].
  cbn [fmap option_fmap option_map].
  unfold hot_keys, history_keys, contents, hot_entries, history_entries, retime.
  fields. rewrite <- !list_fmap_compose. split; [done|]. split; [done|].
  f_equal. rewrite <- !fmap_app, <- !list_fmap_compose. done.
Qed.

Lemma clock_order_only_witness :
  (∀ a b, (a < b)%Z → (2 * a + 7 < 2 * b + 7)%Z) ∧
  run (retime_ops (λ t, 2 * t + 7)%Z main_prefix) (LRUK_Cache_new 3 2)
  = retime (λ t, 2 * t + 7)%Z <$> run main_prefix (LRUK_Cache_new 3 2) ∧
  hot_keys <$> run (retime_ops (λ t, 2 * t + 7)%Z main_prefix)
                 (LRUK_Cache_new 3 2)
  = hot_keys <$> run main_prefix (LRUK_Cache_new 3 2) ∧
  history_keys <$> run (retime_ops (λ t, 2 * t + 7)%Z main_prefix)
                     (LRUK_Cache_new 3 2)
  = history_keys <$> run main_prefix (LRUK_Cache_new 3 2) ∧
  contents <$> run (retime_ops (λ t, 2 * t + 7)%Z main_prefix)
                 (LRUK_Cache_new 3 2)
  = contents <$> run main_prefix (LRUK_Cache_new 3 2).
Proof.
  split; [intros a b Hab; lia|].
  apply (clock_order_only (λ t, 2 * t + 7)%Z 3 2 main_prefix).
  intros a b Hab. lia.
Defined.

(** ** The iterator that [get] and [put] compare with [historyList_.end()] *)

Lemma wf_addr_regions s n m :
  wf s → n ∈ cacheList_ s → m ∈ historyList_ s → addr n ≠ addr m.
Proof.
  intros Hwf Hn Hm Heq. pose proof (wf_addr _ Hwf) as Hnd. unfold addrs in Hnd.
  rewrite fmap_app in Hnd. apply NoDup_app in Hnd as (_ & Hdisj & _).
  apply (Hdisj (addr n)); [by apply list_elem_of_fmap_2|].
  rewrite Heq. by apply list_elem_of_fmap_2.
Qed.

(** X28: in a cache built with C ≥ 1 and K ≥ 1, for a key held in the
    History Region the probe of the cache list returns [cacheList_.end()]
    and changes nothing, and the probe of the history list returns an
    iterator to a node.  When the access brings the timestamp count to K
    or beyond (a promotion) that node is in [cacheList_] and not in
    [historyList_]: the test [entry_it != historyList_.end()] of [get] and
    [put] then compares iterators of two different lists.  Below K the node
    is in [historyList_] and the test compares iterators of one list. *)
Theorem history_probe_iterator C K s now l1 p l2 :
  (1 ≤ C)%Z → (1 ≤ K)%Z → reachable C K s →
  historyList_ s = l1 ++ p :: l2 →
  ∃ a s',
    getFromCacheList now (nkey p) s = Some (cache_end, s) ∧
    getFromHistoryList now (nkey p) s = Some (node_at a, s') ∧
    ((K ≤ q_size (elem p) + 1)%Z →
     a ∈ addrs (cacheList_ s') ∧ a ∉ addrs (historyList_ s')) ∧
    ((q_size (elem p) + 1 < K)%Z →
     a ∈ addrs (historyList_ s') ∧ a ∉ addrs (cacheList_ s')).
Proof.
  intros HC HK Hs Hhl. apply (reachable_inv C K s HC HK) in Hs.
  pose proof (inv_capacity _ _ _ Hs) as HCs.
  pose proof (inv_k _ _ _ Hs) as HKs.
  pose proof (inv_wf _ _ _ Hs) as Hwf.
  destruct s as [C' K' hl cl hm cm nx], p as [ap ep].
  cbn in Hhl, HCs, HKs. subst.
  destruct (history_path now C K l1 ap ep l2 cl hm cm nx Hs HC HK)
    as (it & s1 & Hacc & Hmiss & Hhit & Hit & Hread & _).
  pose proof (accessed_wf _ _ _ _ _ Hacc Hwf) as Hwf1.
  assert (key_ ep ∈ history_keys
            (mkCache C K (l1 ++ mkNode ap ep :: l2) cl hm cm nx)) as Hin
    by apply (key_in_middle l1 (mkNode ap ep) l2).
  destruct it as [| |a]; [done|done|]. exists a, s1.
  unfold deref in Hread.
  destruct (find_node a _) as [n|] eqn:Hfind; [|done].
  apply find_node_Some in Hfind as [Hn Ha]. cbn in Hread.
  injection Hread as Hread.
  assert (nkey n = key_ ep) as Hkn.
  { unfold nkey. by rewrite Hread, key_touched. }
  split; [done|]. split; [done|]. cbn [elem]. split; intros Hq.
  - assert (n ∈ cacheList_ s1) as Hncl.
    { apply elem_of_app in Hn as [Hn|Hn]; [done|]. exfalso.
      apply (wf_regions_disjoint s1 (key_ ep) Hwf1).
      - by apply (accessed_promotes now None _ ep s1 Hacc Hwf).
      - rewrite <- Hkn. by apply list_elem_of_fmap_2. }
    split; [rewrite <- Ha; by apply list_elem_of_fmap_2|].
    intros (m & Hm & Hmh)%list_elem_of_fmap.
    apply (wf_addr_regions s1 n m Hwf1 Hncl Hmh). congruence.
  - assert (n ∈ historyList_ s1) as Hnhl.
    { apply elem_of_app in Hn as [Hn|Hn]; [|done]. exfalso.
      assert (key_ ep ∈ hot_keys s1) as Hhot.
      { rewrite <- Hkn. by apply list_elem_of_fmap_2. }
      destruct (accessed_hot_keys _ _ _ _ _ _ Hacc Hhot)
        as [Hold|(_ & _ & Hge)].
      - by apply (wf_regions_disjoint _ (key_ ep) Hwf).
      - cbn in Hge. lia. }
    split; [rewrite <- Ha; by apply list_elem_of_fmap_2|].
    intros (m & Hm & Hmc)%list_elem_of_fmap.
    apply (wf_addr_regions s1 m n Hwf1 Hmc Hnhl). congruence.
Qed.

Lemma history_probe_iterator_witness :
  let s := after main_warm (LRUK_Cache_new 3 2) in
  let l1 :=
    [mkNode 9 (mkEntry 7 "G" [10%Z]); mkNode 8 (mkEntry 6 "F" [9%Z])] in
  let p := mkNode 7 (mkEntry 5 "E" [8%Z]) in
  (1 ≤ 3)%Z ∧ (1 ≤ 2)%Z ∧ reachable 3 2 s ∧
  historyList_ s = l1 ++ p :: [] ∧
  ∃ a s',
    getFromCacheList 11 (nkey p) s = Some (cache_end, s) ∧
    getFromHistoryList 11 (nkey p) s = Some (node_at a, s') ∧
    ((2 ≤ q_size (elem p) + 1)%Z →
     a ∈ addrs (cacheList_ s') ∧ a ∉ addrs (historyList_ s')) ∧
    ((q_size (elem p) + 1 < 2)%Z →
     a ∈ addrs (historyList_ s') ∧ a ∉ addrs (cacheList_ s')).
Proof.
  cbv zeta. split; [lia|]. split; [lia|].
  split; [exact main_warm_reachable|]. split; [vm_compute; reflexivity|].
  apply (history_probe_iterator 3 2 _ 11
           [mkNode 9 (mkEntry 7 "G" [10%Z]); mkNode 8 (mkEntry 6 "F" [9%Z])]
           (mkNode 7 (mkEntry 5 "E" [8%Z])) []);
    [lia|lia|exact main_warm_reachable|vm_compute; reflexivity].
Defined.
